(** * decimal.js-extensions: the serializer and the expression evaluator

    A shallow embedding of [serialize/index.js] (the Decimal <-> ArrayBuffer
    codec) and of [evaluate/index.js] (the tokenizer and the top-down
    operator-precedence evaluator), with the properties of the
    specification stated and settled against them.

    JavaScript numbers are modelled by [Z]; the quantities the codec
    handles stay below 2^53, where doubles are exact, but for the exponent
    that the decoder adds up from as many as seven bytes, whose sums are
    rounded as the sums of doubles are ([to_double]).  [NaN] and
    [undefined] are the [None] of an [option].  The 32-bit conversion that
    the bitwise operators perform is written out as [to_int32]. *)

From Stdlib Require Import ZArith List Lia Bool Sorted.
From stdpp Require Import base list strings.
Import ListNotations.
Local Open Scope Z_scope.

(** ** 32-bit integer conversion of the bitwise operators *)

Definition to_int32 (z : Z) : Z := (z + 2 ^ 31) mod 2 ^ 32 - 2 ^ 31.

(** [a | b] and [a & b] *)
Definition js_or (a b : Z) : Z := Z.lor (to_int32 a) (to_int32 b).
Definition js_and (a b : Z) : Z := Z.land (to_int32 a) (to_int32 b).

(** ** Doubles

    The result of an arithmetic operation on doubles is the double nearest
    to the exact result, the one with the even significand when two are
    equally near.  [to_double] rounds an integer so to a significand of 53
    bits; up to 2^53 in magnitude every integer is a double. *)
Definition to_double (z : Z) : Z :=
  let a := Z.abs z in
  let k := Z.log2 a - 52 in
  if k <=? 0 then z
  else
    let q := a / 2 ^ k in
    let r := a mod 2 ^ k in
    let half := 2 ^ (k - 1) in
    let q := if (r >? half) || ((r =? half) && Z.odd q) then q + 1 else q in
    Z.sgn z * (q * 2 ^ k).

Module Serialize.

(** ** Constants of serialize/index.js *)

Definition BASE : Z := 10000000.
Definition BYTES_MASK : Z := 0xff.
Definition SIX_LSB_MASK : Z := 0x3f.
Definition NEG_SIGN_BIT : Z := 0x80.
Definition NEG_EXPONENT_SIGN_BIT : Z := 0x40.
Definition SMALL_INTEGER_BIT : Z := NEG_EXPONENT_SIGN_BIT.
Definition ALL_NINES : Z := BASE - 1.
Definition ALL_ZEROS : Z := 0.
Definition NINES_SIGNIFIER : Z := BASE + 1.
Definition ZEROS_SIGNIFIER : Z := BASE.
Definition INFINITY_BYTE : Z := 0x7f.
Definition NEG_INFINITY_BYTE : Z := 0xff.
Definition NAN_BYTE : Z := 0x40.
Definition RADIX : Z := BASE + 2.
Definition EXPONENT_OFFSET : Z := 7.
Definition MAX_SMALL_EXPONENT : Z := 30.
Definition MAX_SMALL_INTEGER : Z := 50.
Definition MAX_SMALLER_INTEGER : Z := 25.
Definition SMALL_INTEGER_OFFSET : Z := -25 + 37.
Definition SMALLER_INTEGER_OFFSET : Z := 38.

(** ** The decimal view: the fields [s], [e] and [d] of a Decimal *)

(** [s] is 1, -1 or NaN. *)
Inductive sign := Positive | Negative | SignNaN.

(** [e] is an integer or NaN ([None]); [d] is an array of base-1e7 limbs or
    [null] ([None]). *)
Record decimal := Dec { s : sign; e : option Z; d : option (list Z) }.

(** [sign < 0] *)
Definition negative (sg : sign) : bool :=
  match sg with Negative => true | _ => false end.

(** [isNaN(sign)] *)
Definition isNaN (sg : sign) : bool :=
  match sg with SignNaN => true | _ => false end.

(** ** convert(val, valBase, res, resBase, ri)

    [res] holds a number in base [resBase], least significant digit at
    index [ri]; the call multiplies it by [valBase] and adds [val].

    The carry loop [for (i = ri; i < res.length; i++)] is written over the
    list of the elements from index [i] on: [carry resBase x rest] is the
    loop at an element whose current content is [x] (the additions that
    earlier iterations made to it included), followed by [rest].  When
    the loop runs past the elements that existed on entry, every new
    element is created as [0], receives the carry and is examined by the
    next iteration: this is [grow].  Its fuel is the bit length of the
    carry, which a division by a base of at least 2 shortens each time. *)

(** [(x / resBase) | 0]: the quotient of the guarded, positive [x]. *)
Definition quot32 (x resBase : Z) : Z := to_int32 (Z.quot x resBase).

Fixpoint grow (fuel : nat) (resBase x : Z) : list Z :=
  match fuel with
  | O => [x]
  | S fuel' =>
      if x >? resBase - 1
      then Z.rem x resBase :: grow fuel' resBase (0 + quot32 x resBase)
      else [x]
  end.

Definition bits (x : Z) : nat := Z.to_nat (Z.log2 x + 1).

Fixpoint carry (resBase x : Z) (rest : list Z) : list Z :=
  match rest with
  | [] => grow (bits x) resBase x
  | y :: rest' =>
      if x >? resBase - 1
      then Z.rem x resBase :: carry resBase (y + quot32 x resBase) rest'
      else x :: carry resBase y rest'
  end.

(** Both callers pass an index [ri] inside [res] (the encoder pushes a zero
    byte at [startIndex] first, the decoder starts from [[0]] with index
    0), so the case of an empty tail does not arise; there JavaScript
    would store NaN. *)
Definition convert (val valBase : Z) (res : list Z) (resBase : Z) (ri : nat)
  : list Z :=
  match map (fun x => x * valBase) (drop ri res) with
  | [] => res
  | x :: rest => take ri res ++ carry resBase (x + val) rest
  end.

(** ** toArrayBuffer *)

Definition exponentByteCount_of (exponent : Z) : Z :=
  if exponent <? 0x100 then 1
  else if exponent <? 0x10000 then 2
  else if exponent <? 0x1000000 then 3
  else if exponent <? 0x100000000 then 4
  else if exponent <? 0x10000000000 then 5
  else if exponent <? 0x1000000000000 then 6
  else 7.

(** [while (exponent) { bytes.push(exponent & BYTES_MASK);
    exponent = Math.floor(exponent / 0x100); }], for the positive
    [exponent] it is entered with; the fuel is its bit length. *)
Fixpoint exponent_bytes (fuel : nat) (exponent : Z) : list Z :=
  match fuel with
  | O => []
  | S fuel' =>
      if exponent =? 0 then []
      else js_and exponent BYTES_MASK :: exponent_bytes fuel' (exponent / 0x100)
  end.

(** [digits[i] === nextDigits], false when the index is out of range. *)
Definition same_limb (x : option Z) (nextDigits : Z) : bool :=
  match x with Some y => y =? nextDigits | None => false end.

(** [while (digits[i + repeatCount] === nextDigits) repeatCount += 1] *)
Fixpoint extend_run (fuel : nat) (digits : list Z) (nextDigits : Z)
    (i repeatCount : nat) : nat :=
  match fuel with
  | O => repeatCount
  | S fuel' =>
      if same_limb (digits !! (i + repeatCount)%nat) nextDigits
      then extend_run fuel' digits nextDigits i (S repeatCount)
      else repeatCount
  end.

(** The loop over the mantissa; each iteration advances [i] by at least
    one, so [length digits] iterations are enough. *)
Fixpoint mantissa_loop (fuel : nat) (digits : list Z) (i : nat)
    (bytes : list Z) (startIndex : nat) : list Z :=
  match fuel with
  | O => bytes
  | S fuel' =>
      match digits !! i with
      | None => bytes
      | Some nextDigits =>
          let zerosOrNinesRepeatMoreThanTwice :=
            ((nextDigits =? ALL_ZEROS) || (nextDigits =? ALL_NINES))
            && same_limb (digits !! (i + 1)%nat) nextDigits
            && same_limb (digits !! (i + 2)%nat) nextDigits in
          if zerosOrNinesRepeatMoreThanTwice then
            let repeatCount := extend_run (length digits) digits nextDigits i 3 in
            let signifier :=
              if nextDigits =? ALL_ZEROS then ZEROS_SIGNIFIER else NINES_SIGNIFIER in
            let bytes := convert signifier RADIX bytes 0x100 startIndex in
            mantissa_loop fuel' digits (i + repeatCount)
              (convert (Z.of_nat repeatCount) RADIX bytes 0x100 startIndex) startIndex
          else
            mantissa_loop fuel' digits (i + 1)
              (convert nextDigits RADIX bytes 0x100 startIndex) startIndex
      end
  end.

(** [new Uint8Array(bytes)]: every element is reduced modulo 256. *)
Definition toUint8Array (bytes : list Z) : list Z :=
  map (fun b => b mod 0x100) bytes.

(** The first byte and the exponent bytes of the general case, with
    [exponentByteCount].  A NaN exponent (which no Decimal with digits
    has) fails every comparison and is 0 under [|=]. *)
Definition header (sg : sign) (exponent : option Z) : list Z * Z :=
  let firstByte := if negative sg then NEG_SIGN_BIT else 0 in
  match exponent with
  | None => ([firstByte], 0)
  | Some exponent =>
      let '(firstByte, exponent) :=
        if exponent <? 0
        then (js_or firstByte NEG_EXPONENT_SIGN_BIT, - exponent)
        else (firstByte, exponent) in
      if exponent >? MAX_SMALL_EXPONENT then
        let exponentByteCount := exponentByteCount_of exponent in
        (js_or firstByte exponentByteCount :: exponent_bytes (bits exponent) exponent,
         exponentByteCount)
      else
        let firstByte :=
          if negb (exponent =? 0)
          then js_or firstByte (exponent + EXPONENT_OFFSET)
          else firstByte in
        ([firstByte], 0)
  end.

Definition isSmallInteger (digits : list Z) (exponent : option Z) : bool :=
  match digits, exponent with
  | [firstDigits], Some exponent =>
      (firstDigits <=? MAX_SMALL_INTEGER)
      && (exponent =? (if firstDigits <? 10 then 0 else 1))
  | _, _ => false
  end.

Definition toArrayBuffer (this : decimal) : list Z :=
  let exponent := e this in
  let sign := s this in
  toUint8Array
    match d this with
    | None =>
        [ if isNaN sign then NAN_BYTE
          else if negative sign then NEG_INFINITY_BYTE else INFINITY_BYTE ]
    | Some digits =>
        if isSmallInteger digits exponent then
          let firstDigits := default 0 (digits !! 0%nat) in
          let firstByte :=
            if firstDigits >? MAX_SMALLER_INTEGER
            then js_or (firstDigits + SMALL_INTEGER_OFFSET) SMALL_INTEGER_BIT
            else js_or (firstDigits + SMALLER_INTEGER_OFFSET) 0 in
          let firstByte :=
            if negative sign then js_or firstByte NEG_SIGN_BIT else firstByte in
          [firstByte]
        else
          let '(bytes, exponentByteCount) := header sign exponent in
          let startIndex := Z.to_nat (exponentByteCount + 1) in
          let bytes := bytes ++ [0] in
          mantissa_loop (length digits) digits 0 bytes startIndex
    end.

(** ** fromArrayBuffer *)

(** The argument of [fromArrayBuffer]: an ArrayBuffer with its bytes, or any
    other JavaScript value. *)
Inductive jsvalue := ArrayBuffer (bytes : list Z) | NotArrayBuffer.

(** The constructor passed to [fromArrayBuffer], read for [maxE] and
    [minE] only. *)
Record Decimal_ctor := Ctor { maxE : Z; minE : Z }.

(** The limits that the host accepts for its exponents: [maxE] from 0 to
    9e15 and [minE] from -9e15 to 0. *)
Definition host_range (Decimal : Decimal_ctor) : Prop :=
  0 <= maxE Decimal <= 9000000000000000
  /\ -9000000000000000 <= minE Decimal <= 0.

(** What a call does: it throws, returns [null], returns an object with the
    fields [d], [e], [s], or is still running when the fuel of the model is
    spent. *)
Inductive result :=
| Throws
| Null
| Returns (x : decimal)
| Running.

(** [bytes[i]] with a numeric index that may have left the array. *)
Definition at_index (a : list Z) (i : Z) : option Z :=
  if i <? 0 then None else a !! Z.to_nat i.

(** NaN-propagating arithmetic on numbers that may be NaN. *)
Definition num_add (a b : option Z) : option Z :=
  match a, b with Some x, Some y => Some (x + y) | _, _ => None end.
Definition num_mul (a b : option Z) : option Z :=
  match a, b with Some x, Some y => Some (x * y) | _, _ => None end.
Definition num_neg (a : option Z) : option Z :=
  match a with Some x => Some (- x) | None => None end.
Definition num_gt (a : option Z) (b : Z) : bool :=
  match a with Some x => x >? b | None => false end.
Definition num_lt (a : option Z) (b : Z) : bool :=
  match a with Some x => x <? b | None => false end.

(** The double that an operation on doubles gives. *)
Definition num_round (a : option Z) : option Z := option_map to_double a.

(** [for (let i = 0; i < exponentByteCount; ) {
      const leftShift = 0x100 ** i; exponent += bytes[++i] * leftShift; }]
    with [n] iterations left.  The count is at most seven, so [leftShift]
    is a power of two up to 2^48 and exact; the product and the sum are
    doubles, and the sum is no longer exact when it passes 2^53. *)
Fixpoint exponent_loop (n : nat) (bytes : list Z) (i : nat)
    (exponent : option Z) : option Z :=
  match n with
  | O => exponent
  | S n' =>
      let leftShift := 0x100 ^ Z.of_nat i in
      let i := S i in
      exponent_loop n' bytes i
        (num_round
           (num_add exponent (num_round (num_mul (bytes !! i) (Some leftShift)))))
  end.

(** [for (let i = bytes.length, startIndex = 0; i > indexOfLastMantissaByte; )
      convert(bytes[--i], 0x100, digitsInReverse, RADIX, startIndex)].
    The loop is entered with [i = bytes.length], so every [bytes[--i]] it
    reads exists: the bytes from [indexOfLastMantissaByte] on, last first. *)
Definition digitsInReverse_of (bytes : list Z) (indexOfLastMantissaByte : nat)
  : list Z :=
  fold_left (fun digitsInReverse b => convert b 0x100 digitsInReverse RADIX 0)
    (rev (drop indexOfLastMantissaByte bytes)) [0].

(** [for (let repeats = digitsInReverse[--i]; repeats--; digits.push(v))]:
    the number of pushes.  An [undefined] count is NaN under [--] and ends
    the loop at once; the elements of [digitsInReverse] are never
    negative. *)
Definition repeats_of (count : option Z) : nat :=
  match count with Some n => Z.to_nat n | None => O end.

(** [for (let i = digitsInReverse.length; i; ) { ... }]: the loop that
    materializes the limbs.  Its condition is the truthiness of [i], and
    [digits] receives whatever [digitsInReverse[--i]] is, [undefined]
    included. *)
Fixpoint materialize (fuel : nat) (digitsInReverse : list Z) (i : Z)
    (digits : list (option Z)) : option (list (option Z)) :=
  if i =? 0 then Some digits
  else
    match fuel with
    | O => None
    | S fuel' =>
        let i := i - 1 in
        let nextDigits := at_index digitsInReverse i in
        if same_limb nextDigits ZEROS_SIGNIFIER then
          let i := i - 1 in
          materialize fuel' digitsInReverse i
            (digits ++ replicate (repeats_of (at_index digitsInReverse i))
                         (Some ALL_ZEROS))
        else if same_limb nextDigits NINES_SIGNIFIER then
          let i := i - 1 in
          materialize fuel' digitsInReverse i
            (digits ++ replicate (repeats_of (at_index digitsInReverse i))
                         (Some ALL_NINES))
        else materialize fuel' digitsInReverse i (digits ++ [nextDigits])
    end.

(** The limbs of a finished array, when all its elements are numbers. *)
Fixpoint numbers (digits : list (option Z)) : option (list Z) :=
  match digits with
  | [] => Some []
  | Some x :: rest => option_map (cons x) (numbers rest)
  | None :: _ => None
  end.

(** The range check and the construction of the result. *)
Definition finish (Decimal : Decimal_ctor) (sign : sign) (exponent : option Z)
    (digits : option (list Z)) : result :=
  if num_gt exponent (maxE Decimal) || num_lt exponent (minE Decimal)
  then Returns (Dec sign None None)
  else Returns (Dec sign exponent digits).

(** The exponent and [indexOfLastMantissaByte] read from a buffer of two
    bytes or more. *)
Definition read_header (bytes : list Z) (firstByte : Z) : option Z * nat :=
  let exponent := js_and firstByte SIX_LSB_MASK in
  let '(exponent, indexOfLastMantissaByte) :=
    if exponent >? EXPONENT_OFFSET then (Some (exponent - EXPONENT_OFFSET), 1%nat)
    else if negb (exponent =? 0) then
      let exponentByteCount := Z.to_nat exponent in
      (exponent_loop exponentByteCount bytes 0 (Some 0),
       (1 + exponentByteCount)%nat)
    else (Some exponent, 1%nat) in
  let exponent :=
    if negb (js_and firstByte NEG_EXPONENT_SIGN_BIT =? 0)
    then num_neg exponent else exponent in
  (exponent, indexOfLastMantissaByte).

(** [sign = firstByte & NEG_SIGN_BIT ? -1 : 1] *)
Definition sign_of (firstByte : Z) : sign :=
  if negb (js_and firstByte NEG_SIGN_BIT =? 0) then Negative else Positive.

(** The fields read from a buffer of one byte: a special value or a small
    integer. *)
Definition single_byte (firstByte : Z) : sign * option Z * option (list Z) :=
  let sign := sign_of firstByte in
  if (firstByte =? NAN_BYTE) || (firstByte =? INFINITY_BYTE)
     || (firstByte =? NEG_INFINITY_BYTE)
  then
    let sign := if firstByte =? NAN_BYTE then SignNaN else sign in
    (sign, None, None)
  else
    let integer := js_and firstByte SIX_LSB_MASK in
    let integer :=
      if negb (js_and firstByte SMALL_INTEGER_BIT =? 0)
      then integer - SMALL_INTEGER_OFFSET
      else integer - SMALLER_INTEGER_OFFSET in
    let exponent := if integer <? 10 then 0 else 1 in
    (sign, Some exponent, Some [integer]).

(** An array whose elements are all numbers is the [d] of the result; the
    loop never returns any other (lemma [materialize_numbers]), so the
    last case below is not reached. *)
Definition fromArrayBuffer (fuel : nat) (Decimal : Decimal_ctor)
    (buffer : jsvalue) : result :=
  match buffer with
  | NotArrayBuffer => Throws
  | ArrayBuffer bytes =>
      match bytes with
      | [] => Null
      | firstByte :: _ =>
          let isSmallIntegerOrSpecialValue := (length bytes =? 1)%nat in
          if isSmallIntegerOrSpecialValue then
            let '(sign, exponent, digits) := single_byte firstByte in
            finish Decimal sign exponent digits
          else
            let sign := sign_of firstByte in
            let '(exponent, indexOfLastMantissaByte) := read_header bytes firstByte in
            let digitsInReverse := digitsInReverse_of bytes indexOfLastMantissaByte in
            match materialize fuel digitsInReverse
                    (Z.of_nat (length digitsInReverse)) [] with
            | None => Running
            | Some digits =>
                match numbers digits with
                | Some digits => finish Decimal sign exponent (Some digits)
                | None => Running
                end
            end
      end
  end.

(** The signed exponent that [fromArrayBuffer] has reconstructed when it
    comes to the range check. *)
Definition reconstructed_exponent (bytes : list Z) : option Z :=
  match bytes with
  | [] => None
  | [firstByte] => snd (fst (single_byte firstByte))
  | firstByte :: _ => fst (read_header bytes firstByte)
  end.

(** ** The digits of [digitsInReverse], read from the top

    The loop that materializes the limbs walks [digitsInReverse] from its
    last element down.  Over the list of the digits in that order, most
    significant first, a signifier takes the digit after it as its count. *)

Definition is_signifier (t : Z) : bool :=
  (t =? ZEROS_SIGNIFIER) || (t =? NINES_SIGNIFIER).

Fixpoint expand (tokens : list Z) : list Z :=
  match tokens with
  | [] => []
  | t :: rest =>
      if t =? ZEROS_SIGNIFIER then
        match rest with
        | count :: rest' => replicate (Z.to_nat count) ALL_ZEROS ++ expand rest'
        | [] => []
        end
      else if t =? NINES_SIGNIFIER then
        match rest with
        | count :: rest' => replicate (Z.to_nat count) ALL_NINES ++ expand rest'
        | [] => []
        end
      else t :: expand rest
  end.

(** The last digit is a signifier that no count follows. *)
Fixpoint unpaired (tokens : list Z) : bool :=
  match tokens with
  | [] => false
  | t :: rest =>
      if is_signifier t then
        match rest with
        | _ :: rest' => unpaired rest'
        | [] => true
        end
      else unpaired rest
  end.

(** The digits that the loop of [fromArrayBuffer] walks for a buffer, most
    significant first. *)
Definition mantissa_tokens (bytes : list Z) : list Z :=
  match bytes with
  | firstByte :: _ :: _ =>
      rev (digitsInReverse_of bytes (snd (read_header bytes firstByte)))
  | _ => []
  end.

(** ** The limit of an array

    [digits] is an array.  The language lets an array hold 2^32 - 1
    elements at most, a [push] beyond that throws a RangeError, and an
    engine gives up long before that when the memory it has is spent.
    [materialize] builds a list and has no limit, so it stands for the
    loop of the code only on the buffers whose limbs an engine can hold.
    The statements about buffers of any content are for those with 2^24
    limbs at most, which is within the reach of an engine; the limbs of
    what the encoder has written are as many as those of the Decimal it
    was given. *)
Definition MAX_LIMBS : Z := 2 ^ 24.

Definition fits_array (bytes : list Z) : Prop :=
  Z.of_nat (length (expand (mantissa_tokens bytes))) <= MAX_LIMBS.

(** ** Repeat compression, after the words of the specification

    The mantissa is cut into its maximal runs of equal limbs; a run of 0 or
    of 9999999 that repeats more than twice becomes the signifier and the
    count, every other run is emitted as it is. *)

Fixpoint groups (l : list Z) : list (Z * nat) :=
  match l with
  | [] => []
  | x :: rest =>
      match groups rest with
      | (y, n) :: g => if x =? y then (y, S n) :: g else (x, 1%nat) :: (y, n) :: g
      | [] => [(x, 1%nat)]
      end
  end.

Definition run_value (x : Z) : bool := (x =? ALL_ZEROS) || (x =? ALL_NINES).

Definition emit (g : Z * nat) : list Z :=
  let '(v, n) := g in
  if run_value v && (3 <=? n)%nat
  then [ (if v =? ALL_ZEROS then ZEROS_SIGNIFIER else NINES_SIGNIFIER); Z.of_nat n ]
  else replicate n v.

Definition rle (l : list Z) : list Z := flat_map emit (groups l).

(** The bytes after [tokens] have gone through [convert], one by one. *)
Definition feed (startIndex : nat) (bytes : list Z) (tokens : list Z) : list Z :=
  fold_left (fun bytes t => convert t RADIX bytes 0x100 startIndex) tokens bytes.

(** The number of limbs equal to [v] at the head of [l]. *)
Fixpoint run_length (v : Z) (l : list Z) : nat :=
  match l with
  | x :: rest => if x =? v then S (run_length v rest) else O
  | [] => O
  end.

(** The Decimal 1 + 1e-70000021: the limb 1, then 10000002 limbs of zeros,
    then the limb 1.  The host builds it at a precision of 70000022 digits
    or more (its precision may be set up to 1e9). *)
Definition long_zero_run : list Z := 1 :: replicate (Z.to_nat RADIX) 0 ++ [1].
Definition long_zero_run_decimal : decimal :=
  Dec Positive (Some 0) (Some long_zero_run).

(** The number a list of digits denotes in base [base], least significant
    digit first. *)
Definition value (base : Z) (l : list Z) : Z :=
  fold_right (fun x acc => x + base * acc) 0 l.

Definition byte (b : Z) : Prop := 0 <= b < 0x100.

(** The number a list of digits denotes, most significant digit first. *)
Definition horner (base : Z) (l : list Z) : Z :=
  fold_left (fun acc t => acc * base + t) l 0.

(** The digits of a number in base [base], least significant first, all in
    range and with no zero at the top; zero is the single digit 0. *)
Definition digits_ok (base : Z) (l : list Z) : Prop :=
  Forall (fun x => 0 <= x < base) l.

Definition canonical (base : Z) (l : list Z) : Prop :=
  digits_ok base l /\ (l = [0] \/ exists top, last l = Some top /\ top <> 0).

(** [convert] at index 0 of an accumulator. *)
Definition accumulate (val valBase : Z) (acc : list Z) (resBase : Z) : list Z :=
  convert val valBase acc resBase 0.

(** ** The Decimals of the host

    A special value has neither limbs nor exponent.  A finite value has a
    sign of +1 or -1, an exponent within the range of the host, and limbs
    in [0, 1e7) of which the first is not zero unless the value is zero,
    whose only limb is 0. *)

Definition limb (x : Z) : Prop := 0 <= x < BASE.

Definition finite_decimal (Decimal : Decimal_ctor) (sg : sign) (ex : Z)
    (ds : list Z) : Prop :=
  sg <> SignNaN
  /\ minE Decimal <= ex <= maxE Decimal
  /\ Z.abs ex <= 9000000000000000
  /\ Forall limb ds
  /\ (ds = [0] \/ exists d0 rest, ds = d0 :: rest /\ 1 <= d0).

Definition host_decimal (Decimal : Decimal_ctor) (x : decimal) : Prop :=
  match d x, e x with
  | None, None => True
  | Some ds, Some ex => finite_decimal Decimal (s x) ex ds
  | _, _ => False
  end.

(** No run of equal limbs is as long as the base of the conversion. *)
Definition short_runs (ds : list Z) : Prop :=
  Forall (fun g : Z * nat => Z.of_nat (snd g) < RADIX) (groups ds).

(** The first byte put together by [|]: a sign bit, an exponent-sign bit
    and a field [b] of six bits. *)
Definition first_byte (sgn esn : bool) (b : Z) : Z :=
  let firstByte := if sgn then NEG_SIGN_BIT else 0 in
  let firstByte :=
    if esn then js_or firstByte NEG_EXPONENT_SIGN_BIT else firstByte in
  js_or firstByte b.

(** The Decimal of the integer [n] of one limb: [d = [n]], with [e = 0]
    below ten and [e = 1] from ten on; [neg] gives the sign. *)
Definition small_integer (neg : bool) (n : Z) : decimal :=
  Dec (if neg then Negative else Positive)
      (Some (if n <? 10 then 0 else 1)) (Some [n]).

(** ** The Decimal of the usage example *)

(** The Decimal of the usage example, 1234567899.54645456456456546213253466,
    on a host with the widest exponent range. *)
Definition widest : Decimal_ctor := Ctor 9000000000000000 (-9000000000000000).
Definition usage_example : decimal :=
  Dec Positive (Some 9)
    (Some [123; 4567899; 5464545; 6456456; 5462132; 5346600]).

End Serialize.

(** * The expression evaluator (evaluate/index.js) *)

Module Evaluate.

(** ** Strings

    A JavaScript string is a sequence of UTF-16 code units. *)

Definition str := list Z.

Fixpoint units (s : string) : str :=
  match s with
  | EmptyString => []
  | String c s' => Z.of_N (Ascii.N_of_ascii c) :: units s'
  end.

Fixpoint str_eqb (a b : str) : bool :=
  match a, b with
  | [], [] => true
  | x :: a', y :: b' => (x =? y) && str_eqb a' b'
  | _, _ => false
  end.

Definition between (lo c hi : Z) : bool := (lo <=? c) && (c <=? hi).

(** [\d] *)
Definition is_digit (c : Z) : bool := between 48 c 57.

(** [\w] *)
Definition is_word (c : Z) : bool :=
  between 97 c 122 || between 65 c 90 || is_digit c || (c =? 95).

(** [Ͱ-Ͽ] *)
Definition is_greek (c : Z) : bool := between 0x0370 c 0x03ff.

(** [\s], which is also what [trim] removes: the white space and line
    terminator code points. *)
Definition is_space (c : Z) : bool :=
  between 9 c 13 || (c =? 32) || (c =? 0xa0) || (c =? 0x1680)
  || between 0x2000 c 0x200a || (c =? 0x2028) || (c =? 0x2029)
  || (c =? 0x202f) || (c =? 0x205f) || (c =? 0x3000) || (c =? 0xfeff).

Fixpoint drop_spaces (s : str) : str :=
  match s with
  | c :: s' => if is_space c then drop_spaces s' else s
  | [] => []
  end.

(** [expression.trim()] *)
Definition trim (s : str) : str := rev (drop_spaces (rev (drop_spaces s))).

(** [VALID_IDENTIFIER.test(id)] for
    [/^[a-zA-Z_$Ͱ-Ͽ][\wͰ-Ͽ$]*$/] *)
Definition is_identifier_start (c : Z) : bool :=
  between 97 c 122 || between 65 c 90 || (c =? 95) || (c =? 36) || is_greek c.
Definition is_identifier_part (c : Z) : bool :=
  is_word c || is_greek c || (c =? 36).
Definition VALID_IDENTIFIER (id : str) : bool :=
  match id with
  | c :: rest => is_identifier_start c && forallb is_identifier_part rest
  | [] => false
  end.

(** [expression.replace(/\*\*/g, '^')] *)
Fixpoint replace_power (s : str) : str :=
  match s with
  | c :: s' =>
      match s' with
      | c' :: s'' =>
          if (c =? 42) && (c' =? 42) then 94 :: replace_power s''
          else c :: replace_power s'
      | [] => [c]
      end
  | [] => []
  end.

(** ** The host: the Decimal constructor that [evaluator] is given

    The decimal library is not part of the extension; the evaluator uses
    its constructor and the methods below. *)

Class Host := {
  Decimal : Type;
  (** [new Decimal(m)] for the text [m] of a number *)
  ofLiteral : str -> Decimal;
  (** [new Decimal(n)] for an integer [n] *)
  ofNumber : Z -> Decimal;
  (** [new Decimal(x)] for a Decimal [x] *)
  copy : Decimal -> Decimal;
  (** [r = new Decimal(x); r.s = -r.s] *)
  negated : Decimal -> Decimal;
  plus : Decimal -> Decimal -> Decimal;
  minus : Decimal -> Decimal -> Decimal;
  times : Decimal -> Decimal -> Decimal;
  div : Decimal -> Decimal -> Decimal;
  mod_ : Decimal -> Decimal -> Decimal;
  pow : Decimal -> Decimal -> Decimal;
  sqrt : Decimal -> Decimal;
  gt : Decimal -> Decimal -> bool;
  gte : Decimal -> Decimal -> bool;
  lt : Decimal -> Decimal -> bool;
  lte : Decimal -> Decimal -> bool;
  eq : Decimal -> Decimal -> bool;
  isZero : Decimal -> bool;
  (** the values of a scope that are not functions, and [new Decimal(val)]
      for them, which may throw *)
  Raw : Type;
  construct : Raw -> option Decimal
}.

Section WithHost.
Context {host : Host}.

(** [new Decimal(Number(b))] for a boolean [b]: the Decimal 1 or 0. *)
Definition ofBoolean (b : bool) : Decimal := ofNumber (if b then 1 else 0).

(** What an expression of the evaluator may hold: a Decimal, [undefined]
    (an identifier of the tokenizer that the scope does not have), or a
    function of the scope read as if it were a variable. *)
Inductive value :=
| VDec (x : Decimal)
| VUndefined
| VFunction.

(** A function of the scope, taken together with the [new Decimal(...)]
    applied to what it returns; [None] when either throws. *)
Definition scope_function := list value -> option Decimal.

Inductive slot :=
| SFun (f : scope_function)
| SDec (x : Decimal).

(** An object with insertion-ordered own properties: SCOPE, and the
    entries of a scope argument ([Object.entries(scope)]).  What SCOPE
    inherits from its prototype is not in the list; the section on the
    names that SCOPE inherits, below, says for which names that
    matters. *)
Definition scope_object := list (str * slot).

Fixpoint scope_get (sc : scope_object) (id : str) : option slot :=
  match sc with
  | [] => None
  | (k, v) :: sc' => if str_eqb k id then Some v else scope_get sc' id
  end.

(** [SCOPE[id] = v] *)
Fixpoint scope_set (sc : scope_object) (id : str) (v : slot) : scope_object :=
  match sc with
  | [] => [(id, v)]
  | (k, w) :: sc' =>
      if str_eqb k id then (k, v) :: sc' else (k, w) :: scope_set sc' id v
  end.

(** A value of a scope argument: a function or anything else. *)
Inductive scope_value :=
| AFun (f : scope_function)
| ARaw (r : Raw).

(** An argument of [Decimal.eval]. *)
Inductive jsvalue :=
| JString (s : str)
| JObject (entries : list (str * scope_value))
| JUndefined
| JOther.

(** ** Tokens *)

Inductive operator :=
| Pow | Times | Div | Mod | Plus | Minus
| Gt | Gte | Lt | Lte | EqEq | NotEq | AndAnd | OrOr
| Sqrt | Not | LParen | RParen | Comma.

Definition symbol (op : operator) : str :=
  match op with
  | Pow => [94] | Times => [42] | Div => [47] | Mod => [37]
  | Plus => [43] | Minus => [45]
  | Gt => [62] | Gte => [62; 61] | Lt => [60] | Lte => [60; 61]
  | EqEq => [61; 61] | NotEq => [33; 61]
  | AndAnd => [38; 38] | OrOr => [124; 124]
  | Sqrt => [0x221a] | Not => [33] | LParen => [40] | RParen => [41]
  | Comma => [44]
  end.

(** The left binding power given to [add]. *)
Definition op_lbp (op : operator) : Z :=
  match op with
  | Pow => 80
  | Times | Div | Mod => 60
  | Plus | Minus => 50
  | Gt | Gte | Lt | Lte => 40
  | EqEq | NotEq => 30
  | AndAnd => 20
  | OrOr => 10
  | Sqrt | Not | LParen | RParen | Comma => 0
  end.

Inductive token :=
| TNum (val : Decimal)       (** [{ val: new Decimal(m), prefix: numPrefix }] *)
| TOp (op : operator)        (** [OPERATORS[m]] *)
| TFunc (val : str)          (** [{ val: m, prefix: funcPrefix }] *)
| TVar (val : str)           (** [{ val: m, prefix: varPrefix }] *)
| TEnd.                      (** [{ val: 'end' }] *)

(** [token.val === text] for a string [text]. *)
Definition val_is (t : token) (text : str) : bool :=
  match t with
  | TNum _ => false
  | TOp op => str_eqb (symbol op) text
  | TFunc name | TVar name => str_eqb name text
  | TEnd => str_eqb (units "end") text
  end.

(** [token.lbp]; [undefined] but for the operators. *)
Definition lbp (t : token) : option Z :=
  match t with TOp op => Some (op_lbp op) | _ => None end.

(** [rbp < token.lbp] *)
Definition binds (rbp : Z) (t : token) : bool :=
  match lbp t with Some l => rbp <? l | None => false end.

(** Whether [t.prefix] is there. *)
Definition has_prefix (t : token) : bool :=
  match t with
  | TNum _ | TFunc _ | TVar _ => true
  | TOp (Plus | Minus | Sqrt | Not | LParen) => true
  | TOp _ => false
  | TEnd => false
  end.

(** ** Errors *)

(** Thrown while the tokens are evaluated. *)
Inductive eval_error :=
| Unexpected (t : token)   (** SyntaxError: unexpected end, unexpected symbol *)
| ExpectedRParen           (** expected ) *)
| ExpectedLParen           (** SyntaxError: expected ( *)
| HostThrows               (** thrown by the Decimal constructor or a method
                               of the host, or by a function of the scope *)
| EngineTypeError.         (** a method read from [undefined], or a call of
                               what is no function *)

Inductive error :=
| InvalidIdentifier (id : str)   (** SyntaxError: invalid identifier *)
| ScopeValueThrows (id : str)    (** [new Decimal(val)] threw *)
| InvalidScope                   (** TypeError: invalid scope *)
| UnknownSymbol (c : option Z)   (** SyntaxError: unknown symbol *)
| NoExpression                   (** Error: no expression to re-evaluate *)
| MustBeFunction (id : str)      (** TypeError: must be a function *)
| MustNotBeFunction (id : str)   (** TypeError: must not be a function *)
| NotInScope (id : str)          (** Error: identifier not in scope *)
| InvalidExpression              (** TypeError: invalid expression *)
| Evaluation (err : eval_error).

(** ** The Pratt evaluator

    [index] is threaded through; [token] is always [TOKENS[index]].  The
    fuel bounds the depth of the calls; every call comes after a token has
    been consumed, so twice the number of tokens plus three is enough
    (lemma [evaluate_fuel]). *)

Inductive outcome (A : Type) :=
| Done (a : A) (index : nat)
| Throw (err : eval_error)
| OutOfFuel.
Arguments Done {A}.
Arguments Throw {A}.
Arguments OutOfFuel {A}.

Definition bind {A B} (m : outcome A) (k : A -> nat -> outcome B) : outcome B :=
  match m with
  | Done a index => k a index
  | Throw err => Throw err
  | OutOfFuel => OutOfFuel
  end.

Section Parser.
Variable SCOPE : scope_object.
Variable TOKENS : list token.

(** [SCOPE[this.val]] of varPrefix *)
Definition varPrefix (name : str) : value :=
  match scope_get SCOPE name with
  | Some (SDec x) => VDec x
  | Some (SFun _) => VFunction
  | None => VUndefined
  end.

(** [new Decimal(SCOPE[this.val].apply(null, args))] *)
Definition apply_function (name : str) (args : list value) (index : nat)
  : outcome value :=
  match scope_get SCOPE name with
  | Some (SFun f) =>
      match f args with
      | Some x => Done (VDec x) index
      | None => Throw HostThrows
      end
  | _ => Throw EngineTypeError
  end.

(** [left[fn](right)] for a method of two Decimals, once [right] has been
    evaluated: a [left] that is a function has no such method, and the
    host throws for a [right] that is not a Decimal. *)
Definition call_method {A} (fn : Decimal -> Decimal -> A) (left right : value)
    (index : nat) (wrap : A -> Decimal) : outcome value :=
  match left with
  | VDec l =>
      match right with
      | VDec r => Done (VDec (wrap (fn l r))) index
      | _ => Throw HostThrows
      end
  | _ => Throw EngineTypeError
  end.

(** [left[fn](evaluate(rbp))]: [left[fn]] is read first, and throws for an
    [undefined] left before the right-hand side is evaluated. *)
Definition method_infix {A} (ev : Z -> nat -> outcome value)
    (fn : Decimal -> Decimal -> A) (wrap : A -> Decimal) (rbp : Z)
    (left : value) (index : nat) : outcome value :=
  match left with
  | VUndefined => Throw EngineTypeError
  | _ => bind (ev rbp index) (fun right index => call_method fn left right index wrap)
  end.

(** [left.isZero()] *)
Definition is_zero (left : value) : option bool :=
  match left with VDec l => Some (isZero l) | _ => None end.

(** The method of the host that each comparison operator calls. *)
Definition comparison (op : operator) : option (Decimal -> Decimal -> bool) :=
  match op with
  | Gt => Some gt
  | Gte => Some gte
  | Lt => Some lt
  | Lte => Some lte
  | EqEq => Some eq
  | NotEq => Some (fun l r => negb (eq l r))
  | _ => None
  end.

(** [t.infix(left)] *)
Definition infix (ev : Z -> nat -> outcome value) (op : operator)
    (left : value) (index : nat) : outcome value :=
  match op with
  | Pow => method_infix ev pow id 79 left index
  | Times => method_infix ev times id 60 left index
  | Div => method_infix ev div id 60 left index
  | Mod => method_infix ev mod_ id 60 left index
  | Plus => method_infix ev plus id 50 left index
  | Minus => method_infix ev minus id 50 left index
  | Gt => method_infix ev gt ofBoolean 40 left index
  | Gte => method_infix ev gte ofBoolean 40 left index
  | Lt => method_infix ev lt ofBoolean 40 left index
  | Lte => method_infix ev lte ofBoolean 40 left index
  | EqEq => method_infix ev eq ofBoolean 30 left index
  | NotEq => method_infix ev (fun l r => negb (eq l r)) ofBoolean 30 left index
  | AndAnd =>
      bind (ev 20 index) (fun r index =>
        match is_zero left with
        | Some z => Done (if z then left else r) index
        | None => Throw EngineTypeError
        end)
  | OrOr =>
      bind (ev 10 index) (fun r index =>
        match is_zero left with
        | Some z => Done (if z then r else left) index
        | None => Throw EngineTypeError
        end)
  | Sqrt | Not | LParen | RParen | Comma => Throw EngineTypeError
  end.

(** [token.val !== text], which throws for a [token] that is
    [undefined]. *)
Definition expect (text : str) (index : nat) (err : eval_error)
    (k : outcome value) : outcome value :=
  match TOKENS !! index with
  | None => Throw EngineTypeError
  | Some t => if val_is t text then k else Throw err
  end.

(** The prefix of an operator. *)
Definition op_prefix (ev : Z -> nat -> outcome value) (op : operator)
    (index : nat) : outcome value :=
  match op with
  | Plus => ev 70 index
  | Minus =>
      bind (ev 70 index) (fun r index =>
        match r with
        | VDec x => Done (VDec (negated x)) index
        | _ => Throw HostThrows
        end)
  | Sqrt =>
      bind (ev 79 index) (fun r index =>
        match r with
        | VDec x => Done (VDec (sqrt x)) index
        | _ => Throw EngineTypeError
        end)
  | Not =>
      bind (ev 70 index) (fun r index =>
        match is_zero r with
        | Some z => Done (VDec (ofBoolean z)) index
        | None => Throw EngineTypeError
        end)
  | LParen =>
      bind (ev 0 index) (fun r index =>
        expect [41] index ExpectedRParen (Done r (S index)))
  | _ => Throw EngineTypeError
  end.

Fixpoint evaluate (fuel : nat) (rbp : Z) (index : nat) : outcome value :=
  match fuel with
  | O => OutOfFuel
  | S fuel' =>
      match TOKENS !! index with
      | None => Throw EngineTypeError
      | Some t =>
          if has_prefix t then
            let index := S index in
            let left :=
              match t with
              | TNum x => Done (VDec x) index
              | TVar name => Done (varPrefix name) index
              | TFunc name => funcPrefix fuel' name index
              | TOp op => op_prefix (evaluate fuel') op index
              | TEnd => Throw EngineTypeError
              end in
            bind left (fun left index => infix_loop fuel' rbp left index)
          else Throw (Unexpected t)
      end
  end

(** [while (rbp < token.lbp) { t = token; token = TOKENS[++index];
    left = t.infix(left); }] *)
with infix_loop (fuel : nat) (rbp : Z) (left : value) (index : nat)
  : outcome value :=
  match fuel with
  | O => OutOfFuel
  | S fuel' =>
      match TOKENS !! index with
      | None => Throw EngineTypeError
      | Some t =>
          if binds rbp t then
            match t with
            | TOp op =>
                bind (infix (evaluate fuel') op left (S index))
                  (fun left index => infix_loop fuel' rbp left index)
            | _ => Throw EngineTypeError
            end
          else Done left index
      end
  end

(** funcPrefix *)
with funcPrefix (fuel : nat) (name : str) (index : nat) : outcome value :=
  match fuel with
  | O => OutOfFuel
  | S fuel' =>
      expect [40] index ExpectedLParen
        (let index := S index in
         match TOKENS !! index with
         | None => Throw EngineTypeError
         | Some t =>
             if val_is t [41]
             then apply_function name [] (S index)
             else arguments fuel' name [] index
         end)
  end

(** [while (true) { args.push(evaluate(0)); ... }] *)
with arguments (fuel : nat) (name : str) (args : list value) (index : nat)
  : outcome value :=
  match fuel with
  | O => OutOfFuel
  | S fuel' =>
      bind (evaluate fuel' 0 index) (fun a index =>
        let args := args ++ [a] in
        match TOKENS !! index with
        | None => Throw EngineTypeError
        | Some t =>
            if val_is t [44]
            then arguments fuel' name args (S index)
            else if val_is t [41]
                 then apply_function name args (S index)
                 else Throw ExpectedRParen
        end)
  end.

(** [index = 0; token = TOKENS[0]; const result = new Decimal(evaluate(0));
    if (token.val !== 'end') throw ...; return result] *)
Definition run : outcome Decimal :=
  bind (evaluate (2 * length TOKENS + 3) 0 0) (fun r index =>
    match r with
    | VDec x =>
        let result := copy x in
        match TOKENS !! index with
        | None => Throw EngineTypeError
        | Some t =>
            if val_is t (units "end") then Done result index
            else Throw (Unexpected t)
        end
    | _ => Throw HostThrows
    end).

End Parser.

(** ** The tokenizer

    The regular expression has the form
    [(?:(number)|(identifiers)|(\)))(?=(lookahead)?)|(operators)|\S] and is
    applied with the flag [g]: each [exec] finds the next position at which
    an alternative matches, which skips white space only.  The optional
    parts of a number are greedy and nothing after them can fail, so the
    first attempt of each is the match. *)

(** [\d+], with what follows it *)
Fixpoint span_digits (s : str) : str * str :=
  match s with
  | c :: r =>
      if is_digit c then let '(ds, r') := span_digits r in (c :: ds, r')
      else ([], s)
  | [] => ([], [])
  end.

(** [(?:\.\d+)?] *)
Definition lex_fraction (s : str) : str * str :=
  match s with
  | c :: r =>
      if c =? 46 then
        match span_digits r with
        | ([], _) => ([], s)
        | (ds, r') => (c :: ds, r')
        end
      else ([], s)
  | [] => ([], s)
  end.

(** [(?:[eE][+-]?\d+)?] *)
Definition lex_exponent (s : str) : str * str :=
  match s with
  | c :: r =>
      if (c =? 101) || (c =? 69) then
        let '(sg, r1) :=
          match r with
          | c1 :: r' => if (c1 =? 43) || (c1 =? 45) then ([c1], r') else ([], r)
          | [] => ([], r)
          end in
        match span_digits r1 with
        | ([], _) => ([], s)
        | (ds, r2) => (c :: sg ++ ds, r2)
        end
      else ([], s)
  | [] => ([], s)
  end.

(** [\d+(?:\.\d+)?(?:[eE][+-]?\d+)?] *)
Definition lex_number (s : str) : option (str * str) :=
  match span_digits s with
  | ([], _) => None
  | (int, r) =>
      let '(frac, r1) := lex_fraction r in
      let '(ex, r2) := lex_exponent r1 in
      Some (int ++ frac ++ ex, r2)
  end.

Fixpoint strip_prefix (p s : str) : option str :=
  match p with
  | [] => Some s
  | c :: p' =>
      match s with
      | d :: s' => if c =? d then strip_prefix p' s' else None
      | [] => None
      end
  end.

(** The alternation of the identifiers, tried in order. *)
Fixpoint lex_identifier (ids : list str) (s : str) : option (str * str) :=
  match ids with
  | [] => None
  | id :: ids' =>
      match strip_prefix id s with
      | Some r => Some (id, r)
      | None => lex_identifier ids' s
      end
  end.

(** [(?=([\w($√Ͱ-Ͽ]|!(?!=))?)]: whether group 4 is captured. *)
Definition lookahead (s : str) : bool :=
  match s with
  | c :: r =>
      if is_word c || (c =? 40) || (c =? 36) || (c =? 0x221a) || is_greek c
      then true
      else if c =? 33
           then match r with c' :: _ => negb (c' =? 61) | [] => true end
           else false
  | [] => false
  end.

(** [[!<>=]=|[-+*\/(^%><!√,]|&&|\|\|] *)
Definition lex_operator (s : str) : option (operator * str) :=
  match s with
  | c :: r =>
      let two :=
        match r with
        | c' :: r' =>
            if c' =? 61 then
              if c =? 33 then Some (NotEq, r')
              else if c =? 60 then Some (Lte, r')
              else if c =? 62 then Some (Gte, r')
              else if c =? 61 then Some (EqEq, r')
              else None
            else None
        | [] => None
        end in
      match two with
      | Some m => Some m
      | None =>
          if c =? 45 then Some (Minus, r)
          else if c =? 43 then Some (Plus, r)
          else if c =? 42 then Some (Times, r)
          else if c =? 47 then Some (Div, r)
          else if c =? 40 then Some (LParen, r)
          else if c =? 94 then Some (Pow, r)
          else if c =? 37 then Some (Mod, r)
          else if c =? 62 then Some (Gt, r)
          else if c =? 60 then Some (Lt, r)
          else if c =? 33 then Some (Not, r)
          else if c =? 0x221a then Some (Sqrt, r)
          else if c =? 44 then Some (Comma, r)
          else
            match r with
            | c' :: r' =>
                if (c =? 38) && (c' =? 38) then Some (AndAnd, r')
                else if (c =? 124) && (c' =? 124) then Some (OrOr, r')
                else None
            | [] => None
            end
      end
  | [] => None
  end.

Inductive lexed :=
| Lexed (TOKENS : list token) (parsed : str)
| Unknown (c : option Z)    (** [match[0].charAt(0)] *)
| LexFuel.

(** [if (match[4]) { TOKENS.push(OPERATORS['*']); parsed += '*'; }] *)
Definition implicit_times (r : str) (TOKENS : list token) (parsed : str)
  : list token * str :=
  if lookahead r then (TOKENS ++ [TOp Times], parsed ++ [42])
  else (TOKENS, parsed).

(** [while ((match = TOKENIZER.exec(expression))) { ... }]; every match
    takes at least one code unit, so the length of the text plus one is
    fuel enough (lemma [tokenize_fuel]). *)
Fixpoint tokenize (fuel : nat) (SCOPE : scope_object) (ids : list str) (s : str)
    (TOKENS : list token) (parsed : str) : lexed :=
  match fuel with
  | O => LexFuel
  | S fuel' =>
      match lex_number s with
      | Some (m, r) =>
          let '(TOKENS, parsed) :=
            implicit_times r (TOKENS ++ [TNum (ofLiteral m)]) (parsed ++ m) in
          tokenize fuel' SCOPE ids r TOKENS parsed
      | None =>
          match lex_identifier ids s with
          | Some (m, r) =>
              match m with
              | [] => Unknown None
              | _ :: _ =>
                  match scope_get SCOPE m with
                  | Some (SFun _) =>
                      tokenize fuel' SCOPE ids r (TOKENS ++ [TFunc m]) (parsed ++ m)
                  | _ =>
                      let '(TOKENS, parsed) :=
                        implicit_times r (TOKENS ++ [TVar m]) (parsed ++ m) in
                      tokenize fuel' SCOPE ids r TOKENS parsed
                  end
              end
          | None =>
              match s with
              | [] => Lexed TOKENS parsed
              | c :: r =>
                  if c =? 41 then
                    let '(TOKENS, parsed) :=
                      implicit_times r (TOKENS ++ [TOp RParen]) (parsed ++ [41]) in
                    tokenize fuel' SCOPE ids r TOKENS parsed
                  else
                    match lex_operator s with
                    | Some (op, r') =>
                        tokenize fuel' SCOPE ids r' (TOKENS ++ [TOp op])
                          (parsed ++ symbol op)
                    | None =>
                        if is_space c then tokenize fuel' SCOPE ids r TOKENS parsed
                        else Unknown (Some c)
                    end
              end
          end
      end
  end.

(** ** The state of the evaluator and its entry point *)

Record state := State {
  SCOPE : scope_object;
  TOKENIZER : list str;        (** the identifiers of the alternation *)
  TOKENS : option (list token);  (** [null] is [None] *)
  eval_expression : option str   (** [Decimal.eval.expression] *)
}.

(** The alternation of DEFAULT_TOKENIZER is the single text [0]. *)
Definition DEFAULT_TOKENIZER : list str := [[48]].

Definition initial : state := State [] DEFAULT_TOKENIZER None None.

(** [identifiers.sort(longestFirst)]: a stable sort, longest first. *)
Fixpoint insert_longest (id : str) (l : list str) : list str :=
  match l with
  | [] => [id]
  | y :: l' =>
      if (length y <=? length id)%nat then id :: l
      else y :: insert_longest id l'
  end.

Definition sort_longestFirst (l : list str) : list str :=
  fold_right insert_longest [] l.

(** The loop over [Object.entries(scope)] that fills the new SCOPE; with
    the error that ended it, if any, and what it had installed by then. *)
Fixpoint install (entries : list (str * scope_value)) (SCOPE : scope_object)
  : scope_object * option error :=
  match entries with
  | [] => (SCOPE, None)
  | (id, val) :: rest =>
      if VALID_IDENTIFIER id then
        match val with
        | AFun f => install rest (scope_set SCOPE id (SFun f))
        | ARaw r =>
            match construct r with
            | Some x => install rest (scope_set SCOPE id (SDec x))
            | None => (SCOPE, Some (ScopeValueThrows id))
            end
        end
      else (SCOPE, Some (InvalidIdentifier id))
  end.

(** The loop that updates the existing SCOPE. *)
Fixpoint rebind (entries : list (str * scope_value)) (SCOPE : scope_object)
  : scope_object * option error :=
  match entries with
  | [] => (SCOPE, None)
  | (id, val) :: rest =>
      match scope_get SCOPE id with
      | Some (SFun _) =>
          match val with
          | AFun f => rebind rest (scope_set SCOPE id (SFun f))
          | ARaw _ => (SCOPE, Some (MustBeFunction id))
          end
      | Some (SDec _) =>
          match val with
          | AFun _ => (SCOPE, Some (MustNotBeFunction id))
          | ARaw r =>
              match construct r with
              | Some x => rebind rest (scope_set SCOPE id (SDec x))
              | None => (SCOPE, Some (ScopeValueThrows id))
              end
          end
      | None => (SCOPE, Some (NotInScope id))
      end
  end.

(** What a call of [Decimal.eval] does. *)
Inductive answer :=
| Returns (x : Decimal)
| Throws (err : error)
| Pending.

(** The last four statements of the function, on the tokens in store. *)
Definition evaluate_tokens (st : state) : answer * state :=
  match TOKENS st with
  | None => (Throws (Evaluation EngineTypeError), st)
  | Some toks =>
      (match run (SCOPE st) toks with
       | Done x _ => Returns x
       | Throw err => Throws (Evaluation err)
       | OutOfFuel => Pending
       end, st)
  end.

Definition with_SCOPE (st : state) (sc : scope_object) : state :=
  State sc (TOKENIZER st) (TOKENS st) (eval_expression st).
Definition with_TOKENS (st : state) (T : option (list token)) : state :=
  State (SCOPE st) (TOKENIZER st) T (eval_expression st).

Definition evaluator (st : state) (expression scope : jsvalue)
  : answer * state :=
  match expression with
  | JString text =>
      match trim text with
      | _ :: _ =>
          (* Create new SCOPE. *)
          let installed :=
            match scope with
            | JUndefined => inr st
            | JObject entries =>
                match install entries [] with
                | (sc, Some err) => inl (err, with_SCOPE st sc)
                | (sc, None) =>
                    let identifiers := map fst sc in
                    inr (State sc
                           (match identifiers with
                            | _ :: _ => sort_longestFirst identifiers
                            | [] => DEFAULT_TOKENIZER
                            end)
                           (TOKENS st) (eval_expression st))
                end
            | _ => inl (InvalidScope, st)
            end in
          match installed with
          | inl (err, st) => (Throws err, st)
          | inr st =>
              let text := replace_power text in
              (* Create new TOKENS. *)
              match tokenize (S (length text)) (SCOPE st) (TOKENIZER st) text [] [] with
              | Unknown c => (Throws (UnknownSymbol c), with_TOKENS st None)
              | LexFuel => (Pending, with_TOKENS st (Some []))
              | Lexed toks parsed =>
                  evaluate_tokens
                    (State (SCOPE st) (TOKENIZER st) (Some (toks ++ [TEnd]))
                       (Some parsed))
              end
          end
      | [] => (Throws InvalidExpression, st)
      end
  | JObject entries =>
      match scope with
      | JUndefined =>
          match TOKENS st with
          | None => (Throws NoExpression, st)
          | Some _ =>
              (* Update existing SCOPE. *)
              match rebind entries (SCOPE st) with
              | (sc, Some err) => (Throws err, with_SCOPE st sc)
              | (sc, None) => evaluate_tokens (with_SCOPE st sc)
              end
          end
      | _ => (Throws InvalidExpression, st)
      end
  | _ => (Throws InvalidExpression, st)
  end.


(** ** Predicates for the statements below *)

(** The errors of each stage. *)

Definition installation_error (err : error) : Prop :=
  match err with
  | InvalidIdentifier _ | ScopeValueThrows _ => True
  | _ => False
  end.


Definition evaluation_error (err : error) : Prop :=
  match err with Evaluation _ => True | _ => False end.

(** Every identifier of a list passes [VALID_IDENTIFIER]. *)
Definition valid_keys (ids : list str) : Prop :=
  Forall (fun id => VALID_IDENTIFIER id = true) ids.

(** Two scopes hold the same at the identifiers of the tokens. *)
Definition agree (sc sc' : scope_object) (toks : list token) : Prop :=
  forall t, In t toks ->
    match t with
    | TVar id | TFunc id => scope_get sc id = scope_get sc' id
    | _ => True
    end.

(** An outcome that is not [OutOfFuel] and whose index, when it is
    [Done], lies from [lo] to [hi]. *)
Definition ends {A} (m : outcome A) (lo hi : nat) : Prop :=
  m <> OutOfFuel /\ forall a j, m = Done a j -> (lo <= j <= hi)%nat.

(** ** Scopes, states and texts, for the properties of the evaluator *)

(** [typeof SCOPE[id] === 'function'] for the value of an entry *)
Definition is_function (v : slot) : bool :=
  match v with SFun _ => true | SDec _ => false end.

(** The identifiers of a scope in their order, each with whether it is
    bound to a function. *)
Definition shape (sc : scope_object) : list (str * bool) :=
  map (fun kv => (fst kv, is_function (snd kv))) sc.

(** [{...entries, [id]: val}]: an object with one property set, in place
    when the object has it and at the end when it has not. *)
Fixpoint entry_set (entries : list (str * scope_value)) (id : str)
    (val : scope_value) : list (str * scope_value) :=
  match entries with
  | [] => [(id, val)]
  | (k, w) :: rest =>
      if str_eqb k id then (k, val) :: rest else (k, w) :: entry_set rest id val
  end.

(** [{...entries, ...updates}] *)
Definition merge (entries updates : list (str * scope_value))
  : list (str * scope_value) :=
  fold_left (fun es kv => entry_set es (fst kv) (snd kv)) updates entries.

(** The states that calls of [Decimal.eval] lead to, from the state in
    which [evaluator] returns it. *)
Inductive reachable : state -> Prop :=
| reachable_initial : reachable initial
| reachable_call (st : state) (expression scope : jsvalue) :
    reachable st -> reachable (snd (evaluator st expression scope)).

(** A text without white space. *)
Definition no_space (s : str) : bool := forallb (fun c => negb (is_space c)) s.

(** The scope that the installation makes of an object with distinct
    keys, entry by entry. *)
Definition installs (kv : str * scope_value) (ks : str * slot) : Prop :=
  fst kv = fst ks /\ VALID_IDENTIFIER (fst kv) = true
  /\ match snd kv with
     | AFun f => snd ks = SFun f
     | ARaw r => exists x, construct r = Some x /\ snd ks = SDec x
     end.

(** The code units of a number: digits, [.], [e], [E], [+] and [-]. *)
Definition number_unit (c : Z) : bool :=
  is_digit c || (c =? 46) || (c =? 101) || (c =? 69) || (c =? 43) || (c =? 45).

(** The identifiers of a tokenizer are texts without white space, none
    empty. *)
Definition clean (ids : list str) : Prop :=
  Forall (fun id => id <> [] /\ no_space id = true) ids.

(** The first code unit of an identifier of a tokenizer. *)
Definition name_start (c : Z) : bool := is_identifier_start c || (c =? 48).

(** ** Expressions as trees

    What the evaluator reads, as a tree: a number with its text, a
    variable, a call of a function on arguments, a parenthesis, the
    application of a prefix operator, the application of an infix
    operator. *)
#[warnings="-register-all"]
Inductive expr :=
| ENum (m : str)
| EVar (name : str)
| ECall (name : str) (args : list expr)
| EParen (e : expr)
| EPrefix (op : operator) (e : expr)
| EInfix (op : operator) (l r : expr).

(** The tokens of a tree, in the order of the text. *)
Fixpoint tokens_of (e : expr) : list token :=
  match e with
  | ENum m => [TNum (ofLiteral m)]
  | EVar name => [TVar name]
  | ECall name args =>
      TFunc name :: TOp LParen ::
        match args with
        | [] => []
        | a :: rest =>
            tokens_of a ++ flat_map (fun b => TOp Comma :: tokens_of b) rest
        end ++ [TOp RParen]
  | EParen e => TOp LParen :: tokens_of e ++ [TOp RParen]
  | EPrefix op e => TOp op :: tokens_of e
  | EInfix op l r => tokens_of l ++ TOp op :: tokens_of r
  end.

(** What the prefix function of an operator makes of its operand. *)
Definition unary (op : operator) (x : Decimal) : option Decimal :=
  match op with
  | Plus => Some x
  | Minus => Some (negated x)
  | Sqrt => Some (sqrt x)
  | Not => Some (ofBoolean (isZero x))
  | _ => None
  end.

(** What the infix function of an operator makes of its operands. *)
Definition binary (op : operator) (l r : Decimal) : option Decimal :=
  match op with
  | Pow => Some (pow l r)
  | Times => Some (times l r)
  | Div => Some (div l r)
  | Mod => Some (mod_ l r)
  | Plus => Some (plus l r)
  | Minus => Some (minus l r)
  | Gt => Some (ofBoolean (gt l r))
  | Gte => Some (ofBoolean (gte l r))
  | Lt => Some (ofBoolean (lt l r))
  | Lte => Some (ofBoolean (lte l r))
  | EqEq => Some (ofBoolean (eq l r))
  | NotEq => Some (ofBoolean (negb (eq l r)))
  | AndAnd => Some (if isZero l then l else r)
  | OrOr => Some (if isZero l then r else l)
  | _ => None
  end.

(** The value of a tree in a scope, when every variable is bound to a
    Decimal, every function called is one that returns, and every
    operator stands where it can. *)
Fixpoint denote (SCOPE : scope_object) (e : expr) : option Decimal :=
  match e with
  | ENum m => Some (ofLiteral m)
  | EVar name =>
      match scope_get SCOPE name with
      | Some (SDec x) => Some x
      | _ => None
      end
  | ECall name args =>
      match scope_get SCOPE name with
      | Some (SFun f) =>
          match
            (fix all (l : list expr) : option (list value) :=
               match l with
               | [] => Some []
               | a :: rest =>
                   match denote SCOPE a, all rest with
                   | Some x, Some xs => Some (VDec x :: xs)
                   | _, _ => None
                   end
               end) args
          with
          | Some vs => f vs
          | None => None
          end
      | _ => None
      end
  | EParen e => denote SCOPE e
  | EPrefix op e =>
      match denote SCOPE e with
      | Some x => unary op x
      | None => None
      end
  | EInfix op l r =>
      match denote SCOPE l, denote SCOPE r with
      | Some a, Some b => binary op a b
      | _, _ => None
      end
  end.

(** The values of the arguments of a call, as [denote] takes them. *)
Definition denote_args (SCOPE : scope_object) (l : list expr)
  : option (list value) :=
  (fix all (l : list expr) : option (list value) :=
     match l with
     | [] => Some []
     | a :: rest =>
         match denote SCOPE a, all rest with
         | Some x, Some xs => Some (VDec x :: xs)
         | _, _ => None
         end
     end) l.

(** The right binding power that the prefix function of an operator
    passes to [evaluate], and the one that its infix function passes. *)
Definition prefix_rbp (op : operator) : Z :=
  match op with Sqrt => 79 | _ => 70 end.
Definition infix_rbp (op : operator) : Z :=
  match op with Pow => 79 | _ => op_lbp op end.

(** The lowest right binding power with which a call of [evaluate] is
    still open at the right end of a tree: an operator that comes next
    is taken into the tree when it binds more than that. *)
Fixpoint right_rbp (e : expr) : Z :=
  match e with
  | EPrefix op e => Z.min (prefix_rbp op) (right_rbp e)
  | EInfix op _ r => Z.min (infix_rbp op) (right_rbp r)
  | _ => 80
  end.

(** A tree is the reading of its tokens by [evaluate(rbp)]: an infix
    operator binds more than [rbp], its left operand is read by the same
    call and is closed before the operator, its right operand is read
    with the binding power of the operator; what is in parentheses and
    what is an argument is read with the binding power 0. *)
Fixpoint well_formed (rbp : Z) (e : expr) : bool :=
  match e with
  | ENum _ | EVar _ => true
  | ECall _ args => forallb (well_formed 0) args
  | EParen e => well_formed 0 e
  | EPrefix op e => well_formed (prefix_rbp op) e
  | EInfix op l r =>
      (rbp <? op_lbp op) && well_formed rbp l
      && (op_lbp op <=? right_rbp l) && well_formed (infix_rbp op) r
  end.

(** [a] has run out of fuel or is [b]. *)
Definition below {A} (a b : outcome A) : Prop := a = OutOfFuel \/ a = b.

(** What it is for the evaluator to read a tree: from the index where
    the tokens of the tree begin, [evaluate] gives what the loop of the
    infix operators gives from the index where they end with the value
    of the tree as its left operand. *)
Definition reads (sc : scope_object) (e : expr) : Prop :=
  forall (rbp : Z) (pre post : list token) (v : Decimal) (r : outcome value)
         (fuel1 : nat),
    well_formed rbp e = true ->
    denote sc e = Some v ->
    (exists t post', post = t :: post' /\ binds (right_rbp e) t = false) ->
    infix_loop sc (pre ++ tokens_of e ++ post) fuel1 rbp (VDec v)
      (length pre + length (tokens_of e)) = r ->
    r <> OutOfFuel ->
    exists fuel, evaluate sc (pre ++ tokens_of e ++ post) fuel rbp (length pre) = r.

(** ** The text of a tree

    The words of a text: a number, a name, an operator. *)
Inductive word :=
| WNum (m : str)
| WName (id : str)
| WOp (op : operator).

Definition word_text (w : word) : str :=
  match w with
  | WNum m => m
  | WName id => id
  | WOp op => symbol op
  end.

(** The token that the tokenizer makes of a word. *)
Definition word_token (SCOPE : scope_object) (w : word) : token :=
  match w with
  | WNum m => TNum (ofLiteral m)
  | WName id =>
      match scope_get SCOPE id with
      | Some (SFun _) => TFunc id
      | _ => TVar id
      end
  | WOp op => TOp op
  end.

(** The words of a tree, in the order of the text. *)
Fixpoint words_of (e : expr) : list word :=
  match e with
  | ENum m => [WNum m]
  | EVar name => [WName name]
  | ECall name args =>
      WName name :: WOp LParen ::
        match args with
        | [] => []
        | a :: rest =>
            words_of a ++ flat_map (fun b => WOp Comma :: words_of b) rest
        end ++ [WOp RParen]
  | EParen e => WOp LParen :: words_of e ++ [WOp RParen]
  | EPrefix op e => WOp op :: words_of e
  | EInfix op l r => words_of l ++ WOp op :: words_of r
  end.

(** A text of words, each followed by one space. *)
Definition spell (ws : list word) : str :=
  flat_map (fun w => word_text w ++ [32]) ws.

Definition text_of (e : expr) : str := spell (words_of e).

(** A text that the pattern of a number matches whole. *)
Definition literal (m : str) : bool :=
  match lex_number m with
  | Some (m', []) => str_eqb m' m
  | _ => false
  end.

(** Every number of a tree is written as a literal. *)
Fixpoint literals (e : expr) : bool :=
  match e with
  | ENum m => literal m
  | EVar _ => true
  | ECall _ args => forallb literals args
  | EParen e => literals e
  | EPrefix _ e => literals e
  | EInfix _ l r => literals l && literals r
  end.

(** The identifiers of the tokenizer that the installation of a scope
    sets. *)
Definition tokenizer_of (sc : scope_object) : list str :=
  match map fst sc with
  | [] => DEFAULT_TOKENIZER
  | _ :: _ => sort_longestFirst (map fst sc)
  end.

(** A word that the tokenizer of a scope reads as it is written. *)
Definition word_ok (sc : scope_object) (w : word) : Prop :=
  match w with
  | WNum m => literal m = true
  | WName id => In id (map fst sc)
  | WOp _ => True
  end.


(** ** The names that SCOPE inherits

    SCOPE is embedded as the list of its own properties: [scope_get] reads
    that list and [scope_set] writes it.  The object of the code has a
    prototype as well, [Object.prototype], and the code meets it in three
    places that the list does not show.  The assignment
    [SCOPE['__proto__'] = v] sets no property: it replaces the prototype.
    [SCOPE.hasOwnProperty(id)] is the method of the prototype only as long
    as SCOPE has no property of that name.  And [SCOPE[name]], for a name
    that SCOPE has not, is the member of the prototype of that name when
    there is one, a function for all but [__proto__].  The embedding is
    that of the code for the scopes, tokenizers and tokens none of whose
    names is the name of a member of [Object.prototype]; the statements
    that depend on it say so with the predicates below. *)
Definition inherited_names : list str :=
  [ units "__proto__"; units "constructor"; units "hasOwnProperty";
    units "isPrototypeOf"; units "propertyIsEnumerable";
    units "toLocaleString"; units "toString"; units "valueOf";
    units "__defineGetter__"; units "__defineSetter__";
    units "__lookupGetter__"; units "__lookupSetter__" ].

Definition ordinary (id : str) : bool :=
  negb (existsb (str_eqb id) inherited_names).

Definition ordinary_keys {A} (entries : list (str * A)) : bool :=
  forallb (fun kv => ordinary (fst kv)) entries.




End WithHost.

Arguments Done {host A}.
Arguments Throw {host A}.
Arguments OutOfFuel {host A}.

(** The integers as a host, for examples: a number is read up to its
    first code unit that is no digit, and division is that of integers. *)
Definition integers : Host := {|
  Decimal := Z;
  ofLiteral := fun m => fold_left (fun acc c => acc * 10 + (c - 48)) (fst (span_digits m)) 0;
  ofNumber := fun n => n;
  copy := fun x => x;
  negated := Z.opp;
  plus := Z.add;
  minus := Z.sub;
  times := Z.mul;
  div := Z.quot;
  mod_ := Z.rem;
  pow := Z.pow;
  sqrt := Z.sqrt;
  gt := Z.gtb;
  gte := Z.geb;
  lt := Z.ltb;
  lte := Z.leb;
  eq := Z.eqb;
  isZero := fun x => x =? 0;
  Raw := Z;
  construct := fun x => Some x
|}.

(** The state after ["x^y"] has been evaluated in the scope [{x: 2, y: 3}]. *)
Definition after_power : state (host := integers) :=
  snd (evaluator (host := integers) initial (JString (units "x^y"))
         (JObject [(units "x", ARaw (host := integers) 2);
                   (units "y", ARaw (host := integers) 3)])).

(** The scope [{x: 2, xy: 5, max: (a, b) => Decimal.max(a, b)}] on the
    integers, as an argument and as installed. *)
Definition max_function : scope_function (host := integers) :=
  fun args =>
    match args with
    | [VDec a; VDec b] => Some (Z.max a b)
    | _ => None
    end.
Definition example_entries : list (str * scope_value (host := integers)) :=
  [(units "x", ARaw (host := integers) 2);
   (units "xy", ARaw (host := integers) 5);
   (units "max", AFun max_function)].
Definition example_scope : scope_object (host := integers) :=
  [(units "x", SDec (host := integers) 2);
   (units "xy", SDec (host := integers) 5);
   (units "max", SFun max_function)].

(** [max(x, 3) * -(1 + xy) ^ 2] as a tree. *)
Definition example_tree : expr :=
  EInfix Times
    (ECall (units "max") [EVar (units "x"); ENum (units "3")])
    (EPrefix Minus
       (EInfix Pow
          (EParen (EInfix Plus (ENum (units "1")) (EVar (units "xy"))))
          (ENum (units "2")))).

End Evaluate.

Module SerializeFacts.
Import Serialize.

(** ** Small values *)

Lemma range_nat (n : Z) (hi : nat) :
  0 <= n <= Z.of_nat hi -> exists k : nat, n = Z.of_nat k /\ (k <= hi)%nat.
Proof. intros H. exists (Z.to_nat n). lia. Qed.

(** C3, as the code has it: the encodings of 0, -0, 1 and -1 are the bytes
    0x26, 0xA6, 0x27 and 0xA7; 50 is encoded as the byte 0x7E (62 with the
    small-integer bit); 51 takes two bytes; and every integer of one limb
    from -50 to 50 is encoded in exactly one byte, [n + 38] up to 25 and
    [n + 12] with the small-integer bit above, plus the sign bit. *)
Theorem small_values_single_byte (neg : bool) (n : Z) (Hn : 0 <= n <= 50) :
  toArrayBuffer (small_integer neg n) =
    [ (if neg then 0x80 else 0) + (if n <=? 25 then n + 38 else n + 12 + 0x40) ]
  /\ toArrayBuffer (small_integer false 0) = [0x26]
  /\ toArrayBuffer (small_integer true 0) = [0xA6]
  /\ toArrayBuffer (small_integer false 1) = [0x27]
  /\ toArrayBuffer (small_integer true 1) = [0xA7]
  /\ toArrayBuffer (small_integer false 50) = [0x7E]
  /\ toArrayBuffer (small_integer false 51) = [0x08; 51].
Proof.
  split; [| repeat split; reflexivity].
  destruct (range_nat n 50 Hn) as (k & -> & Hk).
  destruct neg;
    do 51 (destruct k as [|k]; [vm_compute; reflexivity|]); lia.
Qed.

Lemma small_values_single_byte_witness :
  toArrayBuffer (small_integer true 26) = [0x80 + (26 + 12 + 0x40)].
Proof.
  exact (proj1 (small_values_single_byte true 26 ltac:(lia))).
Defined.

(** C3 as stated fails: the encoding of 50 is not the byte 0x32. *)
Lemma encode_50_is_not_0x32 :
  toArrayBuffer (small_integer false 50) <> [0x32].
Proof. vm_compute. discriminate. Qed.

(** ** Bit fields of the first byte *)

Lemma to_int32_small (z : Z) : - 2 ^ 31 <= z < 2 ^ 31 -> to_int32 z = z.
Proof.
  unfold to_int32. change (2 ^ 31) with 2147483648.
  change (2 ^ 32) with 4294967296. intros H.
  Z.to_euclidean_division_equations; lia.
Qed.

Lemma js_and_byte (x : Z) : js_and x BYTES_MASK = x mod 0x100.
Proof.
  unfold js_and, BYTES_MASK. rewrite (to_int32_small 0xff) by (vm_compute; split; [discriminate | reflexivity]).
  change 0xff with (Z.ones 8). rewrite Z.land_ones by lia.
  unfold to_int32. change (2 ^ 31) with 2147483648.
  change (2 ^ 32) with 4294967296. change (2 ^ 8) with 256.
  Z.to_euclidean_division_equations; lia.
Qed.

Lemma first_byte_fields (sgn esn : bool) (b : Z) :
  0 <= b < 64 ->
  let fb := first_byte sgn esn b in
  0 <= fb < 0x100
  /\ Z.testbit fb 7 = sgn /\ Z.testbit fb 6 = esn /\ Z.land fb 0x3f = b
  /\ (js_and fb NEG_SIGN_BIT =? 0) = negb sgn
  /\ (js_and fb NEG_EXPONENT_SIGN_BIT =? 0) = negb esn
  /\ js_and fb SIX_LSB_MASK = b.
Proof.
  intros Hb. destruct (range_nat b 63 ltac:(lia)) as (k & -> & Hk).
  destruct sgn, esn;
    do 64 (destruct k as [|k]; [vm_compute; intuition congruence|]); lia.
Qed.

Lemma first_byte_zero (sgn esn : bool) :
  first_byte sgn esn 0 =
    (let firstByte := if sgn then NEG_SIGN_BIT else 0 in
     if esn then js_or firstByte NEG_EXPONENT_SIGN_BIT else firstByte).
Proof. destruct sgn, esn; reflexivity. Qed.

(** ** The exponent bytes *)

Lemma bits_spec (x : Z) : 0 <= x -> x < 2 ^ Z.of_nat (bits x).
Proof.
  intros H. unfold bits.
  rewrite Z2Nat.id by (pose proof (Z.log2_nonneg x); lia).
  destruct (Z.eq_dec x 0) as [->|]; [reflexivity|].
  replace (Z.log2 x + 1) with (Z.succ (Z.log2 x)) by lia.
  apply Z.log2_spec. lia.
Qed.

Lemma exponent_bytes_value (fuel : nat) (x : Z) :
  0 <= x < 2 ^ Z.of_nat fuel ->
  value 0x100 (exponent_bytes fuel x) = x /\ Forall byte (exponent_bytes fuel x).
Proof.
  revert x. induction fuel as [|fuel IH]; intros x Hx.
  - simpl in *. assert (x = 0) by lia. subst. split; [reflexivity | constructor].
  - cbn [exponent_bytes]. destruct (Z.eqb_spec x 0) as [->|Hne].
    + split; [reflexivity | constructor].
    + rewrite js_and_byte.
      assert (Hq : 0 <= x / 0x100 < 2 ^ Z.of_nat fuel).
      { rewrite Nat2Z.inj_succ, Z.pow_succ_r in Hx by lia.
        Z.to_euclidean_division_equations; lia. }
      destruct (IH _ Hq) as [Hv Hb]. split.
      * cbn [value fold_right]. fold (value 0x100 (exponent_bytes fuel (x / 0x100))).
        rewrite Hv. Z.to_euclidean_division_equations; lia.
      * constructor; [|exact Hb]. unfold byte.
        Z.to_euclidean_division_equations; lia.
Qed.

Lemma exponent_bytes_length (fuel : nat) (x : Z) (L : nat) :
  0 <= x < 2 ^ Z.of_nat fuel ->
  (length (exponent_bytes fuel x) <= L)%nat <-> x < 0x100 ^ Z.of_nat L.
Proof.
  revert x L. induction fuel as [|fuel IH]; intros x L Hx.
  - simpl in Hx. assert (x = 0) by lia. subst. simpl.
    split; intros; [apply Z.pow_pos_nonneg|]; lia.
  - cbn [exponent_bytes]. destruct (Z.eqb_spec x 0) as [->|Hne].
    + simpl. split; intros; [apply Z.pow_pos_nonneg|]; lia.
    + assert (Hq : 0 <= x / 0x100 < 2 ^ Z.of_nat fuel).
      { rewrite Nat2Z.inj_succ, Z.pow_succ_r in Hx by lia.
        Z.to_euclidean_division_equations; lia. }
      destruct L as [|L].
      * simpl. split; intros; lia.
      * cbn [length]. rewrite Nat2Z.inj_succ, Z.pow_succ_r by lia.
        specialize (IH _ L Hq).
        split; intros H.
        -- assert (x / 0x100 < 0x100 ^ Z.of_nat L) by (apply IH; lia).
           Z.to_euclidean_division_equations; lia.
        -- apply le_n_S, IH.
           Z.to_euclidean_division_equations; lia.
Qed.

Lemma exponent_bytes_count (x : Z) :
  0 < x < 2 ^ 56 ->
  Z.of_nat (length (exponent_bytes (bits x) x)) = exponentByteCount_of x.
Proof.
  intros Hx.
  assert (Hf : 0 <= x < 2 ^ Z.of_nat (bits x)) by (split; [lia | apply bits_spec; lia]).
  pose proof (fun L => exponent_bytes_length (bits x) x L Hf) as HL.
  pose proof (HL 0%nat) as H0. pose proof (HL 1%nat) as H1.
  pose proof (HL 2%nat) as H2. pose proof (HL 3%nat) as H3.
  pose proof (HL 4%nat) as H4. pose proof (HL 5%nat) as H5.
  pose proof (HL 6%nat) as H6. pose proof (HL 7%nat) as H7.
  clear HL Hf.
  change (0x100 ^ Z.of_nat 0) with 1 in H0.
  change (0x100 ^ Z.of_nat 1) with 0x100 in H1.
  change (0x100 ^ Z.of_nat 2) with 0x10000 in H2.
  change (0x100 ^ Z.of_nat 3) with 0x1000000 in H3.
  change (0x100 ^ Z.of_nat 4) with 0x100000000 in H4.
  change (0x100 ^ Z.of_nat 5) with 0x10000000000 in H5.
  change (0x100 ^ Z.of_nat 6) with 0x1000000000000 in H6.
  change (0x100 ^ Z.of_nat 7) with 0x100000000000000 in H7.
  change (2 ^ 56) with 0x100000000000000 in Hx.
  unfold exponentByteCount_of.
  repeat match goal with |- context [?a <? ?b] => destruct (Z.ltb_spec a b) end;
    lia.
Qed.

(** ** The bytes before [startIndex] are left alone *)

Lemma grow_length (fuel : nat) (resBase x : Z) :
  (1 <= length (grow fuel resBase x))%nat.
Proof. destruct fuel; simpl; [lia|]. destruct (_ >? _); simpl; lia. Qed.

Lemma carry_length (resBase x : Z) (rest : list Z) :
  (S (length rest) <= length (carry resBase x rest))%nat.
Proof.
  revert x. induction rest as [|y rest IH]; intros x; cbn [carry].
  - apply grow_length.
  - destruct (_ >? _); cbn [length]; apply le_n_S, IH.
Qed.

Lemma convert_length (val valBase : Z) (res : list Z) (resBase : Z) (ri : nat) :
  (length res <= length (convert val valBase res resBase ri))%nat.
Proof.
  unfold convert. destruct (drop ri res) as [|x rest] eqn:E; cbn [map]; [lia|].
  rewrite length_app. pose proof (carry_length resBase (x * valBase + val) (map (fun x => x * valBase) rest)) as H.
  rewrite length_map in H.
  rewrite <- (take_drop ri res) at 1. rewrite E, length_app. cbn [length]. lia.
Qed.

Lemma convert_take (val valBase : Z) (res : list Z) (resBase : Z) (ri : nat) :
  take ri (convert val valBase res resBase ri) = take ri res.
Proof.
  unfold convert. destruct (drop ri res) as [|x rest] eqn:E; cbn [map]; [reflexivity|].
  assert (ri < length res)%nat.
  { destruct (Nat.lt_ge_cases ri (length res)); [assumption|].
    rewrite drop_ge in E by lia. discriminate. }
  rewrite take_app_le by (rewrite length_take; lia).
  apply take_idemp.
Qed.

Lemma mantissa_loop_take (fuel : nat) (digits : list Z) (i : nat)
    (bytes : list Z) (startIndex : nat) :
  take startIndex (mantissa_loop fuel digits i bytes startIndex)
  = take startIndex bytes.
Proof.
  revert i bytes. induction fuel as [|fuel IH]; intros i bytes; cbn [mantissa_loop].
  - reflexivity.
  - destruct (digits !! i); [|reflexivity].
    destruct (_ && _); rewrite IH, ?convert_take; reflexivity.
Qed.

(** ** The header of the general case *)

Lemma header_first_byte (sg : sign) (ex : Z) :
  header sg (Some ex) =
    let x := Z.abs ex in
    if x >? MAX_SMALL_EXPONENT
    then (first_byte (negative sg) (ex <? 0) (exponentByteCount_of x)
            :: exponent_bytes (bits x) x, exponentByteCount_of x)
    else ([first_byte (negative sg) (ex <? 0) (if x =? 0 then 0 else x + 7)], 0).
Proof.
  unfold header, first_byte, EXPONENT_OFFSET.
  destruct (Z.ltb_spec ex 0) as [Hneg|Hpos].
  - rewrite (Z.abs_neq ex) by lia. cbn zeta.
    destruct (- ex >? MAX_SMALL_EXPONENT); [reflexivity|].
    destruct (Z.eqb_spec (- ex) 0); [lia|]. reflexivity.
  - rewrite (Z.abs_eq ex) by lia. cbn zeta.
    destruct (ex >? MAX_SMALL_EXPONENT); [reflexivity|].
    destruct (Z.eqb_spec ex 0); [|reflexivity].
    destruct (negative sg); reflexivity.
Qed.

Lemma exponentByteCount_range (x : Z) : 1 <= exponentByteCount_of x <= 7.
Proof.
  unfold exponentByteCount_of.
  repeat match goal with |- context [?a <? ?b] => destruct (a <? b) end; lia.
Qed.

Lemma toUint8Array_bytes (l : list Z) : Forall byte l -> toUint8Array l = l.
Proof.
  unfold toUint8Array. induction 1 as [|x l Hx _ IH]; [reflexivity|].
  cbn [map]. rewrite IH. f_equal. unfold byte in Hx. apply Z.mod_small. lia.
Qed.

Lemma toArrayBuffer_general (sg : sign) (ex : option Z) (ds : list Z) :
  isSmallInteger ds ex = false ->
  toArrayBuffer (Dec sg ex (Some ds)) =
    toUint8Array
      (mantissa_loop (length ds) ds 0 (fst (header sg ex) ++ [0])
         (Z.to_nat (snd (header sg ex) + 1))).
Proof.
  intros H. unfold toArrayBuffer. cbn [d e s]. rewrite H.
  destruct (header sg ex). reflexivity.
Qed.

(** The output of the general case starts with the header bytes. *)
Lemma toArrayBuffer_header (sg : sign) (ex : option Z) (ds : list Z) :
  isSmallInteger ds ex = false ->
  Forall byte (fst (header sg ex)) ->
  Z.of_nat (length (fst (header sg ex))) = snd (header sg ex) + 1 ->
  exists tail,
    toArrayBuffer (Dec sg ex (Some ds)) = fst (header sg ex) ++ tail.
Proof.
  intros Hgen Hb Hlen. rewrite toArrayBuffer_general by assumption.
  set (hb := fst (header sg ex)) in *. set (cnt := snd (header sg ex)) in *.
  set (out := mantissa_loop _ _ _ _ _).
  assert (Ht : take (Z.to_nat (cnt + 1)) out = hb).
  { unfold out. rewrite mantissa_loop_take.
    apply take_app_length'. lia. }
  exists (toUint8Array (drop (Z.to_nat (cnt + 1)) out)).
  rewrite <- (take_drop (Z.to_nat (cnt + 1)) out) at 1. rewrite Ht.
  unfold toUint8Array. rewrite map_app.
  f_equal. apply toUint8Array_bytes, Hb.
Qed.

(** C4, as the code has it.  In the general case the first byte has bit 7
    set exactly for a negative sign and bit 6 exactly for a negative
    exponent; its low six bits are 0 for the exponent 0, [|e| + 7] (from 8
    to 37) for a magnitude from 1 to 30, and otherwise the count [n],
    from 1 to 7, of the bytes that follow with the magnitude, least
    significant byte first. *)
Theorem general_first_byte (sg : sign) (ex : Z) (ds : list Z)
    (Hex : Z.abs ex <= 9000000000000000)
    (Hgeneral : isSmallInteger ds (Some ex) = false) :
  exists firstByte rest,
    toArrayBuffer (Dec sg (Some ex) (Some ds)) = firstByte :: rest
    /\ Z.testbit firstByte 7 = negative sg
    /\ Z.testbit firstByte 6 = (ex <? 0)
    /\ (ex = 0 -> Z.land firstByte 0x3f = 0)
    /\ (1 <= Z.abs ex <= 30 ->
        Z.land firstByte 0x3f = Z.abs ex + 7 /\ 8 <= Z.abs ex + 7 <= 37)
    /\ (30 < Z.abs ex ->
        let n := Z.land firstByte 0x3f in
        1 <= n <= 7
        /\ length (take (Z.to_nat n) rest) = Z.to_nat n
        /\ Forall byte (take (Z.to_nat n) rest)
        /\ value 0x100 (take (Z.to_nat n) rest) = Z.abs ex).
Proof.
  pose proof (header_first_byte sg ex) as Hh. cbn zeta in Hh.
  unfold MAX_SMALL_EXPONENT in Hh.
  destruct (Z.gtb_spec (Z.abs ex) 30) as [Hbig|Hsmall].
  - (* the exponent takes bytes of its own *)
    set (x := Z.abs ex) in *.
    assert (Hx : 0 < x < 2 ^ 56) by (change (2 ^ 56) with 72057594037927936; lia).
    pose proof (exponentByteCount_range x) as Hc.
    pose proof (exponent_bytes_count x Hx) as Hlen.
    destruct (exponent_bytes_value (bits x) x) as [Hval Hbytes].
    { split; [lia | apply bits_spec; lia]. }
    destruct (first_byte_fields (negative sg) (ex <? 0) (exponentByteCount_of x))
      as (Hfb & H7 & H6 & Hlow & _); [lia|].
    destruct (toArrayBuffer_header sg (Some ex) ds Hgeneral) as [tail Hout].
    { rewrite Hh. cbn [fst]. constructor; [exact Hfb | exact Hbytes]. }
    { rewrite Hh. cbn [fst snd length]. lia. }
    rewrite Hh in Hout. cbn [fst] in Hout.
    exists (first_byte (negative sg) (ex <? 0) (exponentByteCount_of x)),
      (exponent_bytes (bits x) x ++ tail).
    split; [exact Hout|].
    split; [exact H7|]. split; [exact H6|].
    split; [intros ->; simpl in Hbig; lia|].
    split; [lia|]. intros _. cbn zeta. rewrite Hlow.
    assert (Ht : take (Z.to_nat (exponentByteCount_of x))
                   (exponent_bytes (bits x) x ++ tail) = exponent_bytes (bits x) x).
    { apply take_app_length'. lia. }
    rewrite Ht. repeat split; try lia; assumption.
  - (* the exponent is held in the first byte *)
    set (x := Z.abs ex) in *.
    destruct (first_byte_fields (negative sg) (ex <? 0) (if x =? 0 then 0 else x + 7))
      as (Hfb & H7 & H6 & Hlow & _).
    { destruct (Z.eqb_spec x 0); lia. }
    destruct (toArrayBuffer_header sg (Some ex) ds Hgeneral) as [tail Hout].
    { rewrite Hh. cbn [fst]. constructor; [exact Hfb | constructor]. }
    { rewrite Hh. reflexivity. }
    rewrite Hh in Hout. cbn [fst] in Hout.
    exists (first_byte (negative sg) (ex <? 0) (if x =? 0 then 0 else x + 7)), tail.
    split; [exact Hout|].
    split; [exact H7|]. split; [exact H6|].
    split; [intros ->; exact Hlow|].
    split; [|lia]. intros Hr. rewrite Hlow.
    destruct (Z.eqb_spec x 0); lia.
Qed.

Lemma general_first_byte_witness :
  exists firstByte rest,
    toArrayBuffer (Dec Negative (Some (-300)) (Some [1234567; 8900000]))
      = firstByte :: rest
    /\ Z.testbit firstByte 7 = true
    /\ Z.testbit firstByte 6 = true
    /\ Z.land firstByte 0x3f = 2
    /\ take 2 rest = [44; 1].
Proof.
  destruct (general_first_byte Negative (-300) [1234567; 8900000]
              ltac:(simpl; lia) eq_refl)
    as (firstByte & rest & Hout & H7 & H6 & _ & _ & _).
  exists firstByte, rest. vm_compute in Hout. inversion Hout; subst.
  repeat split; reflexivity.
Defined.

(** C4 as stated fails at the exponent 0: the low six bits of the first
    byte of 1.5 are 0, not [|e| + 7 = 7]. *)
Lemma zero_exponent_field_is_zero :
  exists firstByte rest,
    toArrayBuffer (Dec Positive (Some 0) (Some [1; 5000000])) = firstByte :: rest
    /\ isSmallInteger [1; 5000000] (Some 0) = false
    /\ Z.abs 0 <= 30
    /\ Z.land firstByte 0x3f <> Z.abs 0 + 7.
Proof.
  eexists _, _. split; [vm_compute; reflexivity|].
  repeat split; [simpl; lia | vm_compute; discriminate].
Qed.

(** ** The loop that materializes the limbs *)

Lemma at_index_nat (R : list Z) (n : nat) : at_index R (Z.of_nat n) = R !! n.
Proof.
  unfold at_index. destruct (Z.ltb_spec (Z.of_nat n) 0); [lia|].
  rewrite Nat2Z.id. reflexivity.
Qed.

Lemma top_token (R : list Z) (n : nat) :
  (n < length R)%nat ->
  exists x, R !! n = Some x /\ rev (take (S n) R) = x :: rev (take n R).
Proof.
  intros H. destruct (lookup_lt_is_Some_2 R n H) as [x Hx].
  exists x. split; [exact Hx|].
  rewrite (take_S_r R n x Hx), rev_app_distr. reflexivity.
Qed.

(** Once the index has stepped below zero the loop cannot end: every
    iteration reads [undefined], pushes it and decrements again. *)
Lemma materialize_runaway (fuel : nat) (R : list Z) (i : Z)
    (digits : list (option Z)) :
  i < 0 -> materialize fuel R i digits = None.
Proof.
  revert i digits. induction fuel as [|fuel IH]; intros i digits Hi;
    cbn [materialize]; destruct (Z.eqb_spec i 0); try lia; [reflexivity|].
  assert (Hnone : at_index R (i - 1) = None).
  { unfold at_index. destruct (Z.ltb_spec (i - 1) 0); [reflexivity | lia]. }
  rewrite Hnone. cbn [same_limb]. apply IH. lia.
Qed.

Lemma map_Some_replicate (n : nat) (x : Z) :
  map Some (replicate n x) = replicate n (Some x).
Proof. induction n; simpl; congruence. Qed.

Lemma numbers_map_Some (l : list Z) : numbers (map Some l) = Some l.
Proof. induction l as [|x l IH]; simpl; [reflexivity|]. rewrite IH. reflexivity. Qed.

(** From an index inside the array, the loop ends exactly when no
    signifier is left without its count; it then has pushed the expansion
    of the digits above the index, and one unit of fuel per digit is
    enough. *)
Lemma materialize_tokens (R : list Z) (fuel n : nat) (digits : list (option Z)) :
  (n <= length R)%nat ->
  if unpaired (rev (take n R))
  then materialize fuel R (Z.of_nat n) digits = None
  else (n <= fuel)%nat ->
       materialize fuel R (Z.of_nat n) digits
       = Some (digits ++ map Some (expand (rev (take n R)))).
Proof.
  revert n digits. induction fuel as [|fuel IH]; intros n digits Hn.
  - destruct n as [|n].
    + simpl. intros _. rewrite app_nil_r. reflexivity.
    + destruct (unpaired _); [reflexivity | lia].
  - destruct n as [|n].
    { simpl. intros _. rewrite app_nil_r. reflexivity. }
    destruct (top_token R n ltac:(lia)) as (x & Hx & Htop).
    rewrite Htop. cbn [unpaired expand materialize].
    destruct (Z.eqb_spec (Z.of_nat (S n)) 0) as [|_]; [lia|].
    replace (Z.of_nat (S n) - 1) with (Z.of_nat n) by lia.
    rewrite at_index_nat, Hx. cbn [same_limb]. unfold is_signifier.
    assert (Hcount : forall v,
      match rev (take n R) with
      | [] =>
          materialize fuel R (Z.of_nat n - 1)
            (digits ++ replicate (repeats_of (at_index R (Z.of_nat n - 1))) (Some v)) = None
      | count :: rest' =>
          if unpaired rest'
          then materialize fuel R (Z.of_nat n - 1)
                 (digits ++ replicate (repeats_of (at_index R (Z.of_nat n - 1))) (Some v)) = None
          else (S n <= S fuel)%nat ->
               materialize fuel R (Z.of_nat n - 1)
                 (digits ++ replicate (repeats_of (at_index R (Z.of_nat n - 1))) (Some v))
               = Some (digits ++ map Some (replicate (Z.to_nat count) v ++ expand rest'))
      end).
    { intros v. destruct n as [|m].
      - apply materialize_runaway. lia.
      - destruct (top_token R m ltac:(lia)) as (c & Hc & Htop').
        rewrite Htop'.
        replace (Z.of_nat (S m) - 1) with (Z.of_nat m) by lia.
        rewrite at_index_nat, Hc. cbn [repeats_of].
        specialize (IH m (digits ++ replicate (Z.to_nat c) (Some v)) ltac:(lia)).
        destruct (unpaired (rev (take m R))); [exact IH|].
        intros Hf. rewrite IH by lia.
        rewrite map_app, map_Some_replicate, app_assoc. reflexivity. }
    destruct (Z.eqb_spec x ZEROS_SIGNIFIER) as [Hz|Hz].
    { cbn [orb]. specialize (Hcount ALL_ZEROS).
      destruct (rev (take n R)) as [|c rest']; exact Hcount. }
    destruct (Z.eqb_spec x NINES_SIGNIFIER) as [Hn9|Hn9].
    { cbn [orb]. specialize (Hcount ALL_NINES).
      destruct (rev (take n R)) as [|c rest']; exact Hcount. }
    cbn [orb]. specialize (IH n (digits ++ [Some x]) ltac:(lia)).
    destruct (unpaired (rev (take n R))); [exact IH|].
    intros Hf. rewrite IH by lia.
    rewrite <- app_assoc. reflexivity.
Qed.

(** The array that the loop returns holds numbers only. *)
Lemma materialize_pushes_numbers (R : list Z) (res : list (option Z)) :
  forall (fuel n : nat) (digits : list (option Z)),
    (n <= length R)%nat ->
    materialize fuel R (Z.of_nat n) digits = Some res ->
    exists limbs, res = digits ++ map Some limbs.
Proof.
  induction fuel as [|k IHk]; intros n digits Hn Hres.
  - destruct n; simpl in Hres; [|discriminate].
    inversion Hres. exists []. rewrite app_nil_r. reflexivity.
  - destruct n as [|n].
    { simpl in Hres. inversion Hres. exists []. rewrite app_nil_r. reflexivity. }
    cbn [materialize] in Hres.
    destruct (Z.eqb_spec (Z.of_nat (S n)) 0) as [|_]; [lia|].
    replace (Z.of_nat (S n) - 1) with (Z.of_nat n) in Hres by lia.
    destruct (top_token R n ltac:(lia)) as (x & Hx & _).
    rewrite at_index_nat, Hx in Hres. cbn [same_limb] in Hres.
    assert (Hsig : forall v,
      materialize k R (Z.of_nat n - 1)
        (digits ++ replicate (repeats_of (at_index R (Z.of_nat n - 1))) (Some v))
      = Some res -> exists limbs, res = digits ++ map Some limbs).
    { intros v Hv. destruct n as [|m].
      - rewrite materialize_runaway in Hv by lia. discriminate.
      - replace (Z.of_nat (S m) - 1) with (Z.of_nat m) in Hv by lia.
        destruct (IHk m _ ltac:(lia) Hv) as [limbs ->].
        rewrite at_index_nat.
        destruct (R !! m) as [c|]; cbn [repeats_of].
        + exists (replicate (Z.to_nat c) v ++ limbs).
          rewrite map_app, map_Some_replicate, app_assoc. reflexivity.
        + exists limbs. simpl. rewrite app_nil_r. reflexivity. }
    destruct (x =? ZEROS_SIGNIFIER); [eapply Hsig; eassumption|].
    destruct (x =? NINES_SIGNIFIER); [eapply Hsig; eassumption|].
    destruct (IHk n _ ltac:(lia) Hres) as [limbs ->].
    exists (x :: limbs). rewrite <- app_assoc. reflexivity.
Qed.

Lemma materialize_numbers (R : list Z) (fuel : nat) (res : list (option Z)) :
  materialize fuel R (Z.of_nat (length R)) [] = Some res ->
  exists limbs, res = map Some limbs.
Proof. apply materialize_pushes_numbers. lia. Qed.

(** ** fromArrayBuffer on a buffer of two bytes or more *)

Lemma mantissa_tokens_long (firstByte b : Z) (rest : list Z) :
  mantissa_tokens (firstByte :: b :: rest)
  = rev (digitsInReverse_of (firstByte :: b :: rest)
           (snd (read_header (firstByte :: b :: rest) firstByte))).
Proof. reflexivity. Qed.

Lemma fromArrayBuffer_long_unfold (fuel : nat) (Decimal : Decimal_ctor)
    (firstByte b : Z) (rest : list Z) :
  fromArrayBuffer fuel Decimal (ArrayBuffer (firstByte :: b :: rest))
  = let bytes := firstByte :: b :: rest in
    let R := digitsInReverse_of bytes (snd (read_header bytes firstByte)) in
    match materialize fuel R (Z.of_nat (length R)) [] with
    | None => Running
    | Some digits =>
        match numbers digits with
        | Some digits =>
            finish Decimal (sign_of firstByte)
              (fst (read_header bytes firstByte)) (Some digits)
        | None => Running
        end
    end.
Proof.
  unfold fromArrayBuffer. cbn [length Nat.eqb].
  destruct (read_header (firstByte :: b :: rest) firstByte). reflexivity.
Qed.

Lemma fromArrayBuffer_long (fuel : nat) (Decimal : Decimal_ctor)
    (firstByte b : Z) (rest : list Z) :
  let bytes := firstByte :: b :: rest in
  unpaired (mantissa_tokens bytes) = false ->
  (length (mantissa_tokens bytes) <= fuel)%nat ->
  fromArrayBuffer fuel Decimal (ArrayBuffer bytes)
  = finish Decimal (sign_of firstByte) (fst (read_header bytes firstByte))
      (Some (expand (mantissa_tokens bytes))).
Proof.
  intros bytes Hu Hf. subst bytes.
  rewrite fromArrayBuffer_long_unfold, mantissa_tokens_long in *. cbn zeta.
  set (R := digitsInReverse_of _ _) in *.
  pose proof (materialize_tokens R fuel (length R) [] ltac:(lia)) as Hm.
  rewrite firstn_all in Hm. rewrite Hu in Hm.
  rewrite length_rev in Hf. rewrite Hm by assumption.
  cbn [app]. rewrite numbers_map_Some. reflexivity.
Qed.

Lemma fromArrayBuffer_stalls (fuel : nat) (Decimal : Decimal_ctor)
    (firstByte b : Z) (rest : list Z) :
  let bytes := firstByte :: b :: rest in
  unpaired (mantissa_tokens bytes) = true ->
  fromArrayBuffer fuel Decimal (ArrayBuffer bytes) = Running.
Proof.
  intros bytes Hu. subst bytes.
  rewrite fromArrayBuffer_long_unfold, mantissa_tokens_long in *. cbn zeta.
  set (R := digitsInReverse_of _ _) in *.
  pose proof (materialize_tokens R fuel (length R) [] ltac:(lia)) as Hm.
  rewrite firstn_all in Hm. rewrite Hu in Hm. rewrite Hm. reflexivity.
Qed.

Lemma finish_out_of_range (Decimal : Decimal_ctor) (sg : sign) (ex : Z)
    (digits : option (list Z)) :
  ex > maxE Decimal \/ ex < minE Decimal ->
  finish Decimal sg (Some ex) digits = Returns (Dec sg None None).
Proof.
  intros H. unfold finish. cbn [num_gt num_lt].
  destruct (Z.gtb_spec ex (maxE Decimal)); [reflexivity|].
  destruct (Z.ltb_spec ex (minE Decimal)); [reflexivity|]. lia.
Qed.

Lemma sign_of_cases (firstByte : Z) :
  sign_of firstByte = Positive \/ sign_of firstByte = Negative.
Proof. unfold sign_of. destruct (negb _); auto. Qed.

(** C2, as the code has it.  When the exponent reconstructed from a buffer
    lies outside [minE, maxE], the object returned has the exponent NaN
    and no limbs, and keeps the sign read from bit 7 of the first byte:
    for the encoder it is an infinity of that sign, not NaN.  The exponent
    is the one that the code has added up, a double, rounded when the
    bytes carry more than 2^53.  The loop over the limbs runs before the
    range check: the statement is about the buffers on which that loop
    ends and whose limbs an engine can hold in an array, 2^24 at most.
    The limits [maxE] and [minE] are limits that the host accepts. *)
Theorem out_of_range_exponent (Decimal : Decimal_ctor) (firstByte : Z)
    (rest : list Z) (ex : Z)
    (Hhost : host_range Decimal)
    (Hex : reconstructed_exponent (firstByte :: rest) = Some ex)
    (Hout : ex > maxE Decimal \/ ex < minE Decimal)
    (Hends : unpaired (mantissa_tokens (firstByte :: rest)) = false)
    (Hfits : fits_array (firstByte :: rest)) :
  (exists fuel0, forall fuel, (fuel0 <= fuel)%nat ->
     fromArrayBuffer fuel Decimal (ArrayBuffer (firstByte :: rest))
     = Returns (Dec (sign_of firstByte) None None))
  /\ toArrayBuffer (Dec (sign_of firstByte) None None)
     = [if negative (sign_of firstByte) then NEG_INFINITY_BYTE else INFINITY_BYTE].
Proof.
  split.
  - destruct rest as [|b rest].
    + exists 0%nat. intros fuel _. cbn [reconstructed_exponent] in Hex.
      unfold fromArrayBuffer. change (length [firstByte] =? 1)%nat with true.
      cbn iota. unfold single_byte in *.
      destruct (_ || _); [discriminate|].
      cbn [fst snd] in Hex. injection Hex as Hex. rewrite Hex.
      apply finish_out_of_range, Hout.
    + exists (length (mantissa_tokens (firstByte :: b :: rest))).
      intros fuel Hf. rewrite fromArrayBuffer_long by assumption.
      cbn [reconstructed_exponent] in Hex. rewrite Hex.
      apply finish_out_of_range, Hout.
  - destruct (sign_of_cases firstByte) as [-> | ->]; reflexivity.
Qed.

Lemma out_of_range_exponent_witness :
  (exists fuel0, forall fuel, (fuel0 <= fuel)%nat ->
     fromArrayBuffer fuel (Ctor 9000000000000000 (-9000000000000000))
       (ArrayBuffer [0xc7; 0x01; 0x80; 0xfa; 0xca; 0x73; 0xf9; 0x1f; 0x2a])
     = Returns (Dec (sign_of 0xc7) None None))
  /\ toArrayBuffer (Dec (sign_of 0xc7) None None)
     = [if negative (sign_of 0xc7) then NEG_INFINITY_BYTE else INFINITY_BYTE].
Proof.
  apply (out_of_range_exponent (Ctor 9000000000000000 (-9000000000000000))
           0xc7 [0x01; 0x80; 0xfa; 0xca; 0x73; 0xf9; 0x1f; 0x2a]
           (-9000000000000001)).
  - unfold host_range. simpl. lia.
  - vm_compute. reflexivity.
  - right. simpl. lia.
  - vm_compute. reflexivity.
  - vm_compute. discriminate.
Defined.

(** C2 as stated fails: the buffer below carries the exponent
    9000000000000001, above the [maxE] of the host, and what is returned
    is not the NaN view but the view of +Infinity, which the encoder
    maps to the byte of +Infinity. *)
Lemma out_of_range_is_not_NaN :
  let Decimal := Ctor 9000000000000000 (-9000000000000000) in
  let bytes := [0x07; 0x01; 0x80; 0xfa; 0xca; 0x73; 0xf9; 0x1f; 0x01] in
  reconstructed_exponent bytes = Some 9000000000000001
  /\ 9000000000000001 > maxE Decimal
  /\ fromArrayBuffer 1 Decimal (ArrayBuffer bytes) = Returns (Dec Positive None None)
  /\ (forall fuel,
        fromArrayBuffer fuel Decimal (ArrayBuffer bytes)
        <> Returns (Dec SignNaN None None))
  /\ toArrayBuffer (Dec Positive None None) = [INFINITY_BYTE]
  /\ toArrayBuffer (Dec Positive None None) <> toArrayBuffer (Dec SignNaN None None).
Proof.
  cbn zeta. split; [vm_compute; reflexivity|]. split; [simpl; lia|].
  split; [vm_compute; reflexivity|]. split.
  - intros [|fuel].
    + vm_compute. discriminate.
    + rewrite fromArrayBuffer_long; [| vm_compute; reflexivity | vm_compute; lia].
      vm_compute. discriminate.
  - split; [reflexivity | vm_compute; discriminate].
Qed.

(** ** Buffers on which fromArrayBuffer does not return *)

(** C6 fails on the code: the four bytes 00 80 96 98 carry the mantissa
    10000000, the single digit ZEROS_SIGNIFIER.  The loop over the limbs
    reads its count at index -1 and goes on from there with an index that
    never is 0 again: whatever the fuel, the call has not returned. *)
Theorem decode_does_not_return (fuel : nat) (Decimal : Decimal_ctor) :
  fromArrayBuffer fuel Decimal (ArrayBuffer [0x00; 0x80; 0x96; 0x98]) = Running.
Proof. apply fromArrayBuffer_stalls. vm_compute. reflexivity. Qed.

(** What does hold: a value that is not an ArrayBuffer throws, an empty
    buffer gives [null], and every other buffer whose digits do not end in
    a signifier without a count gives an object. *)
Lemma decode_outcomes (Decimal : Decimal_ctor) :
  (forall fuel, fromArrayBuffer fuel Decimal NotArrayBuffer = Throws)
  /\ (forall fuel bytes, fromArrayBuffer fuel Decimal (ArrayBuffer bytes) <> Throws)
  /\ (forall fuel, fromArrayBuffer fuel Decimal (ArrayBuffer []) = Null)
  /\ (forall firstByte rest,
        unpaired (mantissa_tokens (firstByte :: rest)) = false ->
        exists fuel0 x, forall fuel, (fuel0 <= fuel)%nat ->
          fromArrayBuffer fuel Decimal (ArrayBuffer (firstByte :: rest)) = Returns x).
Proof.
  split; [reflexivity|]. split; [|split; [reflexivity|]].
  - intros fuel bytes. unfold fromArrayBuffer.
    destruct bytes as [|fb rest]; [discriminate|].
    destruct (_ =? _)%nat.
    + destruct (single_byte fb) as [[sg ex] ds]. unfold finish.
      destruct (_ || _); discriminate.
    + destruct (read_header _ _). destruct (materialize _ _ _ _); [|discriminate].
      destruct (numbers _); [|discriminate]. unfold finish.
      destruct (_ || _); discriminate.
  - intros firstByte rest Hu.
    assert (Hfin : forall sg ex ds, exists x, finish Decimal sg ex ds = Returns x).
    { intros. unfold finish. destruct (_ || _); eauto. }
    destruct rest as [|b rest].
    + unfold fromArrayBuffer. change (length [firstByte] =? 1)%nat with true.
      cbn iota. destruct (single_byte firstByte) as [[sg ex] ds].
      destruct (Hfin sg ex ds) as [x Hx]. exists 0%nat, x. intros; exact Hx.
    + destruct (Hfin (sign_of firstByte)
                  (fst (read_header (firstByte :: b :: rest) firstByte))
                  (Some (expand (mantissa_tokens (firstByte :: b :: rest)))))
        as [x Hx].
      exists (length (mantissa_tokens (firstByte :: b :: rest))), x.
      intros fuel Hf. rewrite fromArrayBuffer_long by assumption. exact Hx.
Qed.

(** ** The mantissa loop emits the repeat compression of the limbs *)

Lemma run_length_le (v : Z) (l : list Z) : (run_length v l <= length l)%nat.
Proof. induction l as [|x l IH]; simpl; [lia|]. destruct (x =? v); simpl; lia. Qed.

Lemma run_length_replicate (v : Z) (n : nat) (rest : list Z) :
  run_length v (replicate n v ++ rest) = (n + run_length v rest)%nat.
Proof.
  induction n as [|n IH]; [reflexivity|].
  cbn [replicate app run_length]. rewrite Z.eqb_refl, IH. reflexivity.
Qed.

Lemma groups_cons (x : Z) (l : list Z) :
  groups (x :: l)
  = (x, S (run_length x l)) :: groups (drop (run_length x l) l).
Proof.
  revert x. induction l as [|y t IH]; intros x; [reflexivity|].
  change (groups (x :: y :: t)) with
    (match groups (y :: t) with
     | (y', n) :: g => if x =? y' then (y', S n) :: g else (x, 1%nat) :: (y', n) :: g
     | [] => [(x, 1%nat)]
     end).
  rewrite (IH y). cbn [run_length].
  rewrite (Z.eqb_sym y x).
  destruct (Z.eqb_spec x y) as [->|Hne].
  - cbn [drop]. reflexivity.
  - cbn [drop]. rewrite (IH y). reflexivity.
Qed.

Lemma rle_cons (x : Z) (l : list Z) :
  rle (x :: l) = emit (x, S (run_length x l)) ++ rle (drop (run_length x l) l).
Proof. unfold rle. rewrite groups_cons. reflexivity. Qed.

Lemma rle_literal (x : Z) (l : list Z) :
  run_value x && (2 <=? run_length x l)%nat = false ->
  rle (x :: l) = x :: rle l.
Proof.
  intros H. rewrite rle_cons. unfold emit.
  destruct l as [|y t].
  - cbn [run_length drop]. rewrite andb_false_r. reflexivity.
  - cbn [run_length] in *. destruct (Z.eqb_spec y x) as [->|Hne].
    + rewrite rle_cons. unfold emit.
      cbn [drop].
      assert (H3 : run_value x && (3 <=? S (S (run_length x t)))%nat = false).
      { destruct (run_value x); [|reflexivity]. cbn [andb] in *.
        apply Nat.leb_gt in H. apply Nat.leb_gt. lia. }
      assert (H3' : run_value x && (3 <=? S (run_length x t))%nat = false).
      { destruct (run_value x); [|reflexivity]. cbn [andb] in *.
        apply Nat.leb_gt in H. apply Nat.leb_gt. lia. }
      rewrite H3, H3'. reflexivity.
    + cbn [drop]. rewrite andb_false_r. reflexivity.
Qed.

Lemma rle_run (x : Z) (l : list Z) :
  run_value x = true -> (2 <= run_length x l)%nat ->
  rle (x :: l)
  = (if x =? ALL_ZEROS then ZEROS_SIGNIFIER else NINES_SIGNIFIER)
      :: Z.of_nat (S (run_length x l)) :: rle (drop (run_length x l) l).
Proof.
  intros Hv Hk. rewrite rle_cons. unfold emit. rewrite Hv.
  destruct (Nat.leb_spec 3 (S (run_length x l))); [reflexivity | lia].
Qed.

Lemma same_limb_lookup (digits : list Z) (i : nat) (x : Z) :
  same_limb (digits !! i) x = (1 <=? run_length x (drop i digits))%nat.
Proof.
  destruct (digits !! i) as [y|] eqn:E.
  - rewrite (drop_S _ _ _ E). cbn [same_limb run_length].
    destruct (y =? x); reflexivity.
  - rewrite drop_ge by (apply lookup_ge_None; exact E). reflexivity.
Qed.

Lemma extend_run_spec (digits : list Z) (x : Z) (i : nat) :
  forall (fuel repeatCount : nat),
    (length (drop (i + repeatCount) digits) <= fuel)%nat ->
    extend_run fuel digits x i repeatCount
    = (repeatCount + run_length x (drop (i + repeatCount) digits))%nat.
Proof.
  induction fuel as [|fuel IH]; intros c Hf.
  - destruct (drop (i + c) digits); [simpl; lia | simpl in Hf; lia].
  - cbn [extend_run]. destruct (digits !! (i + c)%nat) as [y|] eqn:E.
    + rewrite (drop_S _ _ _ E) in *. cbn [same_limb run_length length] in *.
      destruct (y =? x); [|lia].
      rewrite IH; replace (i + S c)%nat with (S (i + c)) by lia; lia.
    + rewrite drop_ge by (apply lookup_ge_None; exact E). simpl. lia.
Qed.

Lemma run_length_drop_S (digits : list Z) (i : nat) (x : Z) :
  digits !! i = Some x ->
  run_length x (drop i digits) = S (run_length x (drop (S i) digits)).
Proof. intros E. rewrite (drop_S _ _ _ E). cbn [run_length]. rewrite Z.eqb_refl. reflexivity. Qed.

(** The loop of [toArrayBuffer] over the mantissa hands to [convert], in
    order, the repeat compression of the limbs from index [i] on. *)
Lemma mantissa_loop_rle (digits : list Z) (startIndex : nat) :
  forall (fuel i : nat) (bytes : list Z),
    (length digits - i <= fuel)%nat ->
    mantissa_loop fuel digits i bytes startIndex
    = feed startIndex bytes (rle (drop i digits)).
Proof.
  induction fuel as [|fuel IH]; intros i bytes Hf.
  - rewrite drop_ge by lia. reflexivity.
  - cbn [mantissa_loop]. destruct (digits !! i) as [x|] eqn:E.
    2:{ rewrite drop_ge by (apply lookup_ge_None; exact E). reflexivity. }
    pose proof (lookup_lt_Some _ _ _ E) as Hi.
    rewrite (drop_S _ _ _ E).
    set (l := drop (S i) digits). set (k := run_length x l).
    fold (run_value x).
    replace (i + 1)%nat with (S i) by lia.
    rewrite !same_limb_lookup. fold l. fold k.
    assert (H2 : (1 <=? k)%nat && (1 <=? run_length x (drop (i + 2) digits))%nat
                 = (2 <=? k)%nat).
    { destruct (digits !! S i) as [y|] eqn:E1.
      - unfold k, l. rewrite (drop_S _ _ _ E1). cbn [run_length].
        replace (i + 2)%nat with (S (S i)) by lia.
        destruct (y =? x); [|reflexivity].
        destruct (run_length x (drop (S (S i)) digits)); reflexivity.
      - unfold k, l. rewrite (drop_ge digits (S i)) by (apply lookup_ge_None; exact E1).
        reflexivity. }
    rewrite <- andb_assoc, H2.
    destruct (run_value x && (2 <=? k)%nat) eqn:Hrun.
    + apply andb_prop in Hrun as [Hv Hk]. apply Nat.leb_le in Hk.
      assert (Hrc : extend_run (length digits) digits x i 3 = S k).
      { rewrite extend_run_spec by (rewrite length_drop; lia).
        assert (Hk3 : k = (2 + run_length x (drop (i + 3) digits))%nat).
        { unfold k, l.
          destruct (digits !! S i) as [y|] eqn:E1.
          2:{ exfalso. unfold k, l in Hk.
              rewrite (drop_ge digits (S i)) in Hk by (apply lookup_ge_None; exact E1).
              simpl in Hk. lia. }
          unfold k, l in Hk. rewrite (drop_S _ _ _ E1) in Hk |- *.
          cbn [run_length] in Hk |- *.
          destruct (y =? x); [|lia].
          destruct (digits !! S (S i)) as [z|] eqn:E2.
          2:{ exfalso.
              rewrite (drop_ge digits (S (S i))) in Hk by (apply lookup_ge_None; exact E2).
              simpl in Hk. lia. }
          rewrite (drop_S _ _ _ E2) in Hk |- *. cbn [run_length] in Hk |- *.
          destruct (z =? x); [|lia].
          replace (i + 3)%nat with (S (S (S i))) by lia. reflexivity. }
        lia. }
      rewrite Hrc, rle_run by (fold k; assumption). fold k.
      cbn [feed fold_left]. rewrite IH by lia.
      unfold feed. unfold l. rewrite drop_drop.
      replace (S i + k)%nat with (i + S k)%nat by lia. reflexivity.
    + rewrite rle_literal by (fold k; exact Hrun).
      cbn [feed fold_left]. rewrite IH by lia. reflexivity.
Qed.

Lemma toArrayBuffer_feed (sg : sign) (ex : option Z) (ds : list Z) :
  isSmallInteger ds ex = false ->
  toArrayBuffer (Dec sg ex (Some ds))
  = toUint8Array
      (feed (Z.to_nat (snd (header sg ex) + 1)) (fst (header sg ex) ++ [0]) (rle ds)).
Proof.
  intros H. rewrite toArrayBuffer_general by assumption.
  rewrite mantissa_loop_rle by lia. reflexivity.
Qed.

(** ** A run of 10000002 limbs *)

Lemma rle_zero_run (n : nat) :
  (3 <= n)%nat ->
  rle (1 :: replicate n 0 ++ [1]) = [1; ZEROS_SIGNIFIER; Z.of_nat n; 1].
Proof.
  intros Hn. destruct n as [|m]; [lia|].
  rewrite rle_literal by reflexivity.
  cbn [replicate app].
  assert (Hk : run_length 0 (replicate m 0 ++ [1]) = m).
  { rewrite run_length_replicate. simpl. lia. }
  rewrite rle_run; [| reflexivity | rewrite Hk; lia].
  rewrite Hk, drop_app_length' by (symmetry; apply length_replicate).
  reflexivity.
Qed.

Lemma long_zero_run_bytes :
  toArrayBuffer long_zero_run_decimal
  = [0x00; 0x0d; 0x82; 0x6c; 0x7e; 0xfd; 0x43; 0x97; 0x6b; 0x6c].
Proof.
  unfold long_zero_run_decimal, long_zero_run.
  assert (Hn : (3 <= Z.to_nat RADIX)%nat) by (unfold RADIX, BASE; lia).
  assert (Hz : Z.of_nat (Z.to_nat RADIX) = RADIX) by (unfold RADIX, BASE; lia).
  revert Hn Hz. generalize (Z.to_nat RADIX) as n. intros n Hn Hz.
  rewrite toArrayBuffer_feed.
  - rewrite rle_zero_run, Hz by assumption. vm_compute. reflexivity.
  - destruct n as [|m]; [lia|]. reflexivity.
Qed.

Lemma long_zero_run_length : length long_zero_run <> 2%nat.
Proof.
  unfold long_zero_run. cbn [length]. rewrite length_app, length_replicate.
  cbn [length]. unfold RADIX, BASE. lia.
Qed.

(** C1 fails on the code: the Decimal 1 + 1e-70000021 has a run of 10000002
    zero limbs, and the count of the run, handed to [convert] as one digit
    in base 10000002, is no digit of that base.  Its ten bytes decode to
    the limbs 1, 1: whatever the fuel and the exponent range, the decoder
    does not give the Decimal back. *)
Theorem long_zero_run_is_not_restored :
  (forall (fuel : nat) (Decimal : Decimal_ctor),
     fromArrayBuffer fuel Decimal (ArrayBuffer (toArrayBuffer long_zero_run_decimal))
     <> Returns long_zero_run_decimal)
  /\ fromArrayBuffer 3 (Ctor 9000000000000000 (-9000000000000000))
       (ArrayBuffer (toArrayBuffer long_zero_run_decimal))
     = Returns (Dec Positive (Some 0) (Some [1; 1])).
Proof.
  rewrite long_zero_run_bytes. split; [|vm_compute; reflexivity].
  intros fuel Decimal. unfold long_zero_run_decimal.
  pose proof long_zero_run_length as Hlen. revert Hlen.
  generalize long_zero_run as limbs. intros limbs Hlen.
  assert (Hlong : forall k, (3 <= k)%nat ->
    fromArrayBuffer k Decimal
      (ArrayBuffer [0x00; 0x0d; 0x82; 0x6c; 0x7e; 0xfd; 0x43; 0x97; 0x6b; 0x6c])
    = finish Decimal Positive (Some 0) (Some [1; 1])).
  { intros k Hk. destruct (Nat.eq_dec k 3%nat) as [->|Hne]; [vm_compute; reflexivity|].
    rewrite fromArrayBuffer_long; [| vm_compute; reflexivity | vm_compute; lia].
    vm_compute. reflexivity. }
  destruct (Nat.lt_ge_cases fuel 3) as [Hlt|Hge].
  - do 3 (destruct fuel as [|fuel]; [vm_compute; discriminate|]). lia.
  - rewrite Hlong by assumption.
    unfold finish. destruct (_ || _); [discriminate|].
    intros H. injection H as H.
    apply Hlen. rewrite <- H. vm_compute. reflexivity.
Qed.

(** C5 fails on the code at the same Decimal and by the same defect as C1:
    the run of 10000002 zeros is replaced by the signifier and the count
    10000002, which is not below the base of the conversion; the decoder
    then finds the digits 1, NINES_SIGNIFIER, 0, 1, and a mantissa with a
    run of three or more zero limbs has not gone through unchanged. *)
Theorem long_run_count_is_no_digit :
  rle long_zero_run = [1; ZEROS_SIGNIFIER; RADIX; 1]
  /\ toArrayBuffer long_zero_run_decimal
     = toUint8Array (feed 1 [0; 0] (rle long_zero_run))
  /\ mantissa_tokens (toArrayBuffer long_zero_run_decimal)
     = [1; NINES_SIGNIFIER; 0; 1]
  /\ expand (mantissa_tokens (toArrayBuffer long_zero_run_decimal)) = [1; 1]
  /\ expand (mantissa_tokens (toArrayBuffer long_zero_run_decimal)) <> long_zero_run.
Proof.
  assert (Hrle : rle long_zero_run = [1; ZEROS_SIGNIFIER; RADIX; 1]).
  { unfold long_zero_run. rewrite rle_zero_run by (unfold RADIX, BASE; lia).
    rewrite Z2Nat.id by (unfold RADIX, BASE; lia). reflexivity. }
  split; [exact Hrle|]. split.
  - rewrite long_zero_run_bytes, Hrle. vm_compute. reflexivity.
  - rewrite long_zero_run_bytes.
    split; [vm_compute; reflexivity|]. split; [vm_compute; reflexivity|].
    pose proof long_zero_run_length as Hlen. revert Hlen.
    generalize long_zero_run as limbs. intros limbs Hlen H.
    apply Hlen. rewrite <- H. vm_compute. reflexivity.
Qed.

(** ** Base conversion *)

Lemma quot32_small (x resBase valBase : Z) :
  2 <= resBase -> 0 <= x < resBase * valBase -> valBase <= 2 ^ 31 ->
  quot32 x resBase = x / resBase /\ Z.rem x resBase = x mod resBase.
Proof.
  intros Hb Hx Hv. unfold quot32.
  rewrite Z.quot_div_nonneg, Z.rem_mod_nonneg by lia.
  split; [|reflexivity]. apply to_int32_small.
  assert (x / resBase < valBase) by (apply Z.div_lt_upper_bound; lia).
  assert (0 <= x / resBase) by (apply Z.div_pos; lia).
  change (2 ^ 31) with 2147483648 in *. lia.
Qed.

Lemma value_cons (base x : Z) (l : list Z) :
  value base (x :: l) = x + base * value base l.
Proof. reflexivity. Qed.

Lemma bits_div (x resBase : Z) (fuel : nat) :
  2 <= resBase -> 0 <= x < 2 ^ Z.of_nat (S fuel) ->
  0 <= x / resBase < 2 ^ Z.of_nat fuel.
Proof.
  intros Hb Hx. rewrite Nat2Z.inj_succ, Z.pow_succ_r in Hx by lia.
  split; [apply Z.div_pos; lia|].
  apply Z.div_lt_upper_bound; [lia|].
  assert (0 < 2 ^ Z.of_nat fuel) by (apply Z.pow_pos_nonneg; lia). nia.
Qed.

(** The elements that the loop appends hold the carry, digit by digit. *)
Lemma grow_spec (resBase valBase : Z) :
  2 <= resBase -> valBase <= 2 ^ 31 ->
  forall (fuel : nat) (x : Z),
    0 <= x < resBase * valBase -> x < 2 ^ Z.of_nat fuel ->
    value resBase (grow fuel resBase x) = x
    /\ digits_ok resBase (grow fuel resBase x)
    /\ (0 < x -> exists top, last (grow fuel resBase x) = Some top /\ top <> 0).
Proof.
  intros Hb Hv. induction fuel as [|fuel IH]; intros x Hx Hf.
  - simpl in Hf. assert (x = 0) by lia. subst. cbn [grow].
    split; [cbn [value fold_right]; lia|].
    split; [constructor; [lia | constructor] | lia].
  - cbn [grow]. destruct (Z.gtb_spec x (resBase - 1)) as [Hgt|Hle].
    + destruct (quot32_small x resBase valBase Hb Hx Hv) as [-> ->].
      pose proof (bits_div x resBase fuel Hb ltac:(lia)) as Hq.
      assert (Hq1 : 1 <= x / resBase)
        by (apply Z.div_le_lower_bound; lia).
      assert (Hq2 : x / resBase < resBase * valBase).
      { apply Z.div_lt_upper_bound; [lia|]. nia. }
      destruct (IH (x / resBase) ltac:(lia) ltac:(lia)) as (Hval & Hok & Htop).
      rewrite Z.add_0_l. split; [|split].
      * rewrite value_cons, Hval. pose proof (Z.div_mod x resBase). lia.
      * constructor; [apply Z.mod_pos_bound; lia | exact Hok].
      * intros _. destruct (Htop ltac:(lia)) as (top & Hl & Hne).
        exists top. split; [|exact Hne].
        destruct (grow fuel resBase (x / resBase)) eqn:G; [discriminate|].
        rewrite last_cons, Hl. reflexivity.
    + split; [cbn [value fold_right]; lia|].
      split; [constructor; [lia | constructor]|].
      intros Hp. exists x. split; [reflexivity | lia].
Qed.

(** The carry loop over the elements that are there, then [grow]. *)
Lemma carry_spec (resBase valBase : Z) :
  2 <= resBase -> 1 <= valBase <= 2 ^ 31 ->
  forall (rest : list Z) (x : Z),
    0 <= x < resBase * valBase ->
    digits_ok resBase rest ->
    let out := carry resBase x (map (fun y => y * valBase) rest) in
    value resBase out = x + resBase * valBase * value resBase rest
    /\ digits_ok resBase out
    /\ ((0 < x /\ rest = []) \/ (exists top, last rest = Some top /\ top <> 0) ->
        exists top, last out = Some top /\ top <> 0).
Proof.
  intros Hb Hv. induction rest as [|y rest IH]; intros x Hx Hok; cbn zeta.
  - cbn [map carry]. destruct (grow_spec resBase valBase Hb ltac:(lia) (bits x) x Hx)
      as (Hval & Hd & Htop); [apply bits_spec; lia|].
    split; [cbn [value fold_right]; lia|]. split; [exact Hd|].
    intros [[Hp _]|(top & Hl & _)]; [apply Htop, Hp | discriminate].
  - cbn [map carry]. inversion Hok as [|? ? Hy Hok']; subst.
    assert (Hnext : forall c, 0 <= c < valBase -> 0 <= y * valBase + c < resBase * valBase) by (intros; nia).
    assert (Htop' : forall x',
      ((0 < x /\ y :: rest = []) \/ (exists top, last (y :: rest) = Some top /\ top <> 0)) ->
      0 <= x' - y * valBase ->
      (0 < x' /\ rest = []) \/ (exists top, last rest = Some top /\ top <> 0)).
    { intros x' [[_ Hnil]|(top & Hl & Hne)] Hx'; [discriminate|].
      destruct rest as [|z rest'].
      - left. cbn in Hl. injection Hl as ->. split; [nia | reflexivity].
      - right. exists top. rewrite last_cons_cons in Hl.
        split; [exact Hl | exact Hne]. }
    destruct (Z.gtb_spec x (resBase - 1)) as [Hgt|Hle].
    + destruct (quot32_small x resBase valBase Hb Hx ltac:(lia)) as [-> ->].
      assert (Hq : 0 <= x / resBase < valBase).
      { split; [apply Z.div_pos; lia | apply Z.div_lt_upper_bound; lia]. }
      destruct (IH (y * valBase + x / resBase) (Hnext _ Hq) Hok') as (Hval & Hd & Hlast).
      cbn zeta in *. split; [|split].
      * rewrite value_cons, Hval, value_cons.
        pose proof (Z.div_mod x resBase). lia.
      * constructor; [apply Z.mod_pos_bound; lia | exact Hd].
      * intros Ht.
        destruct (Hlast (Htop' (y * valBase + x / resBase) Ht ltac:(lia)))
          as (top & Hl & Hne).
        exists top. split; [|exact Hne].
        destruct (carry resBase _ _) eqn:G; [discriminate|].
        rewrite last_cons, Hl. reflexivity.
    + destruct (IH (y * valBase) ltac:(nia) Hok') as (Hval & Hd & Hlast).
      cbn zeta in *. split; [|split].
      * rewrite value_cons, Hval, value_cons. lia.
      * constructor; [lia | exact Hd].
      * intros Ht.
        destruct (Hlast (Htop' (y * valBase) Ht ltac:(lia))) as (top & Hl & Hne).
        exists top. split; [|exact Hne].
        destruct (carry resBase _ _) eqn:G; [discriminate|].
        rewrite last_cons, Hl. reflexivity.
Qed.

Lemma accumulate_cons (val valBase a : Z) (acc : list Z) (resBase : Z) :
  accumulate val valBase (a :: acc) resBase
  = carry resBase (a * valBase + val) (map (fun y => y * valBase) acc).
Proof. reflexivity. Qed.

Lemma canonical_nonempty (base : Z) (l : list Z) : canonical base l -> l <> [].
Proof. intros [_ [->|(top & Hl & _)]]; [discriminate|]. intros ->. discriminate. Qed.

(** One call of [convert] on an accumulator: the number it holds is
    multiplied by [valBase] and [val] is added, and the digits stay in
    range, with no zero at the top. *)
Lemma accumulate_spec (resBase valBase val : Z) (acc : list Z) :
  2 <= resBase -> 1 <= valBase <= 2 ^ 31 -> 0 <= val < valBase ->
  canonical resBase acc ->
  value resBase (accumulate val valBase acc resBase)
  = value resBase acc * valBase + val
  /\ canonical resBase (accumulate val valBase acc resBase).
Proof.
  intros Hb Hv Hval Hc. pose proof (canonical_nonempty _ _ Hc) as Hne.
  destruct acc as [|a acc]; [contradiction|]. clear Hne.
  destruct Hc as [Hok Htop]. inversion Hok as [|? ? Ha Hok']; subst.
  rewrite accumulate_cons.
  destruct (carry_spec resBase valBase Hb Hv acc (a * valBase + val) ltac:(nia) Hok')
    as (Hvalue & Hd & Hlast). cbn zeta in *.
  split; [rewrite Hvalue, value_cons; lia|].
  split; [exact Hd|].
  destruct Htop as [H0|(top & Hl & Hn)].
  - injection H0 as -> ->. destruct (Z.eq_dec val 0) as [->|Hnz].
    + left. cbn [map carry]. change (0 * valBase + 0) with 0.
      change (bits 0) with 1%nat. cbn [grow].
      destruct (Z.gtb_spec 0 (resBase - 1)); [lia | reflexivity].
    + right. apply Hlast. left. split; [lia | reflexivity].
  - right. apply Hlast. destruct acc as [|z acc'].
    + left. cbn in Hl. injection Hl as ->. split; [nia | reflexivity].
    + right. exists top. rewrite last_cons_cons in Hl. split; assumption.
Qed.

Lemma fold_accumulate_spec (resBase valBase : Z) :
  2 <= resBase -> 1 <= valBase <= 2 ^ 31 ->
  forall (tokens acc : list Z),
    digits_ok valBase tokens -> canonical resBase acc ->
    let out := fold_left (fun a t => accumulate t valBase a resBase) tokens acc in
    canonical resBase out
    /\ value resBase out
       = fold_left (fun v t => v * valBase + t) tokens (value resBase acc).
Proof.
  intros Hb Hv. induction tokens as [|t tokens IH]; intros acc Ht Hc; cbn zeta.
  - split; [exact Hc | reflexivity].
  - inversion Ht; subst. cbn [fold_left].
    destruct (accumulate_spec resBase valBase t acc Hb Hv ltac:(lia) Hc) as [Hval Hcan].
    destruct (IH _ ltac:(assumption) Hcan) as [Hc' Hv']. cbn zeta in *.
    split; [exact Hc'|]. rewrite Hv', Hval. reflexivity.
Qed.

Lemma horner_rev (base : Z) (l : list Z) : horner base (rev l) = value base l.
Proof.
  unfold horner. induction l as [|x l IH]; [reflexivity|].
  cbn [rev]. rewrite fold_left_app, IH. cbn [fold_left]. rewrite value_cons. lia.
Qed.

(** Two lists of digits with no zero at the top that denote the same
    number are the same list. *)

Lemma value_nonneg (base : Z) (l : list Z) :
  0 < base -> digits_ok base l -> 0 <= value base l.
Proof.
  intros Hb. induction 1 as [|x l Hx _ IH]; [cbn; lia|].
  rewrite value_cons. nia.
Qed.

Lemma value_top_pos (base : Z) (l : list Z) (top : Z) :
  0 < base -> digits_ok base l -> last l = Some top -> top <> 0 ->
  0 < value base l.
Proof.
  intros Hb Hok. revert top. induction Hok as [|x l Hx Hok IH]; intros top Hl Hn.
  - discriminate.
  - rewrite value_cons. destruct l as [|y l'].
    + cbn in Hl. injection Hl as ->. cbn [value fold_right]. lia.
    + rewrite last_cons_cons in Hl. specialize (IH top Hl Hn). nia.
Qed.

Lemma digits_unique (base : Z) :
  0 < base ->
  forall l1 l2 : list Z,
    digits_ok base l1 -> digits_ok base l2 ->
    (exists top, last l1 = Some top /\ top <> 0) ->
    (exists top, last l2 = Some top /\ top <> 0) ->
    value base l1 = value base l2 -> l1 = l2.
Proof.
  intros Hb. induction l1 as [|x1 t1 IH]; intros l2 H1 H2 (top1 & Hl1 & Hn1) (top2 & Hl2 & Hn2) Hv.
  - discriminate.
  - destruct l2 as [|x2 t2]; [discriminate|].
    inversion H1 as [|? ? Hx1 Ht1]; inversion H2 as [|? ? Hx2 Ht2]; subst.
    rewrite !value_cons in Hv.
    assert (Hx : x1 = x2).
    { assert (x1 mod base = x2 mod base).
      { replace x1 with (x2 + (value base t2 - value base t1) * base) by lia.
        apply Z.mod_add. lia. }
      rewrite !Z.mod_small in * by lia. assumption. }
    subst x2. assert (Hvt : value base t1 = value base t2) by nia.
    f_equal.
    destruct t1 as [|y1 t1'], t2 as [|y2 t2']; [reflexivity | | |].
    + exfalso. rewrite last_cons_cons in Hl2.
      pose proof (value_top_pos base _ top2 Hb Ht2 Hl2 Hn2).
      change (value base []) with 0 in Hvt. lia.
    + exfalso. rewrite last_cons_cons in Hl1.
      pose proof (value_top_pos base _ top1 Hb Ht1 Hl1 Hn1).
      change (value base []) with 0 in Hvt. lia.
    + rewrite last_cons_cons in Hl1, Hl2. apply IH; eauto.
Qed.

Lemma canonical_unique (base : Z) (l1 l2 : list Z) :
  0 < base -> canonical base l1 -> canonical base l2 ->
  value base l1 = value base l2 -> l1 = l2.
Proof.
  intros Hb [H1 T1] [H2 T2] Hv.
  destruct T1 as [->|(top1 & Hl1 & Hn1)], T2 as [->|(top2 & Hl2 & Hn2)].
  - reflexivity.
  - pose proof (value_top_pos base _ top2 Hb H2 Hl2 Hn2).
    change (value base [0]) with (0 + base * 0) in Hv. lia.
  - pose proof (value_top_pos base _ top1 Hb H1 Hl1 Hn1).
    change (value base [0]) with (0 + base * 0) in Hv. lia.
  - apply (digits_unique base Hb); eauto.
Qed.

(** ** Repeat compression and its expansion *)

Lemma run_length_take (x : Z) (l : list Z) :
  take (run_length x l) l = replicate (run_length x l) x.
Proof.
  induction l as [|y l IH]; [reflexivity|]. cbn [run_length].
  destruct (Z.eqb_spec y x) as [->|]; [|reflexivity].
  cbn [take replicate]. rewrite IH. reflexivity.
Qed.

Lemma run_split (x : Z) (l : list Z) :
  x :: l = replicate (S (run_length x l)) x ++ drop (run_length x l) l.
Proof.
  cbn [replicate app]. rewrite <- run_length_take, take_drop. reflexivity.
Qed.

Lemma limb_not_signifier (x : Z) :
  limb x -> (x =? ZEROS_SIGNIFIER) = false /\ (x =? NINES_SIGNIFIER) = false.
Proof.
  unfold limb, ZEROS_SIGNIFIER, NINES_SIGNIFIER, BASE. intros H.
  split; apply Z.eqb_neq; lia.
Qed.

Lemma expand_literals (x : Z) (m : nat) (r : list Z) :
  limb x -> expand (replicate m x ++ r) = replicate m x ++ expand r.
Proof.
  intros Hx. destruct (limb_not_signifier x Hx) as [Hz Hn].
  induction m as [|m IH]; [reflexivity|].
  cbn [replicate app expand]. rewrite Hz, Hn, IH. reflexivity.
Qed.

Lemma unpaired_literals (x : Z) (m : nat) (r : list Z) :
  limb x -> unpaired (replicate m x ++ r) = unpaired r.
Proof.
  intros Hx. destruct (limb_not_signifier x Hx) as [Hz Hn].
  induction m as [|m IH]; [reflexivity|].
  cbn [replicate app unpaired]. unfold is_signifier. rewrite Hz, Hn. exact IH.
Qed.

Lemma expand_emit (x : Z) (m : nat) (r : list Z) :
  limb x -> expand (emit (x, m) ++ r) = replicate m x ++ expand r.
Proof.
  intros Hx. unfold emit. destruct (run_value x && (3 <=? m)%nat) eqn:E.
  - apply andb_prop in E as [Hv _]. unfold run_value in Hv.
    cbn [app expand]. rewrite Nat2Z.id.
    destruct (Z.eqb_spec x ALL_ZEROS) as [->|Hnz].
    + reflexivity.
    + cbn [orb] in Hv. apply Z.eqb_eq in Hv. subst x. reflexivity.
  - apply expand_literals, Hx.
Qed.

Lemma unpaired_emit (x : Z) (m : nat) (r : list Z) :
  limb x -> unpaired (emit (x, m) ++ r) = unpaired r.
Proof.
  intros Hx. unfold emit. destruct (run_value x && (3 <=? m)%nat) eqn:E.
  - cbn [app unpaired]. destruct (x =? ALL_ZEROS); reflexivity.
  - apply unpaired_literals, Hx.
Qed.

Lemma emit_digits (x : Z) (m : nat) :
  limb x -> Z.of_nat m < RADIX -> digits_ok RADIX (emit (x, m)).
Proof.
  intros Hx Hm. unfold emit, digits_ok.
  assert (Hlimb : 0 <= x < RADIX) by (unfold limb, RADIX in *; lia).
  destruct (run_value x && (3 <=? m)%nat).
  - constructor.
    + destruct (x =? ALL_ZEROS); unfold ZEROS_SIGNIFIER, NINES_SIGNIFIER, RADIX, BASE; lia.
    + constructor; [lia | constructor].
  - apply Forall_replicate. exact Hlimb.
Qed.

(** The expansion undoes the compression; the compressed list never ends
    in a signifier without count; and when no run reaches the base of the
    conversion, every element of it is a digit of that base. *)
Lemma rle_expand (n : nat) :
  forall ds : list Z,
    (length ds <= n)%nat -> Forall limb ds ->
    expand (rle ds) = ds
    /\ unpaired (rle ds) = false
    /\ (short_runs ds -> digits_ok RADIX (rle ds)).
Proof.
  induction n as [|n IH]; intros ds Hlen Hl.
  - destruct ds; [|cbn in Hlen; lia].
    repeat split. intros _. constructor.
  - destruct ds as [|x l]; [repeat split; intros _; constructor|].
    inversion Hl as [|? ? Hx Hl']; subst.
    set (k := run_length x l).
    assert (Hk : (k <= length l)%nat) by apply run_length_le.
    destruct (IH (drop k l)) as (He & Hu & Hd).
    { rewrite length_drop. cbn [length] in Hlen. lia. }
    { apply Forall_drop, Hl'. }
    rewrite rle_cons. fold k. split; [|split].
    + rewrite expand_emit, He by exact Hx. symmetry. apply run_split.
    + rewrite unpaired_emit by exact Hx. exact Hu.
    + intros Hs. unfold short_runs in Hs. rewrite groups_cons in Hs. fold k in Hs.
      inversion Hs as [|? ? Hc Hs']; subst. cbn [snd] in Hc.
      apply Forall_app. split; [apply emit_digits; assumption | apply Hd, Hs'].
Qed.

Lemma rle_head (d0 : Z) (rest : list Z) :
  1 <= d0 -> exists t ts, rle (d0 :: rest) = t :: ts /\ t <> 0.
Proof.
  intros H. rewrite rle_cons. unfold emit.
  destruct (run_value d0 && _).
  - eexists _, _. split; [reflexivity|].
    destruct (d0 =? ALL_ZEROS); unfold ZEROS_SIGNIFIER, NINES_SIGNIFIER, BASE; lia.
  - cbn [replicate app]. eexists _, _. split; [reflexivity | lia].
Qed.

(** ** The mantissa bytes and back *)

Lemma convert_prefix (val valBase : Z) (pre acc : list Z) (resBase : Z) :
  acc <> [] ->
  convert val valBase (pre ++ acc) resBase (length pre)
  = pre ++ accumulate val valBase acc resBase.
Proof.
  intros Hne. unfold accumulate, convert.
  rewrite drop_app_length, take_app_length. cbn [drop take].
  destruct acc as [|a acc]; [contradiction|]. reflexivity.
Qed.

Lemma accumulate_nonempty (val valBase : Z) (acc : list Z) (resBase : Z) :
  acc <> [] -> accumulate val valBase acc resBase <> [].
Proof.
  intros Hne H. pose proof (convert_length val valBase acc resBase 0) as Hl.
  unfold accumulate in H. rewrite H in Hl. destruct acc; [contradiction|].
  cbn in Hl. lia.
Qed.

Lemma feed_prefix (pre : list Z) (tokens acc : list Z) :
  acc <> [] ->
  feed (length pre) (pre ++ acc) tokens
  = pre ++ fold_left (fun a t => accumulate t RADIX a 0x100) tokens acc.
Proof.
  revert acc. induction tokens as [|t tokens IH]; intros acc Hne; [reflexivity|].
  cbn [feed fold_left]. rewrite convert_prefix by exact Hne.
  apply IH, accumulate_nonempty, Hne.
Qed.

Lemma canonical_zero (base : Z) : 0 < base -> canonical base [0].
Proof. intros H. split; [constructor; [lia | constructor] | left; reflexivity]. Qed.

Lemma RADIX_bounds : 2 <= RADIX /\ 1 <= RADIX <= 2 ^ 31.
Proof. unfold RADIX, BASE. change (2 ^ 31) with 2147483648. lia. Qed.

(** The bytes that the encoder makes of a list of digits of base RADIX
    with no zero at its head are read back by the decoder as that list. *)
Lemma mantissa_round_trip (tokens : list Z) :
  digits_ok RADIX tokens ->
  (tokens = [0] \/ exists t ts, tokens = t :: ts /\ t <> 0) ->
  let mant := fold_left (fun a t => accumulate t RADIX a 0x100) tokens [0] in
  mant <> [] /\ Forall byte mant
  /\ rev (fold_left (fun a b => convert b 0x100 a RADIX 0) (rev mant) [0]) = tokens.
Proof.
  intros Hd Hhead mant. destruct RADIX_bounds as [HR2 HR].
  destruct (fold_accumulate_spec 0x100 RADIX ltac:(lia) HR tokens [0] Hd
              (canonical_zero 0x100 ltac:(lia))) as [Hc Hv].
  fold mant in Hc, Hv. cbn zeta in *.
  split; [apply (canonical_nonempty _ _ Hc)|]. split; [exact (proj1 Hc)|].
  set (R := fold_left (fun a b => convert b 0x100 a RADIX 0) (rev mant) [0]).
  destruct (fold_accumulate_spec RADIX 0x100 HR2 ltac:(change (2 ^ 31) with 2147483648; lia)
              (rev mant) [0]) as [HcR HvR].
  { apply Forall_rev, Hc. }
  { apply canonical_zero. lia. }
  cbn zeta in *. fold (accumulate) in *.
  change (fold_left (fun a t => accumulate t 0x100 a RADIX) (rev mant) [0]) with R in HcR, HvR.
  change (value RADIX [0]) with (0 + RADIX * 0) in HvR.
  change (value 0x100 [0]) with (0 + 0x100 * 0) in Hv.
  assert (HR0 : value RADIX R = value RADIX (rev tokens)).
  { rewrite HvR. replace (0 + RADIX * 0) with 0 by lia.
    change (fold_left (fun v t => v * 0x100 + t) (rev mant) 0) with (horner 0x100 (rev mant)).
    rewrite horner_rev, Hv. replace (0 + 0x100 * 0) with 0 by lia.
    change (fold_left (fun v t => v * RADIX + t) tokens 0) with (horner RADIX tokens).
    rewrite <- (rev_involutive tokens) at 1. apply horner_rev. }
  assert (Hct : canonical RADIX (rev tokens)).
  { split; [apply Forall_rev, Hd|].
    destruct Hhead as [->|(t & ts & -> & Hne)]; [left; reflexivity|].
    right. exists t. cbn [rev]. rewrite last_snoc. split; [reflexivity | exact Hne]. }
  rewrite (canonical_unique RADIX R (rev tokens) ltac:(lia) HcR Hct HR0).
  apply rev_involutive.
Qed.

(** ** Reading the header back *)

Lemma to_double_exact (z : Z) : Z.abs z < 2 ^ 53 -> to_double z = z.
Proof.
  intros H. unfold to_double.
  destruct (Z.leb_spec (Z.log2 (Z.abs z) - 52) 0) as [_|Hk]; [reflexivity|].
  exfalso. destruct (Z.eq_dec (Z.abs z) 0) as [E|E].
  - rewrite E in Hk. cbn in Hk. lia.
  - assert (Hl : Z.log2 (Z.abs z) < 53) by (apply Z.log2_lt_pow2; lia). lia.
Qed.

(** As long as the sum stays below 2^53 no rounding takes place, and the
    loop adds up the number that the bytes are the digits of. *)
Lemma exponent_loop_value (bytes : list Z) :
  forall (n i : nat) (acc : Z),
    (S i + n <= length bytes)%nat ->
    Forall byte (take n (drop (S i) bytes)) ->
    0 <= acc ->
    acc + 0x100 ^ Z.of_nat i * value 0x100 (take n (drop (S i) bytes)) < 2 ^ 53 ->
    exponent_loop n bytes i (Some acc)
    = Some (acc + 0x100 ^ Z.of_nat i * value 0x100 (take n (drop (S i) bytes))).
Proof.
  induction n as [|n IH]; intros i acc Hlen Hb Hacc Hlt.
  - cbn [exponent_loop]. rewrite take_0. change (value 0x100 []) with 0.
    f_equal. lia.
  - cbn [exponent_loop].
    destruct (lookup_lt_is_Some_2 bytes (S i) ltac:(lia)) as [b Hbi].
    rewrite Hbi. cbn [num_mul num_add num_round option_map].
    rewrite (drop_S _ _ _ Hbi) in Hb, Hlt |- *.
    rewrite firstn_cons in Hb, Hlt |- *. rewrite value_cons in Hlt |- *.
    inversion Hb as [|? ? Hb0 Hb']; subst.
    assert (Hp : 0 < 0x100 ^ Z.of_nat i) by (apply Z.pow_pos_nonneg; lia).
    assert (Hv : 0 <= value 0x100 (take n (drop (S (S i)) bytes)))
      by (apply value_nonneg; [lia | exact Hb']).
    unfold byte in Hb0.
    assert (Hprod : 0 <= b * 0x100 ^ Z.of_nat i) by nia.
    assert (Hrest : 0 <= 0x100 ^ Z.of_nat i * (0x100 * value 0x100 (take n (drop (S (S i)) bytes))))
      by nia.
    rewrite (to_double_exact (b * 0x100 ^ Z.of_nat i)) by (rewrite Z.abs_eq; nia).
    rewrite (to_double_exact (acc + b * 0x100 ^ Z.of_nat i)) by (rewrite Z.abs_eq; nia).
    assert (Hpow : 0x100 ^ Z.of_nat (S i) = 0x100 * 0x100 ^ Z.of_nat i)
      by (rewrite Nat2Z.inj_succ, Z.pow_succ_r by lia; reflexivity).
    rewrite IH; [f_equal; rewrite Hpow; ring | lia | exact Hb' | lia |].
    rewrite Hpow. nia.
Qed.

Lemma read_header_spec (sg : sign) (ex : Z) (tail : list Z) :
  Z.abs ex <= 9000000000000000 ->
  exists fb eb,
    fst (header sg (Some ex)) = fb :: eb
    /\ Forall byte (fb :: eb)
    /\ Z.of_nat (length (fb :: eb)) = snd (header sg (Some ex)) + 1
    /\ read_header (fb :: eb ++ tail) fb = (Some ex, length (fb :: eb))
    /\ sign_of fb = (if negative sg then Negative else Positive).
Proof.
  intros Hex. rewrite header_first_byte. cbn zeta. unfold MAX_SMALL_EXPONENT.
  set (x := Z.abs ex).
  assert (Hsign : forall b, 0 <= b < 64 ->
    sign_of (first_byte (negative sg) (ex <? 0) b)
    = (if negative sg then Negative else Positive)).
  { intros b Hb. unfold sign_of.
    destruct (first_byte_fields (negative sg) (ex <? 0) b Hb)
      as (_ & _ & _ & _ & -> & _). rewrite negb_involutive. reflexivity. }
  assert (Hneg : forall b v, 0 <= b < 64 -> v = x ->
    (if negb (js_and (first_byte (negative sg) (ex <? 0) b) NEG_EXPONENT_SIGN_BIT =? 0)
     then num_neg (Some v) else Some v) = Some ex).
  { intros b v Hb ->.
    destruct (first_byte_fields (negative sg) (ex <? 0) b Hb)
      as (_ & _ & _ & _ & _ & -> & _). rewrite negb_involutive.
    unfold x. destruct (Z.ltb_spec ex 0); cbn [num_neg]; f_equal; lia. }
  destruct (Z.gtb_spec x 30) as [Hbig|Hsmall].
  - assert (Hx : 0 < x < 2 ^ 56) by (change (2 ^ 56) with 72057594037927936; lia).
    pose proof (exponentByteCount_range x) as Hc.
    pose proof (exponent_bytes_count x Hx) as Hlen.
    destruct (exponent_bytes_value (bits x) x) as [Hval Hbytes].
    { split; [lia | apply bits_spec; lia]. }
    set (cnt := exponentByteCount_of x) in *.
    set (eb := exponent_bytes (bits x) x) in *.
    destruct (first_byte_fields (negative sg) (ex <? 0) cnt ltac:(lia))
      as (Hfb & _ & _ & _ & _ & _ & Hlow).
    exists (first_byte (negative sg) (ex <? 0) cnt), eb. cbn [fst snd].
    split; [reflexivity|]. split; [constructor; assumption|].
    split; [cbn [length]; lia|]. split; [|apply Hsign; lia].
    unfold read_header. rewrite Hlow.
    destruct (Z.gtb_spec cnt EXPONENT_OFFSET) as [Hgt|_]; [unfold EXPONENT_OFFSET in Hgt; lia|].
    destruct (Z.eqb_spec cnt 0) as [H0|_]; [lia|]. cbn [negb].
    assert (Hslice :
      take (Z.to_nat cnt)
        (drop 1 (first_byte (negative sg) (ex <? 0) cnt :: eb ++ tail)) = eb).
    { cbn [drop]. replace (Z.to_nat cnt) with (length eb) by lia.
      rewrite drop_0. apply take_app_length. }
    rewrite exponent_loop_value; rewrite ?Hslice, ?Hval.
    2:{ cbn [length]. rewrite length_app. lia. }
    2:{ exact Hbytes. }
    2:{ lia. }
    2:{ change (0x100 ^ Z.of_nat 0) with 1.
        change (2 ^ 53) with 9007199254740992. unfold x. lia. }
    change (0x100 ^ Z.of_nat 0) with 1.
    rewrite (Hneg cnt (0 + 1 * x)) by lia.
    f_equal. cbn [length]. lia.
  - destruct (first_byte_fields (negative sg) (ex <? 0) (if x =? 0 then 0 else x + 7))
      as (Hfb & _ & _ & _ & _ & _ & Hlow).
    { destruct (Z.eqb_spec x 0); unfold x in *; lia. }
    exists (first_byte (negative sg) (ex <? 0) (if x =? 0 then 0 else x + 7)), [].
    cbn [fst snd]. split; [reflexivity|].
    split; [constructor; [assumption | constructor]|].
    split; [reflexivity|].
    split; [|apply Hsign; destruct (Z.eqb_spec x 0); unfold x in *; lia].
    unfold read_header. rewrite Hlow. unfold EXPONENT_OFFSET.
    destruct (Z.eqb_spec x 0) as [H0|Hn0].
    + change (0 >? 7) with false. change (negb (0 =? 0)) with false. cbn iota.
      rewrite (Hneg 0 0) by lia. reflexivity.
    + destruct (Z.gtb_spec (x + 7) 7) as [_|Hle]; [|unfold x in *; lia].
      replace (x + 7 - 7) with x by lia.
      rewrite (Hneg (x + 7) x) by (unfold x in *; lia). reflexivity.
Qed.

(** ** The round trip of the Decimals whose runs are short *)

Lemma finish_in_range (Decimal : Decimal_ctor) (sg : sign) (ex : Z)
    (ds : option (list Z)) :
  minE Decimal <= ex <= maxE Decimal ->
  finish Decimal sg (Some ex) ds = Returns (Dec sg (Some ex) ds).
Proof.
  intros H. unfold finish. cbn [num_gt num_lt].
  destruct (Z.gtb_spec ex (maxE Decimal)); [lia|].
  destruct (Z.ltb_spec ex (minE Decimal)); [lia|]. reflexivity.
Qed.

Lemma small_integer_round_trip (Decimal : Decimal_ctor) (neg : bool) (n : Z)
    (fuel : nat) :
  0 <= n <= 50 ->
  fromArrayBuffer fuel Decimal (ArrayBuffer (toArrayBuffer (small_integer neg n)))
  = finish Decimal (if neg then Negative else Positive)
      (Some (if n <? 10 then 0 else 1)) (Some [n]).
Proof.
  intros Hn. destruct (range_nat n 50 Hn) as (k & -> & Hk).
  destruct neg;
    do 51 (destruct k as [|k]; [vm_compute; reflexivity|]); lia.
Qed.

Lemma fromArrayBuffer_two_or_more (fuel : nat) (Decimal : Decimal_ctor)
    (fb : Z) (rest : list Z) :
  rest <> [] ->
  unpaired (mantissa_tokens (fb :: rest)) = false ->
  (length (mantissa_tokens (fb :: rest)) <= fuel)%nat ->
  fromArrayBuffer fuel Decimal (ArrayBuffer (fb :: rest))
  = finish Decimal (sign_of fb) (fst (read_header (fb :: rest) fb))
      (Some (expand (mantissa_tokens (fb :: rest)))).
Proof.
  destruct rest as [|b rest]; [contradiction|]. intros _.
  apply fromArrayBuffer_long.
Qed.

Lemma mantissa_tokens_bytes (fb : Z) (eb mant : list Z) (ex : option Z) :
  mant <> [] ->
  read_header (fb :: eb ++ mant) fb = (ex, length (fb :: eb)) ->
  mantissa_tokens (fb :: eb ++ mant)
  = rev (fold_left (fun a b => convert b 0x100 a RADIX 0) (rev mant) [0]).
Proof.
  intros Hne Hh. destruct (eb ++ mant) as [|b rest] eqn:E.
  { destruct eb; [cbn in E; contradiction | discriminate]. }
  rewrite mantissa_tokens_long, Hh. cbn [snd]. unfold digitsInReverse_of.
  rewrite <- E.
  change (fb :: eb ++ mant) with ((fb :: eb) ++ mant). rewrite drop_app_length.
  reflexivity.
Qed.

(** For every Decimal of the host none of whose runs of equal limbs
    reaches 10000002, decoding the encoding gives the Decimal back. *)
Theorem round_trip (Decimal : Decimal_ctor) (x : decimal) :
  host_decimal Decimal x ->
  (forall ds, d x = Some ds -> short_runs ds) ->
  exists fuel0, forall fuel, (fuel0 <= fuel)%nat ->
    fromArrayBuffer fuel Decimal (ArrayBuffer (toArrayBuffer x)) = Returns x.
Proof.
  destruct x as [sg [ex|] [ds|]]; unfold host_decimal; cbn [d e s];
    intros Hhost Hshort; try contradiction.
  2:{ exists 0%nat. intros fuel _. destruct sg; reflexivity. }
  destruct Hhost as (Hsg & Hrange & Habs & Hlimbs & Hhead).
  specialize (Hshort ds eq_refl).
  assert (Hsign : (if negative sg then Negative else Positive) = sg)
    by (destruct sg; [reflexivity | reflexivity | contradiction]).
  destruct (isSmallInteger ds (Some ex)) eqn:Esmall.
  - (* one byte *)
    exists 0%nat. intros fuel _.
    destruct ds as [|n [|? ?]]; try discriminate. cbn [isSmallInteger] in Esmall.
    apply andb_prop in Esmall as [Hn He]. apply Z.leb_le in Hn. apply Z.eqb_eq in He.
    inversion Hlimbs as [|? ? Hl0 _]; subst. unfold limb in Hl0.
    unfold MAX_SMALL_INTEGER in Hn.
    pose proof (small_integer_round_trip Decimal (negative sg) n fuel ltac:(lia)) as H.
    unfold small_integer in H. rewrite Hsign in H. rewrite H.
    apply finish_in_range. exact Hrange.
  - (* the general case *)
    destruct (rle_expand (length ds) ds ltac:(lia) Hlimbs) as (Hexp & Hunp & Hdig).
    specialize (Hdig Hshort).
    assert (Hhd : rle ds = [0] \/ exists t ts, rle ds = t :: ts /\ t <> 0).
    { destruct Hhead as [->|(d0 & rest & -> & Hd0)]; [left; reflexivity|].
      right. apply rle_head, Hd0. }
    destruct (mantissa_round_trip (rle ds) Hdig Hhd) as (Hne & Hbytes & Hback).
    set (mant := fold_left (fun a t => accumulate t RADIX a 0x100) (rle ds) [0]) in *.
    destruct (read_header_spec sg ex mant Habs)
      as (fb & eb & Hhb & Hhbytes & Hlen & Hread & Hsg').
    assert (Hout : toArrayBuffer (Dec sg (Some ex) (Some ds)) = fb :: eb ++ mant).
    { rewrite toArrayBuffer_feed by exact Esmall.
      rewrite Hhb. replace (Z.to_nat (snd (header sg (Some ex)) + 1))
        with (length (fb :: eb)) by lia.
      rewrite (feed_prefix (fb :: eb) (rle ds) [0]) by discriminate. fold mant.
      apply toUint8Array_bytes.
      change (Forall byte ((fb :: eb) ++ mant)).
      apply Forall_app. split; assumption. }
    pose proof (mantissa_tokens_bytes fb eb mant (Some ex) Hne Hread) as Htok.
    rewrite Hback in Htok.
    exists (length (rle ds)). intros fuel Hfuel. rewrite Hout.
    rewrite fromArrayBuffer_two_or_more; rewrite ?Htok; try assumption.
    + rewrite Hread, Hsg', Hsign, Hexp. cbn [fst].
      apply finish_in_range. exact Hrange.
    + destruct eb; [exact Hne | discriminate].
Qed.

(** Encoding what was decoded then gives the same bytes again. *)
Corollary round_trip_bytes (Decimal : Decimal_ctor) (x : decimal) :
  host_decimal Decimal x ->
  (forall ds, d x = Some ds -> short_runs ds) ->
  exists fuel0, forall fuel, (fuel0 <= fuel)%nat ->
    exists y,
      fromArrayBuffer fuel Decimal (ArrayBuffer (toArrayBuffer x)) = Returns y
      /\ toArrayBuffer y = toArrayBuffer x.
Proof.
  intros Hh Hs. destruct (round_trip Decimal x Hh Hs) as [fuel0 H].
  exists fuel0. intros fuel Hf. exists x. split; [apply H, Hf | reflexivity].
Qed.


(** ** One byte or more *)

Lemma mantissa_loop_length (fuel : nat) (digits : list Z) (i : nat)
    (bytes : list Z) (startIndex : nat) :
  (length bytes <= length (mantissa_loop fuel digits i bytes startIndex))%nat.
Proof.
  revert i bytes. induction fuel as [|fuel IH]; intros i bytes; cbn [mantissa_loop].
  - lia.
  - destruct (digits !! i); [|lia].
    destruct (_ && _).
    + etransitivity; [|apply IH]. etransitivity; apply convert_length.
    + etransitivity; [|apply IH]. apply convert_length.
Qed.

Lemma header_nonempty (sg : sign) (ex : option Z) : fst (header sg ex) <> [].
Proof.
  unfold header. destruct ex as [ex|]; [|discriminate].
  destruct (ex <? 0); destruct (_ >? _); discriminate.
Qed.

Lemma toArrayBuffer_general_length (sg : sign) (ex : option Z) (ds : list Z) :
  isSmallInteger ds ex = false ->
  (length (fst (header sg ex)) + 1 <= length (toArrayBuffer (Dec sg ex (Some ds))))%nat.
Proof.
  intros H. rewrite toArrayBuffer_general by exact H.
  unfold toUint8Array. rewrite length_map.
  etransitivity; [|apply mantissa_loop_length]. rewrite length_app. cbn [length]. lia.
Qed.

(** The encoding has exactly one byte for a special value and for a small
    integer, and two bytes or more for every other Decimal: the test
    [bytes.length === 1] of the decoder tells the two forms apart. *)
Theorem one_byte_exactly_for_small_and_special (x : decimal) :
  length (toArrayBuffer x) = 1%nat
  <-> match d x with
      | None => True
      | Some ds => isSmallInteger ds (e x) = true
      end.
Proof.
  destruct x as [sg ex [ds|]]; cbn [d e].
  - destruct (isSmallInteger ds ex) eqn:E.
    + split; [reflexivity|]. intros _. unfold toArrayBuffer. cbn [d e s].
      rewrite E. reflexivity.
    + split; [|discriminate]. intros H.
      pose proof (toArrayBuffer_general_length sg ex ds E) as Hl.
      pose proof (header_nonempty sg ex) as Hne.
      destruct (fst (header sg ex)); [contradiction|]. cbn [length] in Hl. lia.
  - split; [intros _; exact I | reflexivity].
Qed.

(** ** When the decoder returns *)

(** More fuel does not change what the loop has returned. *)
Lemma materialize_more (fuel k : nat) (R : list Z) (i : Z)
    (digits res : list (option Z)) :
  materialize fuel R i digits = Some res ->
  materialize (fuel + k) R i digits = Some res.
Proof.
  revert i digits. induction fuel as [|fuel IH]; intros i digits H.
  - cbn [materialize] in H. destruct (i =? 0) eqn:E; [|discriminate].
    destruct (0 + k)%nat; cbn [materialize]; rewrite E; exact H.
  - cbn [Nat.add materialize] in *. destruct (i =? 0); [exact H|].
    destruct (same_limb _ ZEROS_SIGNIFIER); [apply IH, H|].
    destruct (same_limb _ NINES_SIGNIFIER); apply IH, H.
Qed.

(** Of the buffers with 2^24 limbs at most, [fromArrayBuffer] returns an
    object exactly for those that are not empty and whose digits do not
    end in a signifier without its count; on the others of two bytes or
    more it has not returned whatever the fuel.  What it returns for two
    bytes or more has the sign of bit 7 and, unless the exponent is out
    of range, the exponent that the code has added up from the header (a
    double, see [exponent_loop]) and the expansion of the digits as
    limbs. *)
Theorem decode_returns_iff (Decimal : Decimal_ctor) (bytes : list Z)
    (Hfits : fits_array bytes) :
  ((exists fuel x, fromArrayBuffer fuel Decimal (ArrayBuffer bytes) = Returns x)
   <-> bytes <> [] /\ unpaired (mantissa_tokens bytes) = false)
  /\ (unpaired (mantissa_tokens bytes) = true ->
      forall fuel, fromArrayBuffer fuel Decimal (ArrayBuffer bytes) = Running)
  /\ (forall fuel x firstByte b rest,
        bytes = firstByte :: b :: rest ->
        fromArrayBuffer fuel Decimal (ArrayBuffer bytes) = Returns x ->
        x = Dec (sign_of firstByte) None None
        \/ x = Dec (sign_of firstByte) (fst (read_header bytes firstByte))
                 (Some (expand (mantissa_tokens bytes)))).
Proof.
  assert (Hstall : unpaired (mantissa_tokens bytes) = true ->
    forall fuel, fromArrayBuffer fuel Decimal (ArrayBuffer bytes) = Running).
  { intros Hu fuel. destruct bytes as [|fb [|b rest]]; try discriminate.
    apply fromArrayBuffer_stalls, Hu. }
  split; [|split; [exact Hstall|]].
  - split.
    + intros (fuel & x & H). split.
      * intros ->. discriminate.
      * destruct (unpaired (mantissa_tokens bytes)) eqn:Hu; [|reflexivity].
        rewrite (Hstall eq_refl fuel) in H. discriminate.
    + intros [Hne Hu]. destruct bytes as [|fb rest]; [contradiction|].
      destruct (proj2 (proj2 (proj2 (decode_outcomes Decimal))) fb rest Hu)
        as (fuel0 & x & H).
      exists fuel0, x. apply H. lia.
  - intros fuel x fb b rest -> H.
    rewrite fromArrayBuffer_long_unfold in H. cbn zeta in H.
    set (bytes := fb :: b :: rest) in *.
    set (R := digitsInReverse_of bytes (snd (read_header bytes fb))) in *.
    destruct (materialize fuel R (Z.of_nat (length R)) []) as [digits|] eqn:Em;
      [|discriminate].
    pose proof (materialize_tokens R fuel (length R) [] ltac:(lia)) as Hm0.
    pose proof (materialize_tokens R (fuel + length R) (length R) [] ltac:(lia)) as Hm.
    rewrite firstn_all in Hm0, Hm.
    destruct (unpaired (rev R)) eqn:Hu; [congruence|]. clear Hm0.
    pose proof (materialize_more fuel (length R) R (Z.of_nat (length R)) [] digits Em) as Em'.
    rewrite (Hm ltac:(lia)) in Em'. injection Em' as <-. cbn [app] in H.
    rewrite numbers_map_Some in H.
    unfold mantissa_tokens, bytes. fold bytes. fold R.
    unfold finish in H. destruct (_ || _); injection H as <-; auto.
Qed.

(** ** The exponent and the sign *)

Lemma small_integer_header (neg : bool) (n : Z) :
  0 <= n <= 50 ->
  exists fb,
    toArrayBuffer (small_integer neg n) = [fb]
    /\ reconstructed_exponent [fb] = Some (if n <? 10 then 0 else 1)
    /\ sign_of fb = (if neg then Negative else Positive).
Proof.
  intros Hn.
  exists ((if neg then 0x80 else 0) + (if n <=? 25 then n + 38 else n + 12 + 0x40)).
  destruct (range_nat n 50 Hn) as (k & -> & Hk).
  destruct neg;
    do 51 (destruct k as [|k];
           [split; [|split]; vm_compute; reflexivity|]); lia.
Qed.

(** Whatever its limbs, a finite Decimal of the host is encoded with a
    first byte and exponent bytes from which the decoder reads its
    exponent and its sign back: runs of any length do not touch them. *)
Theorem exponent_and_sign_are_restored (Decimal : Decimal_ctor) (sg : sign)
    (ex : Z) (ds : list Z)
    (Hhost : finite_decimal Decimal sg ex ds) :
  exists firstByte rest,
    toArrayBuffer (Dec sg (Some ex) (Some ds)) = firstByte :: rest
    /\ reconstructed_exponent (firstByte :: rest) = Some ex
    /\ sign_of firstByte = sg.
Proof.
  destruct Hhost as (Hsg & Hrange & Habs & Hlimbs & Hhead).
  assert (Hsign : (if negative sg then Negative else Positive) = sg)
    by (destruct sg; [reflexivity | reflexivity | contradiction]).
  destruct (isSmallInteger ds (Some ex)) eqn:Esmall.
  - destruct ds as [|n [|? ?]]; try discriminate. cbn [isSmallInteger] in Esmall.
    apply andb_prop in Esmall as [Hn He]. apply Z.leb_le in Hn. apply Z.eqb_eq in He.
    inversion Hlimbs as [|? ? Hl0 _]; subst. unfold limb in Hl0.
    unfold MAX_SMALL_INTEGER in Hn.
    destruct (small_integer_header (negative sg) n ltac:(lia)) as (fb & Hb & Hx & Hs).
    unfold small_integer in Hb. rewrite Hsign in Hb, Hs.
    exists fb, []. repeat split; assumption.
  - destruct (read_header_spec sg ex [] Habs) as (fb & eb & Hhb & Hbytes & Hlen & _ & Hs).
    destruct (toArrayBuffer_header sg (Some ex) ds Esmall) as [tail Hout].
    { rewrite Hhb. exact Hbytes. }
    { rewrite Hhb. exact Hlen. }
    pose proof (toArrayBuffer_general_length sg (Some ex) ds Esmall) as Hl.
    rewrite Hout, Hhb, length_app in Hl.
    destruct (read_header_spec sg ex tail Habs) as (fb' & eb' & Hhb' & _ & _ & Hread & _).
    rewrite Hhb in Hhb'. injection Hhb' as <- <-.
    exists fb, (eb ++ tail). rewrite Hout, Hhb. split; [reflexivity|].
    split; [|rewrite Hs; exact Hsign].
    destruct (eb ++ tail) as [|b r] eqn:E.
    { apply (f_equal length) in E. rewrite length_app in E. cbn [length] in E. lia. }
    cbn [reconstructed_exponent]. rewrite Hread. reflexivity.
Qed.

(** ** The substitution of the runs *)

Lemma emit_length (x : Z) (m : nat) : (length (emit (x, m)) <= m)%nat.
Proof.
  unfold emit. destruct (run_value x && (3 <=? m)%nat) eqn:E.
  - apply andb_prop in E as [_ E]. apply Nat.leb_le in E. cbn [length]. lia.
  - rewrite length_replicate. lia.
Qed.

(** The compression never makes the list longer. *)
Lemma rle_length (ds : list Z) : (length (rle ds) <= length ds)%nat.
Proof.
  assert (H : forall (n : nat) (l : list Z),
    (length l <= n)%nat -> (length (rle l) <= length l)%nat).
  { induction n as [|n IH]; intros l Hle.
    - destruct l; [cbn; lia | cbn in Hle; lia].
    - destruct l as [|x l]; [cbn; lia|].
      rewrite rle_cons, length_app.
      pose proof (emit_length x (S (run_length x l))) as He.
      pose proof (run_length_le x l) as Hk.
      specialize (IH (drop (run_length x l) l)).
      rewrite length_drop in IH. cbn [length] in Hle |- *.
      specialize (IH ltac:(lia)). lia. }
  apply (H (length ds)). lia.
Qed.

(** The loop of the encoder over a mantissa is the repeat compression of
    the specification: what it leaves in [bytes] is what [convert] makes
    of them when it is given, one by one, the maximal runs of equal limbs
    in their order, a run of more than two zeros or nines as its
    signifier followed by its length and every other run limb by limb.
    That list is no longer than the mantissa, and the loop of the decoder,
    given it as digits, makes the mantissa again, whatever the length of
    a run. *)
Theorem substitution_is_undone (ds bytes : list Z) (startIndex : nat)
    (Hlimbs : Forall limb ds) :
  let tokens :=
    flat_map
      (fun g : Z * nat =>
         if ((fst g =? 0) || (fst g =? 9999999)) && (3 <=? snd g)%nat
         then [(if fst g =? 0 then ZEROS_SIGNIFIER else NINES_SIGNIFIER);
               Z.of_nat (snd g)]
         else replicate (snd g) (fst g))
      (groups ds) in
  mantissa_loop (length ds) ds 0 bytes startIndex
  = fold_left (fun bytes t => convert t RADIX bytes 0x100 startIndex) tokens bytes
  /\ (length tokens <= length ds)%nat
  /\ forall fuel, (length tokens <= fuel)%nat ->
       materialize fuel (rev tokens) (Z.of_nat (length tokens)) []
       = Some (map Some ds).
Proof.
  assert (Ht : flat_map
      (fun g : Z * nat =>
         if ((fst g =? 0) || (fst g =? 9999999)) && (3 <=? snd g)%nat
         then [(if fst g =? 0 then ZEROS_SIGNIFIER else NINES_SIGNIFIER);
               Z.of_nat (snd g)]
         else replicate (snd g) (fst g))
      (groups ds) = rle ds).
  { unfold rle. apply flat_map_ext. intros [v n]. reflexivity. }
  cbv zeta. rewrite Ht. split; [|split].
  - rewrite mantissa_loop_rle by lia. reflexivity.
  - apply rle_length.
  - intros fuel Hf.
    destruct (rle_expand (length ds) ds ltac:(lia) Hlimbs) as (Hexp & Hunp & _).
    pose proof (materialize_tokens (rev (rle ds)) fuel (length (rle ds)) []) as Hm.
    rewrite length_rev in Hm. specialize (Hm ltac:(lia)).
    assert (Hr : rev (take (length (rle ds)) (rev (rle ds))) = rle ds).
    { rewrite <- (length_rev (rle ds)), firstn_all. apply rev_involutive. }
    rewrite Hr, Hunp, Hexp in Hm. exact (Hm Hf).
Qed.

(** ** Base conversion *)

(** [convert] on an array that holds, from index [ri] on, the digits of a
    number in base [resBase] (least significant first, in range, no zero
    at the top): the elements below [ri] stay as they are, and the
    elements from [ri] on become the digits of that number times
    [valBase] plus [val], again in range and with no zero at the top.
    The bounds keep every intermediate value an exact double. *)
Theorem convert_multiplies_and_adds (val valBase resBase : Z) (pre acc : list Z)
    (Hres : 2 <= resBase) (Hbase : 1 <= valBase <= 2 ^ 31)
    (Hexact : resBase * valBase <= 2 ^ 53)
    (Hval : 0 <= val < valBase) (Hacc : canonical resBase acc) :
  exists out,
    convert val valBase (pre ++ acc) resBase (length pre) = pre ++ out
    /\ canonical resBase out
    /\ value resBase out = value resBase acc * valBase + val.
Proof.
  exists (accumulate val valBase acc resBase).
  destruct (accumulate_spec resBase valBase val acc Hres Hbase Hval Hacc) as [Hv Hc].
  split; [|split; assumption].
  apply convert_prefix. apply (canonical_nonempty _ _ Hacc).
Qed.

(** ** The bytes of the general case *)

(** The encoding of a finite Decimal with short runs that is no small
    integer: the header bytes, then the bytes of the number whose digits
    in base RADIX are the compressed limbs. *)
Lemma general_encoding (Decimal : Decimal_ctor) (sg : sign) (ex : Z) (ds : list Z) :
  finite_decimal Decimal sg ex ds -> short_runs ds ->
  isSmallInteger ds (Some ex) = false ->
  let mant := fold_left (fun a t => accumulate t RADIX a 0x100) (rle ds) [0] in
  exists fb eb,
    (length eb <= 7)%nat
    /\ toArrayBuffer (Dec sg (Some ex) (Some ds)) = fb :: eb ++ mant
    /\ canonical 0x100 mant
    /\ value 0x100 mant = horner RADIX (rle ds)
    /\ digits_ok RADIX (rle ds).
Proof.
  intros (Hsg & Hrange & Habs & Hlimbs & Hhead) Hshort Esmall mant.
  destruct (rle_expand (length ds) ds ltac:(lia) Hlimbs) as (_ & _ & Hdig).
  specialize (Hdig Hshort).
  destruct RADIX_bounds as [HR2 HR].
  destruct (fold_accumulate_spec 0x100 RADIX ltac:(lia) HR (rle ds) [0] Hdig
              (canonical_zero 0x100 ltac:(lia))) as [Hc Hv].
  fold mant in Hc, Hv. cbn zeta in Hc, Hv.
  destruct (read_header_spec sg ex mant Habs)
    as (fb & eb & Hhb & Hhbytes & Hlen & _ & _).
  exists fb, eb. split; [|split; [|split; [exact Hc|split; [exact Hv | exact Hdig]]]].
  - rewrite header_first_byte in Hhb, Hlen. cbn zeta in Hhb, Hlen.
    pose proof (exponentByteCount_range (Z.abs ex)) as Hcnt.
    destruct (Z.abs ex >? MAX_SMALL_EXPONENT); cbn [fst snd] in Hhb, Hlen;
      cbn [length] in Hlen; lia.
  - rewrite toArrayBuffer_feed by exact Esmall.
    rewrite Hhb. replace (Z.to_nat (snd (header sg (Some ex)) + 1))
      with (length (fb :: eb)) by lia.
    rewrite (feed_prefix (fb :: eb) (rle ds) [0]) by discriminate. fold mant.
    apply toUint8Array_bytes.
    change (Forall byte ((fb :: eb) ++ mant)).
    apply Forall_app. split; [exact Hhbytes | exact (proj1 Hc)].
Qed.

(** ** The round trip *)

(** For every Decimal of the host none of whose runs of equal limbs
    reaches 10000002, decoding the encoding returns the Decimal itself:
    sign, exponent and limbs. *)
Theorem round_trip_of_short_runs (Decimal : Decimal_ctor) (x : decimal)
    (Hhost : host_decimal Decimal x)
    (Hshort : forall ds, d x = Some ds -> short_runs ds) :
  exists fuel0, forall fuel, (fuel0 <= fuel)%nat ->
    fromArrayBuffer fuel Decimal (ArrayBuffer (toArrayBuffer x)) = Returns x.
Proof. exact (round_trip Decimal x Hhost Hshort). Qed.

(** Two different Decimals of the host with short runs never have the
    same encoding. *)
Theorem different_decimals_different_bytes (Decimal : Decimal_ctor)
    (x y : decimal)
    (Hx : host_decimal Decimal x) (Hy : host_decimal Decimal y)
    (Hsx : forall ds, d x = Some ds -> short_runs ds)
    (Hsy : forall ds, d y = Some ds -> short_runs ds)
    (Hne : x <> y) :
  toArrayBuffer x <> toArrayBuffer y.
Proof.
  intros Heq. apply Hne.
  destruct (round_trip Decimal x Hx Hsx) as [fx Hfx].
  destruct (round_trip Decimal y Hy Hsy) as [fy Hfy].
  specialize (Hfx (fx + fy)%nat ltac:(lia)).
  specialize (Hfy (fx + fy)%nat ltac:(lia)).
  rewrite Heq, Hfy in Hfx. injection Hfx as ->. reflexivity.
Qed.

(** ** The size of an encoding *)

Lemma horner_bound (base : Z) (l : list Z) :
  0 < base -> digits_ok base l -> 0 <= horner base l < base ^ Z.of_nat (length l).
Proof.
  intros Hb Hd. unfold horner.
  assert (H : forall (k : nat) (acc : Z),
    0 <= acc < base ^ Z.of_nat k ->
    0 <= fold_left (fun a t => a * base + t) l acc
      < base ^ Z.of_nat (k + length l)).
  { induction Hd as [|x l Hx _ IH]; intros k acc Hacc.
    - cbn [fold_left length]. rewrite Nat.add_0_r. exact Hacc.
    - cbn [fold_left length].
      replace (k + S (length l))%nat with (S k + length l)%nat by lia.
      apply IH. rewrite Nat2Z.inj_succ, Z.pow_succ_r by lia. nia. }
  apply (H 0%nat 0). cbn. lia.
Qed.

Lemma value_lower (base : Z) (l : list Z) (top : Z) :
  0 < base -> digits_ok base l -> last l = Some top -> top <> 0 ->
  base ^ (Z.of_nat (length l) - 1) <= value base l.
Proof.
  intros Hb Hok. revert top. induction Hok as [|x l Hx Hok IH]; intros top Hl Hn.
  - discriminate.
  - rewrite value_cons. destruct l as [|y l'].
    + cbn in Hl. injection Hl as ->. cbn [length value fold_right].
      change (Z.of_nat 1 - 1) with 0. rewrite Z.pow_0_r. lia.
    + rewrite last_cons_cons in Hl. specialize (IH top Hl Hn).
      cbn [length] in *.
      replace (Z.of_nat (S (S (length l'))) - 1)
        with (Z.succ (Z.of_nat (S (length l')) - 1)) by lia.
      rewrite Z.pow_succ_r by lia. nia.
Qed.

Lemma canonical_length (base : Z) (l : list Z) (m : nat) :
  1 < base -> canonical base l -> (1 <= m)%nat ->
  value base l < base ^ Z.of_nat m -> (length l <= m)%nat.
Proof.
  intros Hb [Hok [->|(top & Hl & Hn)]] Hm Hv; [cbn; lia|].
  pose proof (value_lower base l top ltac:(lia) Hok Hl Hn) as Hlow.
  destruct (Nat.le_gt_cases (length l) m) as [|Hgt]; [assumption|exfalso].
  assert (base ^ Z.of_nat m <= base ^ (Z.of_nat (length l) - 1))
    by (apply Z.pow_le_mono_r; lia).
  lia.
Qed.

(** A finite Decimal of the host with short runs takes at most three
    bytes for each limb and eight bytes more: a first byte, up to seven
    exponent bytes, and a mantissa below 10000002 to the power of the
    number of limbs. *)
Theorem encoding_size (Decimal : Decimal_ctor) (sg : sign) (ex : Z) (ds : list Z)
    (Hhost : finite_decimal Decimal sg ex ds) (Hshort : short_runs ds) :
  (length (toArrayBuffer (Dec sg (Some ex) (Some ds))) <= 8 + 3 * length ds)%nat.
Proof.
  destruct (isSmallInteger ds (Some ex)) eqn:Esmall.
  - assert (H1 : length (toArrayBuffer (Dec sg (Some ex) (Some ds))) = 1%nat).
    { apply one_byte_exactly_for_small_and_special. exact Esmall. }
    lia.
  - destruct (general_encoding Decimal sg ex ds Hhost Hshort Esmall)
      as (fb & eb & Heb & Hout & Hc & Hv & Hdig). cbn zeta in *.
    rewrite Hout. cbn [length]. rewrite length_app.
    pose proof (rle_length ds) as Hrle.
    destruct Hhost as (_ & _ & _ & _ & Hhead).
    assert (Hds : (1 <= length (rle ds))%nat).
    { destruct Hhead as [->|(d0 & rest & -> & Hd0)]; [cbn; lia|].
      destruct (rle_head d0 rest Hd0) as (t & ts & -> & _). cbn [length]. lia. }
    pose proof (horner_bound RADIX (rle ds) ltac:(unfold RADIX, BASE; lia) Hdig) as Hh.
    set (mant := fold_left (fun a t => accumulate t RADIX a 0x100) (rle ds) [0]) in *.
    assert (Hm : (length mant <= 3 * length (rle ds))%nat).
    { apply (canonical_length 0x100); [lia | exact Hc | lia |].
      rewrite Hv. eapply Z.lt_le_trans; [apply Hh|].
      replace (Z.of_nat (3 * length (rle ds))) with (3 * Z.of_nat (length (rle ds))) by lia.
      rewrite Z.pow_mul_r by lia.
      apply Z.pow_le_mono_l. unfold RADIX, BASE. change (0x100 ^ 3) with 16777216. lia. }
    lia.
Qed.


(** ** The properties at the usage example *)

Lemma usage_example_finite :
  finite_decimal widest Positive 9 [123; 4567899; 5464545; 6456456; 5462132; 5346600].
Proof.
  unfold finite_decimal. split; [discriminate|]. split; [cbn; lia|].
  split; [cbn; lia|]. split.
  - repeat constructor; unfold BASE; lia.
  - right. eexists _, _. split; [reflexivity | lia].
Defined.

Lemma usage_example_short :
  short_runs [123; 4567899; 5464545; 6456456; 5462132; 5346600].
Proof. unfold short_runs. cbn. repeat constructor; cbn; unfold RADIX, BASE; lia. Defined.

Lemma round_trip_of_short_runs_witness :
  exists fuel0, forall fuel, (fuel0 <= fuel)%nat ->
    fromArrayBuffer fuel widest (ArrayBuffer (toArrayBuffer usage_example))
    = Returns usage_example.
Proof.
  apply (round_trip_of_short_runs widest usage_example).
  - exact usage_example_finite.
  - intros ds [= <-]. exact usage_example_short.
Defined.

Lemma encoding_size_witness :
  (length (toArrayBuffer usage_example) <= 8 + 3 * 6)%nat.
Proof.
  exact (encoding_size widest Positive 9 _ usage_example_finite usage_example_short).
Defined.

Lemma different_decimals_different_bytes_witness :
  toArrayBuffer usage_example
  <> toArrayBuffer (Dec Negative (Some 9)
                      (Some [123; 4567899; 5464545; 6456456; 5462132; 5346600])).
Proof.
  apply (different_decimals_different_bytes widest).
  - exact usage_example_finite.
  - destruct usage_example_finite as (_ & H). split; [discriminate | exact H].
  - intros ds [= <-]. exact usage_example_short.
  - intros ds [= <-]. exact usage_example_short.
  - discriminate.
Defined.

Lemma convert_multiplies_and_adds_witness :
  exists out,
    convert 5 10 ([7] ++ [3; 1]) 16 (length [7]) = [7] ++ out
    /\ canonical 16 out
    /\ value 16 out = value 16 [3; 1] * 10 + 5.
Proof.
  apply (convert_multiplies_and_adds 5 10 16 [7] [3; 1]).
  - lia.
  - change (2 ^ 31) with 2147483648. lia.
  - change (2 ^ 53) with 9007199254740992. lia.
  - lia.
  - split; [repeat constructor; lia|]. right. exists 1. split; [reflexivity | lia].
Defined.

Lemma exponent_and_sign_are_restored_witness :
  exists firstByte rest,
    toArrayBuffer (Dec Negative (Some (-1234)) (Some [5; 0; 0; 0; 0; 7]))
    = firstByte :: rest
    /\ reconstructed_exponent (firstByte :: rest) = Some (-1234)
    /\ sign_of firstByte = Negative.
Proof.
  apply (exponent_and_sign_are_restored widest Negative (-1234) [5; 0; 0; 0; 0; 7]).
  unfold finite_decimal. split; [discriminate|]. split; [cbn; lia|].
  split; [cbn; lia|]. split.
  - repeat constructor; unfold BASE; lia.
  - right. eexists _, _. split; [reflexivity | lia].
Defined.

Lemma substitution_is_undone_witness :
  mantissa_loop 6 [5; 0; 0; 0; 0; 7] 0 [0; 0] 1
  = fold_left (fun bytes t => convert t RADIX bytes 0x100 1)
      [5; ZEROS_SIGNIFIER; 4; 7] [0; 0]
  /\ (4 <= 6)%nat
  /\ forall fuel, (4 <= fuel)%nat ->
       materialize fuel [7; 4; ZEROS_SIGNIFIER; 5] 4 []
       = Some (map Some [5; 0; 0; 0; 0; 7]).
Proof.
  apply (substitution_is_undone [5; 0; 0; 0; 0; 7] [0; 0] 1).
  repeat constructor; unfold BASE; lia.
Defined.

Lemma decode_returns_iff_witness :
  let bytes := toArrayBuffer usage_example in
  ((exists fuel x, fromArrayBuffer fuel widest (ArrayBuffer bytes) = Returns x)
   <-> bytes <> [] /\ unpaired (mantissa_tokens bytes) = false)
  /\ (unpaired (mantissa_tokens bytes) = true ->
      forall fuel, fromArrayBuffer fuel widest (ArrayBuffer bytes) = Running)
  /\ (forall fuel x firstByte b rest,
        bytes = firstByte :: b :: rest ->
        fromArrayBuffer fuel widest (ArrayBuffer bytes) = Returns x ->
        x = Dec (sign_of firstByte) None None
        \/ x = Dec (sign_of firstByte) (fst (read_header bytes firstByte))
                 (Some (expand (mantissa_tokens bytes)))).
Proof.
  apply (decode_returns_iff widest (toArrayBuffer usage_example)).
  vm_compute. discriminate.
Defined.

End SerializeFacts.

Module EvaluateFacts.
Import Evaluate.

Section WithHost.
Context {host : Host}.

(** ** Blank expressions *)

Lemma forallb_rev {A} (f : A -> bool) (l : list A) :
  forallb f (rev l) = forallb f l.
Proof.
  induction l as [|x l IH]; [reflexivity|].
  cbn [rev forallb]. rewrite forallb_app, IH. cbn [forallb].
  destruct (f x), (forallb f l); reflexivity.
Qed.

Lemma drop_spaces_nil (text : str) :
  drop_spaces text = [] <-> forallb is_space text = true.
Proof.
  induction text as [|c text IH]; [easy|].
  cbn [drop_spaces forallb]. destruct (is_space c); cbn [andb]; [exact IH|].
  split; discriminate.
Qed.

Lemma drop_spaces_suffix (text : str) :
  exists spaces, text = spaces ++ drop_spaces text /\ forallb is_space spaces = true.
Proof.
  induction text as [|c text (sp & IH & Hsp)]; [exists []; easy|].
  cbn [drop_spaces]. destruct (is_space c) eqn:E.
  - exists (c :: sp). cbn [app forallb]. rewrite E, Hsp. split; [congruence | reflexivity].
  - exists []. easy.
Qed.

Lemma trim_nil (text : str) : trim text = [] <-> forallb is_space text = true.
Proof.
  unfold trim. split.
  - intros H. apply (f_equal (@rev Z)) in H. rewrite rev_involutive in H.
    cbn [rev] in H. apply drop_spaces_nil in H. rewrite forallb_rev in H.
    destruct (drop_spaces_suffix text) as (sp & Heq & Hsp).
    rewrite Heq, forallb_app, Hsp, H. reflexivity.
  - intros H. apply drop_spaces_nil in H. rewrite H. reflexivity.
Qed.

Lemma install_error (entries : list (str * scope_value)) :
  forall (sc sc' : scope_object) (err : error),
    install entries sc = (sc', Some err) -> installation_error err.
Proof.
  induction entries as [|[id val] rest IH]; intros sc sc' err H; cbn [install] in H.
  - discriminate.
  - destruct (VALID_IDENTIFIER id).
    + destruct val as [f|r]; [eapply IH; eassumption|].
      destruct (construct r); [eapply IH; eassumption|].
      injection H as _ <-. exact I.
    + injection H as _ <-. exact I.
Qed.


Lemma evaluate_tokens_state (st : state) : snd (evaluate_tokens st) = st.
Proof. unfold evaluate_tokens. destruct (TOKENS st); reflexivity. Qed.

Lemma evaluate_tokens_error (st : state) (err : error) :
  fst (evaluate_tokens st) = Throws err -> evaluation_error err.
Proof.
  unfold evaluate_tokens. destruct (TOKENS st) as [toks|]; cbn [fst].
  - destruct (run _ _); intros H; try discriminate. injection H as <-. exact I.
  - intros H. injection H as <-. exact I.
Qed.

(** C10.  A string that is empty or holds white space only raises the
    invalid-expression error whatever the scope argument is, and leaves
    the state as it was: it is not tokenized and does not reach the
    re-binding branch.  No other string raises that error. *)
Theorem blank_expression (st : state) (text : str) (scope : jsvalue) :
  (forallb is_space text = true ->
   evaluator st (JString text) scope = (Throws InvalidExpression, st))
  /\ (fst (evaluator st (JString text) scope) = Throws InvalidExpression ->
      forallb is_space text = true).
Proof.
  split.
  - intros H. apply trim_nil in H. unfold evaluator. rewrite H. reflexivity.
  - intros H. apply trim_nil. unfold evaluator in H.
    destruct (trim text) as [|c t]; [reflexivity|]. exfalso.
    assert (Hlex : forall st1,
      fst (match tokenize (S (length (replace_power text))) (SCOPE st1)
                   (TOKENIZER st1) (replace_power text) [] [] with
           | Lexed toks parsed =>
               evaluate_tokens
                 (State (SCOPE st1) (TOKENIZER st1) (Some (toks ++ [TEnd])) (Some parsed))
           | Unknown c0 => (Throws (UnknownSymbol c0), with_TOKENS st1 None)
           | LexFuel => (Pending, with_TOKENS st1 (Some []))
           end) <> Throws InvalidExpression).
    { intros st1 Hc. destruct (tokenize _ _ _ _ _ _); try discriminate.
      apply evaluate_tokens_error in Hc. exact Hc. }
    destruct scope as [s|entries| |]; try discriminate.
    + destruct (install entries []) as [sc [err|]] eqn:E.
      * cbn [fst] in H. injection H as ->.
        apply install_error in E. exact E.
      * exact (Hlex _ H).
    + exact (Hlex _ H).
Qed.

(** ** Comparison and logical operators *)

(** C8.  A comparison operator gives the Decimal 1 when the comparison of
    its evaluated operands holds and 0 when it does not; [&&] gives its
    left operand when that is zero and its right operand otherwise, [||]
    the other way round; both evaluate their right-hand side before they
    look at the left one, so an error of the right-hand side is raised
    even when the left operand decides the result.  On a host where 2 is
    not greater than 3, 2 is not zero and 0 is zero, ["2 > 3"] is 0,
    ["2 && 3"] is 3 and ["0 || 4"] is 4. *)
Theorem logical_and_comparison_operators
    (Hgt : gt (ofLiteral (units "2")) (ofLiteral (units "3")) = false)
    (Hz2 : isZero (ofLiteral (units "2")) = false)
    (Hz0 : isZero (ofLiteral (units "0")) = true) :
  (forall ev op cmp l r index index',
      comparison op = Some cmp ->
      ev (op_lbp op) index = Done (VDec r) index' ->
      infix ev op (VDec l) index
      = Done (VDec (ofNumber (if cmp l r then 1 else 0))) index')
  /\ (forall ev l r index index',
        ev 20 index = Done r index' ->
        infix ev AndAnd (VDec l) index
        = Done (if isZero l then VDec l else r) index')
  /\ (forall ev l r index index',
        ev 10 index = Done r index' ->
        infix ev OrOr (VDec l) index
        = Done (if isZero l then r else VDec l) index')
  /\ (forall ev left index err,
        ev 20 index = Throw err -> infix ev AndAnd left index = Throw err)
  /\ (forall ev left index err,
        ev 10 index = Throw err -> infix ev OrOr left index = Throw err)
  /\ fst (evaluator initial (JString (units "2 > 3")) JUndefined)
     = Returns (copy (ofNumber 0))
  /\ fst (evaluator initial (JString (units "2 && 3")) JUndefined)
     = Returns (copy (ofLiteral (units "3")))
  /\ fst (evaluator initial (JString (units "0 || 4")) JUndefined)
     = Returns (copy (ofLiteral (units "4")))
  /\ fst (evaluator initial (JString (units "0 && (")) JUndefined)
     = Throws (Evaluation (Unexpected TEnd)).
Proof.
  repeat apply conj.
  - intros ev op cmp l r index index' Hc He.
    destruct op; try discriminate; injection Hc as <-;
      cbn [infix method_infix op_lbp] in *; rewrite He; reflexivity.
  - intros ev l r index index' He. cbn [infix]. rewrite He. reflexivity.
  - intros ev l r index index' He. cbn [infix]. rewrite He. reflexivity.
  - intros ev left index err He. cbn [infix]. rewrite He. reflexivity.
  - intros ev left index err He. cbn [infix]. rewrite He. reflexivity.
  - vm_compute in Hgt |- *. rewrite Hgt. reflexivity.
  - vm_compute in Hz2 |- *. rewrite Hz2. reflexivity.
  - vm_compute in Hz0 |- *. rewrite Hz0. reflexivity.
  - vm_compute. reflexivity.
Qed.

(** ** Errors and the state in store *)


(** ** Implicit multiplication *)

Lemma str_eqb_eq (a b : str) : str_eqb a b = true <-> a = b.
Proof.
  revert b. induction a as [|x a IH]; intros [|y b]; cbn [str_eqb]; try easy.
  rewrite andb_true_iff, Z.eqb_eq, IH. split; [intros [-> ->]; reflexivity|].
  intros H. injection H as -> ->. auto.
Qed.

Lemma scope_set_keys (sc : scope_object) (id : str) (v : slot) :
  valid_keys (map fst sc) -> VALID_IDENTIFIER id = true ->
  valid_keys (map fst (scope_set sc id v)).
Proof.
  unfold valid_keys. induction sc as [|[k w] sc IH]; intros Hsc Hid; cbn [scope_set map fst].
  - constructor; [exact Hid | constructor].
  - cbn [map fst] in Hsc. inversion Hsc; subst.
    destruct (str_eqb k id); cbn [map fst]; constructor; auto.
Qed.

Lemma install_valid (entries : list (str * scope_value)) :
  forall sc0 sc : scope_object,
    install entries sc0 = (sc, None) ->
    valid_keys (map fst sc0) -> valid_keys (map fst sc).
Proof.
  induction entries as [|[id val] rest IH]; intros sc0 sc H Hv; cbn [install] in H.
  - injection H as <-. exact Hv.
  - destruct (VALID_IDENTIFIER id) eqn:Hid; [|discriminate].
    destruct val as [f|r].
    + eapply IH; [exact H|]. apply scope_set_keys; assumption.
    + destruct (construct r); [|discriminate].
      eapply IH; [exact H|]. apply scope_set_keys; assumption.
Qed.

Lemma scope_get_key (sc : scope_object) (id : str) (v : slot) :
  scope_get sc id = Some v -> In id (map fst sc).
Proof.
  induction sc as [|[k w] sc IH]; cbn [scope_get map fst]; [discriminate|].
  destruct (str_eqb k id) eqn:E.
  - intros _. left. apply str_eqb_eq. exact E.
  - intros H. right. exact (IH H).
Qed.

Lemma insert_longest_In (id x : str) (l : list str) :
  In x (insert_longest id l) <-> x = id \/ In x l.
Proof.
  induction l as [|y l IH]; cbn [insert_longest].
  - cbn. intuition.
  - destruct (_ <=? _)%nat; cbn [In]; [intuition|]. rewrite IH. intuition.
Qed.

Lemma sort_longestFirst_In (x : str) (l : list str) :
  In x (sort_longestFirst l) <-> In x l.
Proof.
  induction l as [|y l IH]; cbn [sort_longestFirst fold_right]; [reflexivity|].
  fold (sort_longestFirst l). rewrite insert_longest_In, IH. cbn [In]. intuition.
Qed.

Lemma sort_longestFirst_valid (l : list str) :
  valid_keys l -> valid_keys (sort_longestFirst l).
Proof.
  unfold valid_keys. rewrite !List.Forall_forall. intros H x Hx.
  apply H, sort_longestFirst_In, Hx.
Qed.

(** No identifier matches where the text does not start one. *)
Lemma lex_identifier_none (ids : list str) (s : str) :
  valid_keys ids ->
  match s with [] => True | c :: _ => is_identifier_start c = false end ->
  lex_identifier ids s = None.
Proof.
  intros Hv Hs. induction Hv as [|id ids Hid _ IH]; [reflexivity|].
  cbn [lex_identifier]. destruct id as [|c id]; [discriminate|].
  cbn [strip_prefix]. destruct s as [|d s]; [exact IH|].
  destruct (Z.eqb_spec c d) as [->|]; [|exact IH].
  cbn [VALID_IDENTIFIER] in Hid. rewrite Hs in Hid. discriminate.
Qed.

(** An identifier of one code unit is matched when the text goes on with
    nothing that could continue an identifier. *)
Lemma lex_identifier_single (ids : list str) (c : Z) (rest : str) :
  valid_keys ids -> In [c] ids ->
  match rest with [] => True | d :: _ => is_identifier_part d = false end ->
  lex_identifier ids (c :: rest) = Some ([c], rest).
Proof.
  intros Hv Hin Hrest. induction Hv as [|id ids Hid _ IH]; [destruct Hin|].
  cbn [lex_identifier].
  destruct (strip_prefix id (c :: rest)) as [r|] eqn:E.
  - destruct id as [|c' id]; [discriminate|]. cbn [strip_prefix] in E.
    destruct (Z.eqb_spec c' c) as [->|]; [|discriminate].
    destruct id as [|c2 id].
    + cbn [strip_prefix] in E. injection E as <-. reflexivity.
    + exfalso. cbn [strip_prefix] in E. destruct rest as [|d rest]; [discriminate|].
      destruct (Z.eqb_spec c2 d) as [->|]; [|discriminate].
      cbn [VALID_IDENTIFIER forallb] in Hid. rewrite Hrest in Hid.
      rewrite andb_false_r in Hid. discriminate.
  - apply IH. destruct Hin as [->|Hin]; [|exact Hin].
    cbn [strip_prefix] in E. rewrite Z.eqb_refl in E. discriminate.
Qed.

(** One step of the tokenizer, case by case. *)

Lemma tokenize_number (fuel : nat) (sc : scope_object) (ids : list str)
    (s m r : str) (T : list token) (p : str) :
  lex_number s = Some (m, r) ->
  tokenize (S fuel) sc ids s T p
  = tokenize fuel sc ids r
      (if lookahead r then (T ++ [TNum (ofLiteral m)]) ++ [TOp Times]
       else T ++ [TNum (ofLiteral m)])
      (if lookahead r then (p ++ m) ++ [42] else p ++ m).
Proof.
  intros H. cbn [tokenize]. rewrite H. unfold implicit_times.
  destruct (lookahead r); reflexivity.
Qed.

Lemma tokenize_variable (fuel : nat) (sc : scope_object) (ids : list str)
    (s r : str) (c : Z) (m : str) (x : Decimal) (T : list token) (p : str) :
  lex_number s = None ->
  lex_identifier ids s = Some (c :: m, r) ->
  scope_get sc (c :: m) = Some (SDec x) ->
  tokenize (S fuel) sc ids s T p
  = tokenize fuel sc ids r
      (if lookahead r then (T ++ [TVar (c :: m)]) ++ [TOp Times]
       else T ++ [TVar (c :: m)])
      (if lookahead r then (p ++ c :: m) ++ [42] else p ++ c :: m).
Proof.
  intros Hn Hi Hs. cbn [tokenize]. rewrite Hn, Hi, Hs. unfold implicit_times.
  destruct (lookahead r); reflexivity.
Qed.

Lemma tokenize_rparen (fuel : nat) (sc : scope_object) (ids : list str)
    (r : str) (T : list token) (p : str) :
  valid_keys ids ->
  tokenize (S fuel) sc ids (41 :: r) T p
  = tokenize fuel sc ids r
      (if lookahead r then (T ++ [TOp RParen]) ++ [TOp Times]
       else T ++ [TOp RParen])
      (if lookahead r then (p ++ [41]) ++ [42] else p ++ [41]).
Proof.
  intros Hv. cbn [tokenize].
  change (lex_number (41 :: r)) with (@None (str * str)).
  rewrite (lex_identifier_none ids (41 :: r) Hv) by reflexivity.
  change (41 =? 41) with true. cbn iota. unfold implicit_times.
  destruct (lookahead r); reflexivity.
Qed.

Lemma tokenize_operator (fuel : nat) (sc : scope_object) (ids : list str)
    (s r : str) (op : operator) (T : list token) (p : str) :
  valid_keys ids ->
  lex_number s = None ->
  match s with
  | [] => False
  | c :: _ => is_identifier_start c = false /\ (c =? 41) = false
  end ->
  lex_operator s = Some (op, r) ->
  tokenize (S fuel) sc ids s T p
  = tokenize fuel sc ids r (T ++ [TOp op]) (p ++ symbol op).
Proof.
  intros Hv Hn Hs Ho. cbn [tokenize]. rewrite Hn.
  destruct s as [|c s]; [contradiction|]. destruct Hs as [Hs Hc].
  rewrite (lex_identifier_none ids (c :: s) Hv) by exact Hs.
  rewrite Hc, Ho. reflexivity.
Qed.

Lemma tokenize_end (fuel : nat) (sc : scope_object) (ids : list str)
    (T : list token) (p : str) :
  valid_keys ids ->
  tokenize (S fuel) sc ids [] T p = Lexed T p.
Proof.
  intros Hv. cbn [tokenize].
  change (lex_number []) with (@None (str * str)).
  rewrite (lex_identifier_none ids [] Hv) by exact I. reflexivity.
Qed.

(** The evaluation reads the scope at the identifiers of the tokens only:
    two scopes that agree there give the same result. *)

Lemma bind_ext {A B} (m m' : outcome A) (k k' : A -> nat -> outcome B) :
  m = m' -> (forall a i, k a i = k' a i) -> bind m k = bind m' k'.
Proof. intros <- H. destruct m; cbn [bind]; auto. Qed.

Lemma infix_ext (ev ev' : Z -> nat -> outcome value) (op : operator)
    (left : value) (index : nat) :
  (forall rbp i, ev rbp i = ev' rbp i) ->
  infix ev op left index = infix ev' op left index.
Proof.
  intros H. destruct op; cbn [infix]; unfold method_infix;
    try reflexivity; try (destruct left; rewrite ?H; reflexivity);
    rewrite H; reflexivity.
Qed.

Lemma op_prefix_ext (toks : list token) (ev ev' : Z -> nat -> outcome value)
    (op : operator) (index : nat) :
  (forall rbp i, ev rbp i = ev' rbp i) ->
  op_prefix toks ev op index = op_prefix toks ev' op index.
Proof.
  intros H. destruct op; cbn [op_prefix]; rewrite ?H; reflexivity.
Qed.

Lemma apply_function_ext (sc sc' : scope_object) (name : str)
    (args : list value) (index : nat) :
  scope_get sc name = scope_get sc' name ->
  apply_function sc name args index = apply_function sc' name args index.
Proof. intros H. unfold apply_function. rewrite H. reflexivity. Qed.

Lemma lookup_In (toks : list token) (i : nat) (t : token) :
  toks !! i = Some t -> In t toks.
Proof. intros H. apply list_elem_of_In. eapply list_elem_of_lookup_2. exact H. Qed.

Lemma scope_ext (sc sc' : scope_object) (toks : list token) :
  agree sc sc' toks ->
  forall fuel,
    (forall rbp i, evaluate sc toks fuel rbp i = evaluate sc' toks fuel rbp i)
    /\ (forall rbp left i,
          infix_loop sc toks fuel rbp left i = infix_loop sc' toks fuel rbp left i)
    /\ (forall name i,
          scope_get sc name = scope_get sc' name ->
          funcPrefix sc toks fuel name i = funcPrefix sc' toks fuel name i)
    /\ (forall name args i,
          scope_get sc name = scope_get sc' name ->
          arguments sc toks fuel name args i = arguments sc' toks fuel name args i).
Proof.
  intros Hag. induction fuel as [|fuel (IHe & IHl & IHf & IHa)].
  { repeat split; reflexivity. }
  repeat apply conj.
  - intros rbp i. cbn [evaluate]. destruct (toks !! i) as [t|] eqn:E; [|reflexivity].
    pose proof (Hag t (lookup_In _ _ _ E)) as Ht.
    destruct (has_prefix t); [|reflexivity].
    apply bind_ext; [|intros; apply IHl].
    destruct t; try reflexivity.
    + apply op_prefix_ext, IHe.
    + apply IHf, Ht.
    + unfold varPrefix. rewrite Ht. reflexivity.
  - intros rbp left i. cbn [infix_loop].
    destruct (toks !! i) as [t|]; [|reflexivity].
    destruct (binds rbp t); [|reflexivity].
    destruct t; try reflexivity.
    apply bind_ext; [apply infix_ext, IHe | intros; apply IHl].
  - intros name i Hn. cbn [funcPrefix]. unfold expect.
    destruct (toks !! i) as [t|]; [|reflexivity].
    destruct (val_is t [40]); [|reflexivity].
    destruct (toks !! S i) as [t'|]; [|reflexivity].
    destruct (val_is t' [41]); [apply apply_function_ext, Hn | apply IHa, Hn].
  - intros name args i Hn. cbn [arguments].
    apply bind_ext; [apply IHe|]. intros a j.
    destruct (toks !! j) as [t|]; [|reflexivity].
    destruct (val_is t [44]); [apply IHa, Hn|].
    destruct (val_is t [41]); [apply apply_function_ext, Hn | reflexivity].
Qed.

Lemma run_ext (sc sc' : scope_object) (toks : list token) :
  agree sc sc' toks -> run sc toks = run sc' toks.
Proof.
  intros H. unfold run.
  rewrite (proj1 (scope_ext sc sc' toks H _)). reflexivity.
Qed.

Lemma evaluator_with_scope (st : state) (text : str)
    (entries : list (str * scope_value)) (sc : scope_object) (id : str) :
  trim text <> [] ->
  install entries [] = (sc, None) ->
  In id (map fst sc) ->
  evaluator st (JString text) (JObject entries)
  = match tokenize (S (length (replace_power text))) sc
            (sort_longestFirst (map fst sc)) (replace_power text) [] [] with
    | Lexed toks parsed =>
        evaluate_tokens
          (State sc (sort_longestFirst (map fst sc)) (Some (toks ++ [TEnd]))
             (Some parsed))
    | Unknown c =>
        (Throws (UnknownSymbol c),
         State sc (sort_longestFirst (map fst sc)) None (eval_expression st))
    | LexFuel =>
        (Pending,
         State sc (sort_longestFirst (map fst sc)) (Some []) (eval_expression st))
    end.
Proof.
  intros Ht Hi Hin. unfold evaluator.
  destruct (trim text); [contradiction|]. rewrite Hi.
  destruct (map fst sc); [destruct Hin|]. reflexivity.
Qed.

Lemma evaluate_tokens_run (sc sc' : scope_object) (ids : list str)
    (toks : list token) (parsed : option str) (x : Decimal) (index : nat) :
  agree sc sc' toks ->
  run sc' toks = Done x index ->
  fst (evaluate_tokens (State sc ids (Some toks) parsed)) = Returns x.
Proof.
  intros Ha Hr. unfold evaluate_tokens. cbn [TOKENS SCOPE fst].
  rewrite (run_ext sc sc' toks Ha), Hr. reflexivity.
Qed.

Ltac lookahead_step :=
  match goal with
  | |- context [lookahead ?r] =>
      let b := eval vm_compute in (lookahead r) in
      change (lookahead r) with b; cbn iota; cbn [app]
  end.

Ltac agree_tokens Hx :=
  let t := fresh "t" in
  let Hin := fresh "Hin" in
  intros t Hin; cbn [In] in Hin;
  repeat (destruct Hin as [<- | Hin]; [first [exact I | exact Hx]|]);
  destruct Hin.

(** C9.  In a scope that binds the variable [x], the texts ["2x"], ["2*x"]
    and ["(2)(x)"] are all evaluated to the product of 2 and [x], and
    ["1/2x"] and ["(1/2)*x"] both to the quotient of 1 by 2 times [x]: the
    [*] that the tokenizer inserts has the binding power of [/] and is
    taken from the left.  The text in store shows the inserted [*]. *)
Theorem implicit_multiplication (st : state)
    (entries : list (str * scope_value)) (sc : scope_object) (x : Decimal)
    (Hinstall : install entries [] = (sc, None))
    (Hx : scope_get sc (units "x") = Some (SDec x)) :
  let eval text := evaluator st (JString (units text)) (JObject entries) in
  let two := ofLiteral (units "2") in
  let one := ofLiteral (units "1") in
  fst (eval "2x") = Returns (copy (times two x))
  /\ fst (eval "2*x") = Returns (copy (times two x))
  /\ fst (eval "(2)(x)") = Returns (copy (times two x))
  /\ fst (eval "1/2x") = Returns (copy (times (div one two) x))
  /\ fst (eval "(1/2)*x") = Returns (copy (times (div one two) x))
  /\ eval_expression (snd (eval "2x")) = Some (units "2*x")
  /\ eval_expression (snd (eval "1/2x")) = Some (units "1/2*x").
Proof.
  cbn zeta.
  pose proof (scope_get_key _ _ _ Hx) as Hkey.
  assert (Hv : valid_keys (sort_longestFirst (map fst sc))).
  { apply sort_longestFirst_valid. eapply install_valid; [exact Hinstall | constructor]. }
  assert (Hin : In [120] (sort_longestFirst (map fst sc))).
  { apply sort_longestFirst_In. exact Hkey. }
  set (ids := sort_longestFirst (map fst sc)) in *.
  change (units "x") with [120] in Hx.
  assert (Hvar : forall rest,
    match rest with [] => True | d :: _ => is_identifier_part d = false end ->
    lex_identifier ids (120 :: rest) = Some ([120], rest)).
  { intros rest Hr. apply lex_identifier_single; assumption. }
  assert (Hag : forall toks,
    (forall t, In t toks -> match t with TVar id => id = [120] | TFunc _ => False | _ => True end) ->
    agree sc [([120], SDec x)] toks).
  { intros toks Ht t Hin'. specialize (Ht t Hin'). destruct t; try exact I.
    - contradiction.
    - subst. rewrite Hx. reflexivity. }
  assert (T1 : tokenize 3 sc ids (units "2x") [] []
               = Lexed [TNum (ofLiteral [50]); TOp Times; TVar [120]] (units "2*x")).
  { rewrite (tokenize_number _ _ _ _ [50] [120]) by reflexivity. lookahead_step.
    rewrite (tokenize_variable _ _ _ _ [] 120 [] x) by (first [reflexivity | exact Hx | apply Hvar; exact I]).
    lookahead_step. apply tokenize_end, Hv. }
  assert (T2 : tokenize 4 sc ids (units "2*x") [] []
               = Lexed [TNum (ofLiteral [50]); TOp Times; TVar [120]] (units "2*x")).
  { rewrite (tokenize_number _ _ _ _ [50] [42; 120]) by reflexivity. lookahead_step.
    rewrite (tokenize_operator _ _ _ _ [120] Times) by (first [exact Hv | reflexivity | split; reflexivity]).
    cbn [app symbol].
    rewrite (tokenize_variable _ _ _ _ [] 120 [] x) by (first [reflexivity | exact Hx | apply Hvar; exact I]).
    lookahead_step. apply tokenize_end, Hv. }
  assert (T3 : tokenize 7 sc ids (units "(2)(x)") [] []
               = Lexed [TOp LParen; TNum (ofLiteral [50]); TOp RParen; TOp Times;
                        TOp LParen; TVar [120]; TOp RParen] (units "(2)*(x)")).
  { rewrite (tokenize_operator _ _ _ _ (units "2)(x)") LParen) by (first [exact Hv | reflexivity | split; reflexivity]).
    cbn [app symbol].
    rewrite (tokenize_number _ _ _ _ [50] (units ")(x)")) by reflexivity. lookahead_step.
    rewrite (tokenize_rparen _ _ _ (units "(x)")) by exact Hv. lookahead_step.
    rewrite (tokenize_operator _ _ _ _ (units "x)") LParen) by (first [exact Hv | reflexivity | split; reflexivity]).
    cbn [app symbol].
    rewrite (tokenize_variable _ _ _ _ [41] 120 [] x) by (first [reflexivity | exact Hx | apply Hvar; reflexivity]).
    lookahead_step.
    rewrite (tokenize_rparen _ _ _ []) by exact Hv. lookahead_step.
    apply tokenize_end, Hv. }
  assert (T4 : tokenize 5 sc ids (units "1/2x") [] []
               = Lexed [TNum (ofLiteral [49]); TOp Div; TNum (ofLiteral [50]);
                        TOp Times; TVar [120]] (units "1/2*x")).
  { rewrite (tokenize_number _ _ _ _ [49] (units "/2x")) by reflexivity. lookahead_step.
    rewrite (tokenize_operator _ _ _ _ (units "2x") Div) by (first [exact Hv | reflexivity | split; reflexivity]).
    cbn [app symbol].
    rewrite (tokenize_number _ _ _ _ [50] [120]) by reflexivity. lookahead_step.
    rewrite (tokenize_variable _ _ _ _ [] 120 [] x) by (first [reflexivity | exact Hx | apply Hvar; exact I]).
    lookahead_step. apply tokenize_end, Hv. }
  assert (T5 : tokenize 8 sc ids (units "(1/2)*x") [] []
               = Lexed [TOp LParen; TNum (ofLiteral [49]); TOp Div;
                        TNum (ofLiteral [50]); TOp RParen; TOp Times; TVar [120]]
                   (units "(1/2)*x")).
  { rewrite (tokenize_operator _ _ _ _ (units "1/2)*x") LParen) by (first [exact Hv | reflexivity | split; reflexivity]).
    cbn [app symbol].
    rewrite (tokenize_number _ _ _ _ [49] (units "/2)*x")) by reflexivity. lookahead_step.
    rewrite (tokenize_operator _ _ _ _ (units "2)*x") Div) by (first [exact Hv | reflexivity | split; reflexivity]).
    cbn [app symbol].
    rewrite (tokenize_number _ _ _ _ [50] (units ")*x")) by reflexivity. lookahead_step.
    rewrite (tokenize_rparen _ _ _ (units "*x")) by exact Hv. lookahead_step.
    rewrite (tokenize_operator _ _ _ _ [120] Times) by (first [exact Hv | reflexivity | split; reflexivity]).
    cbn [app symbol].
    rewrite (tokenize_variable _ _ _ _ [] 120 [] x) by (first [reflexivity | exact Hx | apply Hvar; exact I]).
    lookahead_step. apply tokenize_end, Hv. }
  repeat apply conj.
  - rewrite (evaluator_with_scope st _ entries sc [120]) by (first [discriminate | assumption]).
    fold ids. change (tokenize _ sc ids (replace_power (units "2x")) [] [])
      with (tokenize 3 sc ids (units "2x") [] []).
    rewrite T1. eapply evaluate_tokens_run.
    + apply Hag. agree_tokens (@eq_refl str [120]).
    + vm_compute. reflexivity.
  - rewrite (evaluator_with_scope st _ entries sc [120]) by (first [discriminate | assumption]).
    fold ids. change (tokenize _ sc ids (replace_power (units "2*x")) [] [])
      with (tokenize 4 sc ids (units "2*x") [] []).
    rewrite T2. eapply evaluate_tokens_run.
    + apply Hag. agree_tokens (@eq_refl str [120]).
    + vm_compute. reflexivity.
  - rewrite (evaluator_with_scope st _ entries sc [120]) by (first [discriminate | assumption]).
    fold ids. change (tokenize _ sc ids (replace_power (units "(2)(x)")) [] [])
      with (tokenize 7 sc ids (units "(2)(x)") [] []).
    rewrite T3. eapply evaluate_tokens_run.
    + apply Hag. agree_tokens (@eq_refl str [120]).
    + vm_compute. reflexivity.
  - rewrite (evaluator_with_scope st _ entries sc [120]) by (first [discriminate | assumption]).
    fold ids. change (tokenize _ sc ids (replace_power (units "1/2x")) [] [])
      with (tokenize 5 sc ids (units "1/2x") [] []).
    rewrite T4. eapply evaluate_tokens_run.
    + apply Hag. agree_tokens (@eq_refl str [120]).
    + vm_compute. reflexivity.
  - rewrite (evaluator_with_scope st _ entries sc [120]) by (first [discriminate | assumption]).
    fold ids. change (tokenize _ sc ids (replace_power (units "(1/2)*x")) [] [])
      with (tokenize 8 sc ids (units "(1/2)*x") [] []).
    rewrite T5. eapply evaluate_tokens_run.
    + apply Hag. agree_tokens (@eq_refl str [120]).
    + vm_compute. reflexivity.
  - rewrite (evaluator_with_scope st _ entries sc [120]) by (first [discriminate | assumption]).
    fold ids. change (tokenize _ sc ids (replace_power (units "2x")) [] [])
      with (tokenize 3 sc ids (units "2x") [] []).
    rewrite T1. rewrite (surjective_pairing (evaluate_tokens _)).
    cbn [snd]. rewrite evaluate_tokens_state. reflexivity.
  - rewrite (evaluator_with_scope st _ entries sc [120]) by (first [discriminate | assumption]).
    fold ids. change (tokenize _ sc ids (replace_power (units "1/2x")) [] [])
      with (tokenize 5 sc ids (units "1/2x") [] []).
    rewrite T4. rewrite (surjective_pairing (evaluate_tokens _)).
    cbn [snd]. rewrite evaluate_tokens_state. reflexivity.
Qed.

(** ** The fuel of the model is enough *)

Lemma span_digits_length (s : str) :
  length s = (length (fst (span_digits s)) + length (snd (span_digits s)))%nat.
Proof.
  induction s as [|c s IH]; [reflexivity|]. cbn [span_digits].
  destruct (is_digit c); [|reflexivity].
  destruct (span_digits s) as [ds r]. cbn [fst snd length] in *. lia.
Qed.

Lemma lex_fraction_length (s : str) :
  (length (snd (lex_fraction s)) <= length s)%nat.
Proof.
  unfold lex_fraction. destruct s as [|c r]; [reflexivity|].
  destruct (c =? 46); [|reflexivity].
  pose proof (span_digits_length r) as H.
  destruct (span_digits r) as [[|d ds] r']; cbn [fst snd length] in *; lia.
Qed.

Lemma lex_exponent_length (s : str) :
  (length (snd (lex_exponent s)) <= length s)%nat.
Proof.
  unfold lex_exponent. destruct s as [|c r]; [reflexivity|].
  destruct (_ || _); [|reflexivity].
  assert (H : forall r1, (length r1 <= length r)%nat ->
    (length (snd (match span_digits r1 with
                  | ([], _) => ([], c :: r)
                  | (d :: ds, r2) => (c :: [] ++ d :: ds, r2)
                  end)) <= length (c :: r))%nat).
  { intros r1 Hr. pose proof (span_digits_length r1) as H.
    destruct (span_digits r1) as [[|d ds] r2]; cbn [fst snd length] in *; lia. }
  destruct r as [|c1 r'].
  - cbn. lia.
  - destruct (_ || _).
    + pose proof (span_digits_length r') as Hl.
      destruct (span_digits r') as [[|d ds] r2]; cbn [fst snd length] in *; lia.
    + pose proof (span_digits_length (c1 :: r')) as Hl.
      destruct (span_digits (c1 :: r')) as [[|d ds] r2]; cbn [fst snd length] in *; lia.
Qed.

Lemma lex_number_length (s m r : str) :
  lex_number s = Some (m, r) -> (length r < length s)%nat.
Proof.
  unfold lex_number. pose proof (span_digits_length s) as Hs.
  destruct (span_digits s) as [[|d ds] r0]; [discriminate|].
  pose proof (lex_fraction_length r0) as Hf.
  destruct (lex_fraction r0) as [frac r1].
  pose proof (lex_exponent_length r1) as He.
  destruct (lex_exponent r1) as [ex r2].
  intros H. injection H as _ <-. cbn [fst snd length] in *. lia.
Qed.

Lemma strip_prefix_length (p s r : str) :
  strip_prefix p s = Some r -> length s = (length p + length r)%nat.
Proof.
  revert s. induction p as [|c p IH]; intros s H; cbn [strip_prefix] in H.
  - injection H as ->. reflexivity.
  - destruct s as [|d s]; [discriminate|]. destruct (c =? d); [|discriminate].
    cbn [length]. rewrite (IH _ H). reflexivity.
Qed.

Lemma lex_identifier_length (ids : list str) (s m r : str) :
  lex_identifier ids s = Some (m, r) -> length s = (length m + length r)%nat.
Proof.
  induction ids as [|id ids IH]; cbn [lex_identifier]; [discriminate|].
  destruct (strip_prefix id s) as [r'|] eqn:E; [|exact IH].
  intros H. injection H as <- <-. apply strip_prefix_length, E.
Qed.

Lemma lex_operator_length (s r : str) (op : operator) :
  lex_operator s = Some (op, r) -> (length r < length s)%nat.
Proof.
  unfold lex_operator. destruct s as [|c s]; [discriminate|].
  destruct s as [|c' s'].
  - repeat match goal with
           | |- context [if ?b then _ else _] => destruct b
           end; intros H; try discriminate; injection H as _ <-; cbn; lia.
  - repeat match goal with
           | |- context [if ?b then _ else _] => destruct b
           end; intros H; try discriminate; injection H as _ <-; cbn; lia.
Qed.

(** The tokenizer ends within the length of the text plus one. *)
Lemma tokenize_fuel (sc : scope_object) (ids : list str) :
  forall (fuel : nat) (s : str) (T : list token) (p : str),
    (length s < fuel)%nat -> tokenize fuel sc ids s T p <> LexFuel.
Proof.
  induction fuel as [|fuel IH]; intros s T p Hf; [lia|].
  cbn [tokenize].
  destruct (lex_number s) as [[m r]|] eqn:En.
  { apply lex_number_length in En. unfold implicit_times.
    destruct (lookahead r); apply IH; lia. }
  destruct (lex_identifier ids s) as [[m r]|] eqn:Ei.
  { apply lex_identifier_length in Ei. destruct m as [|c m]; [discriminate|].
    cbn [length] in Ei. unfold implicit_times.
    destruct (scope_get sc (c :: m)) as [[f|x]|];
      try destruct (lookahead r); apply IH; lia. }
  destruct s as [|c r]; [discriminate|]. cbn [length] in Hf.
  destruct (c =? 41).
  { unfold implicit_times. destruct (lookahead r); apply IH; lia. }
  destruct (lex_operator (c :: r)) as [[op r']|] eqn:Eo.
  { apply lex_operator_length in Eo. cbn [length] in Eo. apply IH. lia. }
  destruct (is_space c); [apply IH; lia | discriminate].
Qed.

Lemma ends_Throw {A} (err : eval_error) (lo hi : nat) :
  ends (@Throw host A err) lo hi.
Proof. split; [discriminate|]. intros a j H. discriminate. Qed.

Lemma ends_Done {A} (a : A) (j lo hi : nat) :
  (lo <= j <= hi)%nat -> ends (Done a j) lo hi.
Proof. intros H. split; [discriminate|]. intros a' j' E. injection E as _ <-. exact H. Qed.

Lemma ends_bind {A B} (m : outcome A) (k : A -> nat -> outcome B)
    (lo mid hi lo' : nat) :
  ends m lo mid ->
  (forall a j, (lo <= j <= mid)%nat -> ends (k a j) lo' hi) ->
  ends (bind m k) lo' hi.
Proof.
  intros [Hm Hd] Hk. destruct m as [a j|err|]; cbn [bind].
  - apply Hk. apply (Hd a j eq_refl).
  - apply ends_Throw.
  - contradiction.
Qed.

Lemma ends_weaken {A} (m : outcome A) (lo hi lo' hi' : nat) :
  ends m lo hi -> (lo' <= lo)%nat -> (hi <= hi')%nat -> ends m lo' hi'.
Proof.
  intros [Hm Hd] Hlo Hhi. split; [exact Hm|]. intros a j E.
  specialize (Hd a j E). lia.
Qed.

Section Fuel.
Variable sc : scope_object.
Variable toks : list token.

Lemma apply_function_ends (name : str) (args : list value) (j lo : nat) :
  (lo <= j <= length toks)%nat -> ends (apply_function sc name args j) lo (length toks).
Proof.
  intros H. unfold apply_function.
  destruct (scope_get sc name) as [[f|x]|]; try apply ends_Throw.
  destruct (f args); [apply ends_Done; exact H | apply ends_Throw].
Qed.

Lemma infix_ends (ev : Z -> nat -> outcome value) (op : operator)
    (left : value) (i lo : nat) :
  (forall rbp, ends (ev rbp i) lo (length toks - 1)) ->
  ends (infix ev op left i) lo (length toks - 1).
Proof.
  intros Hev.
  assert (Hm : forall A (fn : Decimal -> Decimal -> A) wrap rbp,
    ends (method_infix ev fn wrap rbp left i) lo (length toks - 1)).
  { intros A fn wrap rbp. unfold method_infix.
    assert (Hb : ends (bind (ev rbp i)
                         (fun right index => call_method fn left right index wrap))
                   lo (length toks - 1)).
    { eapply ends_bind; [apply Hev|]. intros a j Hj. unfold call_method.
      destruct left; try apply ends_Throw.
      destruct a; try apply ends_Throw. apply ends_Done, Hj. }
    destruct left; [exact Hb | apply ends_Throw | exact Hb]. }
  destruct op; cbn [infix]; try apply Hm; try apply ends_Throw.
  - eapply ends_bind; [apply Hev|]. intros a j Hj.
    destruct (is_zero left); [apply ends_Done, Hj | apply ends_Throw].
  - eapply ends_bind; [apply Hev|]. intros a j Hj.
    destruct (is_zero left); [apply ends_Done, Hj | apply ends_Throw].
Qed.

Lemma op_prefix_ends (ev : Z -> nat -> outcome value) (op : operator) (i lo : nat) :
  (forall rbp, ends (ev rbp i) lo (length toks - 1)) ->
  ends (op_prefix toks ev op i) lo (length toks).
Proof.
  intros Hev.
  assert (Hw : forall rbp, ends (ev rbp i) lo (length toks)).
  { intros rbp. eapply ends_weaken; [apply Hev | lia | lia]. }
  destruct op; cbn [op_prefix]; try apply ends_Throw; try apply Hw.
  - eapply ends_bind; [apply Hev|]. intros a j Hj.
    destruct a; try apply ends_Throw. apply ends_Done. lia.
  - eapply ends_bind; [apply Hev|]. intros a j Hj.
    destruct a; try apply ends_Throw. apply ends_Done. lia.
  - eapply ends_bind; [apply Hev|]. intros a j Hj.
    destruct (is_zero a); [apply ends_Done; lia | apply ends_Throw].
  - eapply ends_bind; [apply Hev|]. intros a j Hj. unfold expect.
    destruct (toks !! j) as [t|] eqn:E; [|apply ends_Throw].
    apply lookup_lt_Some in E.
    destruct (val_is t [41]); [apply ends_Done; lia | apply ends_Throw].
Qed.

(** Every call of the evaluator ends, and a call that returns has moved
    the index forward, onto a token. *)
Lemma evaluate_ends :
  forall fuel,
    (forall rbp i, (2 * (length toks - i) + 2 <= fuel)%nat ->
        ends (evaluate sc toks fuel rbp i) (S i) (length toks - 1))
    /\ (forall rbp left i, (2 * (length toks - i) + 1 <= fuel)%nat ->
          ends (infix_loop sc toks fuel rbp left i) i (length toks - 1))
    /\ (forall name i, (2 * (length toks - i) + 2 <= fuel)%nat ->
          ends (funcPrefix sc toks fuel name i) (S i) (length toks))
    /\ (forall name args i, (2 * (length toks - i) + 3 <= fuel)%nat ->
          ends (arguments sc toks fuel name args i) (S i) (length toks)).
Proof.
  induction fuel as [|fuel (IHe & IHl & IHf & IHa)].
  { repeat apply conj; intros; lia. }
  repeat apply conj.
  - (* evaluate *)
    intros rbp i Hf. cbn [evaluate].
    destruct (toks !! i) as [t|] eqn:E; [|apply ends_Throw].
    pose proof (lookup_lt_Some _ _ _ E) as Hi.
    destruct (has_prefix t); [|apply ends_Throw].
    eapply ends_bind with (lo := S i) (mid := length toks).
    2:{ intros a j Hj. eapply ends_weaken; [apply IHl; lia | lia | lia]. }
    destruct t; try apply ends_Throw.
    + apply ends_Done. lia.
    + apply op_prefix_ends. intros rbp'.
      eapply ends_weaken; [apply IHe; lia | lia | lia].
    + eapply ends_weaken; [apply IHf; lia | lia | lia].
    + apply ends_Done. lia.
  - (* infix_loop *)
    intros rbp left i Hf. cbn [infix_loop].
    destruct (toks !! i) as [t|] eqn:E; [|apply ends_Throw].
    pose proof (lookup_lt_Some _ _ _ E) as Hi.
    destruct (binds rbp t); [|apply ends_Done; lia].
    destruct t; try apply ends_Throw.
    eapply ends_bind with (lo := S (S i)) (mid := (length toks - 1)%nat).
    + apply infix_ends. intros rbp'. apply IHe. lia.
    + intros a j Hj. eapply ends_weaken; [apply IHl; lia | lia | lia].
  - (* funcPrefix *)
    intros name i Hf. cbn [funcPrefix]. unfold expect.
    destruct (toks !! i) as [t|] eqn:E; [|apply ends_Throw].
    pose proof (lookup_lt_Some _ _ _ E) as Hi.
    destruct (val_is t [40]); [|apply ends_Throw].
    destruct (toks !! S i) as [t'|] eqn:E'; [|apply ends_Throw].
    pose proof (lookup_lt_Some _ _ _ E') as Hi'.
    destruct (val_is t' [41]).
    + apply apply_function_ends. lia.
    + eapply ends_weaken; [apply IHa; lia | lia | lia].
  - (* arguments *)
    intros name args i Hf. cbn [arguments].
    eapply ends_bind; [apply IHe; lia|]. intros a j Hj.
    destruct (toks !! j) as [t|] eqn:E; [|apply ends_Throw].
    destruct (val_is t [44]).
    + eapply ends_weaken; [apply IHa; lia | lia | lia].
    + destruct (val_is t [41]); [|apply ends_Throw].
      apply apply_function_ends. lia.
Qed.

(** The fuel that [run] gives is enough. *)
Lemma evaluate_fuel : run sc toks <> OutOfFuel.
Proof.
  unfold run.
  pose proof (proj1 (evaluate_ends (2 * length toks + 3)) 0 0%nat) as H.
  destruct H as [Hne _]; [lia|].
  destruct (evaluate sc toks (2 * length toks + 3) 0 0) as [a j|err|];
    cbn [bind]; [|discriminate|contradiction].
  destruct a; try discriminate.
  destruct (toks !! j); [|discriminate]. destruct (val_is _ _); discriminate.
Qed.

End Fuel.

(** A call of the evaluator returns or throws. *)
Lemma evaluator_ends (st : state) (expression scope : jsvalue) :
  fst (evaluator st expression scope) <> Pending.
Proof.
  assert (He : forall st1, fst (evaluate_tokens st1) <> Pending).
  { intros st1. unfold evaluate_tokens. destruct (TOKENS st1) as [toks|]; [|discriminate].
    cbn [fst]. pose proof (evaluate_fuel (SCOPE st1) toks) as Hf.
    destruct (run _ _); [discriminate | discriminate | contradiction]. }
  assert (Hl : forall st1 text,
    fst (match tokenize (S (length text)) (SCOPE st1) (TOKENIZER st1) text [] [] with
         | Lexed toks parsed =>
             evaluate_tokens
               (State (SCOPE st1) (TOKENIZER st1) (Some (toks ++ [TEnd])) (Some parsed))
         | Unknown c0 => (Throws (UnknownSymbol c0), with_TOKENS st1 None)
         | LexFuel => (Pending, with_TOKENS st1 (Some []))
         end) <> Pending).
  { intros st1 text.
    pose proof (tokenize_fuel (SCOPE st1) (TOKENIZER st1) (S (length text)) text [] []
                  ltac:(lia)) as Ht.
    destruct (tokenize _ _ _ _ _ _); [apply He | discriminate | contradiction]. }
  unfold evaluator. destruct expression as [text|entries| |]; try discriminate.
  - destruct (trim text) as [|c0 t0]; [discriminate|].
    destruct scope as [s|entries| |]; try discriminate; try apply Hl.
    destruct (install entries []) as [sc' [err|]]; [discriminate | apply Hl].
  - destruct scope; try discriminate.
    destruct (TOKENS st); [|discriminate].
    destruct (rebind entries (SCOPE st)) as [sc' [err|]]; [discriminate | apply He].
Qed.


(** ** [**] is [^] *)

Lemma replace_power_two (c c' : Z) (s : str) :
  replace_power (c :: c' :: s)
  = if (c =? 42) && (c' =? 42) then 94 :: replace_power s
    else c :: replace_power (c' :: s).
Proof. reflexivity. Qed.

(** What [replace_power] returns holds no [**], so a second pass changes
    nothing. *)
Lemma replace_power_idempotent (s : str) :
  replace_power (replace_power s) = replace_power s.
Proof.
  assert (H : forall (n : nat) (s : str), (length s <= n)%nat ->
    replace_power (replace_power s) = replace_power s
    /\ (match s with
        | c :: _ =>
            c <> 42 -> exists r, replace_power s = c :: r
        | [] => True
        end)).
  { induction n as [|n IH]; intros t Hn.
    - destruct t; [split; [reflexivity | exact I] | cbn in Hn; lia].
    - destruct t as [|c [|c' t]]; [split; [reflexivity | exact I] | |].
      + split; [reflexivity|]. intros _. exists []. reflexivity.
      + rewrite replace_power_two. cbn [length] in Hn.
        destruct ((c =? 42) && (c' =? 42)) eqn:E.
        * apply andb_prop in E as [Ec _]. apply Z.eqb_eq in Ec. subst c.
          split; [|intros Hc; contradiction].
          destruct (IH t ltac:(lia)) as [Hi _].
          destruct (replace_power t) as [|x r] eqn:Er; [reflexivity|].
          rewrite replace_power_two. change (94 =? 42) with false. cbn [andb].
          f_equal. exact Hi.
        * destruct (IH (c' :: t) ltac:(cbn [length]; lia)) as [Hi Hhead].
          split; [|intros _; eexists; reflexivity].
          destruct (replace_power (c' :: t)) as [|x r] eqn:Er; [reflexivity|].
          rewrite replace_power_two.
          assert (Hx : (c =? 42) && (x =? 42) = false).
          { destruct (Z.eqb_spec c 42) as [->|]; [|reflexivity].
            cbn [andb] in E |- *. change (42 =? 42) with true in E. cbn [andb] in E.
            apply Z.eqb_neq in E. destruct (Hhead E) as [r' Hr'].
            injection Hr' as -> _. apply Z.eqb_neq. exact E. }
          rewrite Hx. f_equal. exact Hi. }
  apply (H (length s)). lia.
Qed.

Lemma replace_power_spaces (s : str) :
  forallb is_space (replace_power s) = forallb is_space s.
Proof.
  assert (H : forall (n : nat) (s : str), (length s <= n)%nat ->
    forallb is_space (replace_power s) = forallb is_space s).
  { induction n as [|n IH]; intros t Hn.
    - destruct t; [reflexivity | cbn in Hn; lia].
    - destruct t as [|c [|c' t]]; [reflexivity | reflexivity |].
      rewrite replace_power_two. cbn [length] in Hn.
      destruct ((c =? 42) && (c' =? 42)) eqn:E.
      + apply andb_prop in E as [Ec _]. apply Z.eqb_eq in Ec. subst c. reflexivity.
      + cbn [forallb]. rewrite (IH (c' :: t)) by (cbn [length]; lia). reflexivity. }
  apply (H (length s)). lia.
Qed.

Lemma replace_power_cons (c : Z) (r : str) :
  (c =? 42) = false -> replace_power (c :: r) = c :: replace_power r.
Proof.
  intros H. destruct r as [|c' r]; [reflexivity|].
  rewrite replace_power_two, H. reflexivity.
Qed.

(** The replacement goes through a text part by part where the first part
    does not end in [*]. *)
Lemma replace_power_app (a r : str) :
  last a <> Some 42 -> replace_power (a ++ r) = replace_power a ++ replace_power r.
Proof.
  assert (H : forall (n : nat) (a : str), (length a <= n)%nat ->
    last a <> Some 42 -> replace_power (a ++ r) = replace_power a ++ replace_power r).
  { induction n as [|n IH]; intros t Hn Hl.
    - destruct t; [reflexivity | cbn in Hn; lia].
    - destruct t as [|c [|c' t]]; [reflexivity| |].
      + assert (Hc : (c =? 42) = false).
        { apply Z.eqb_neq. intros ->. apply Hl. reflexivity. }
        cbn [app]. rewrite replace_power_cons by exact Hc. reflexivity.
      + cbn [app]. rewrite !replace_power_two.
        destruct ((c =? 42) && (c' =? 42)) eqn:E.
        * cbn [app]. f_equal. apply IH; [cbn [length] in Hn; lia|].
          destruct t as [|d t].
          -- apply andb_prop in E as [_ E]. apply Z.eqb_eq in E. subst c'.
             exfalso. apply Hl. reflexivity.
          -- exact Hl.
        * cbn [app]. f_equal.
          apply (IH (c' :: t)); [cbn [length] in Hn |- *; lia | exact Hl]. }
  apply (H (length a)). lia.
Qed.

(** [**] is read as [^]: a text with [**] in it and the text with [^] in
    its place give the same answer and leave the same state, whatever
    stands before and after it, but for a [*] right before it, which
    would pair with its first [*]. *)
Theorem power_is_written_either_way (st : state) (a b : str) (scope : jsvalue)
    (Ha : last a <> Some 42) :
  evaluator st (JString (a ++ [42; 42] ++ b)) scope
  = evaluator st (JString (a ++ [94] ++ b)) scope.
Proof.
  assert (Hr : replace_power (a ++ [42; 42] ++ b) = replace_power (a ++ [94] ++ b)).
  { rewrite (replace_power_app a ([42; 42] ++ b) Ha).
    rewrite (replace_power_app a ([94] ++ b) Ha).
    apply (f_equal (fun l => replace_power a ++ l)). cbn [app].
    rewrite replace_power_two. change ((42 =? 42) && (42 =? 42)) with true.
    cbn iota. rewrite replace_power_cons by reflexivity. reflexivity. }
  assert (Hb : forall m : str,
    forallb is_space (a ++ m ++ b) = forallb is_space a && forallb is_space m
                                     && forallb is_space b).
  { intros m. rewrite !forallb_app. apply andb_assoc. }
  unfold evaluator. rewrite Hr.
  destruct (trim (a ++ [42; 42] ++ b)) as [|c t] eqn:E1.
  { apply trim_nil in E1. rewrite Hb in E1. cbn [forallb] in E1.
    rewrite andb_false_r in E1. discriminate. }
  destruct (trim (a ++ [94] ++ b)) as [|c' t'] eqn:E2.
  { apply trim_nil in E2. rewrite Hb in E2. cbn [forallb] in E2.
    rewrite andb_false_r in E2. discriminate. }
  reflexivity.
Qed.

(** ** What a call leaves in store *)

Lemma tokenized_state (st : state) (text : str) :
  let r := match tokenize (S (length text)) (SCOPE st) (TOKENIZER st) text [] [] with
           | Lexed toks parsed =>
               evaluate_tokens
                 (State (SCOPE st) (TOKENIZER st) (Some (toks ++ [TEnd])) (Some parsed))
           | Unknown c => (Throws (UnknownSymbol c), with_TOKENS st None)
           | LexFuel => (Pending, with_TOKENS st (Some []))
           end in
  SCOPE (snd r) = SCOPE st /\ TOKENIZER (snd r) = TOKENIZER st.
Proof.
  cbn zeta. destruct (tokenize _ _ _ _ _ _); [|split; reflexivity|split; reflexivity].
  rewrite evaluate_tokens_state. split; reflexivity.
Qed.

(** A call with an expression and no scope leaves the scope and the
    tokenizer as they were, whatever it returns or throws: a scope stays
    until another one is passed. *)
Theorem scope_stays_without_scope_argument (st : state) (text : str) :
  let st' := snd (evaluator st (JString text) JUndefined) in
  SCOPE st' = SCOPE st /\ TOKENIZER st' = TOKENIZER st.
Proof.
  cbn zeta. unfold evaluator. destruct (trim text); [split; reflexivity|].
  apply tokenized_state.
Qed.

Lemma scope_set_shape (sc : scope_object) (id : str) (v w : slot) :
  scope_get sc id = Some w -> is_function v = is_function w ->
  shape (scope_set sc id v) = shape sc.
Proof.
  induction sc as [|[k u] sc IH]; cbn [scope_get scope_set]; [discriminate|].
  destruct (str_eqb k id).
  - intros [= ->] Hf. unfold shape. cbn [map fst snd]. rewrite Hf. reflexivity.
  - intros Hg Hf. unfold shape in *. cbn [map fst snd]. rewrite (IH Hg Hf). reflexivity.
Qed.

Lemma rebind_shape (entries : list (str * scope_value)) :
  forall sc : scope_object, shape (fst (rebind entries sc)) = shape sc.
Proof.
  induction entries as [|[id val] rest IH]; intros sc; cbn [rebind]; [reflexivity|].
  destruct (scope_get sc id) as [[f|x]|] eqn:E; [| |reflexivity].
  - destruct val as [g|r]; [|reflexivity].
    rewrite IH. apply (scope_set_shape sc id _ (SFun f)); [exact E | reflexivity].
  - destruct val as [g|r]; [reflexivity|].
    destruct (construct r); [|reflexivity].
    rewrite IH. apply (scope_set_shape sc id _ (SDec x)); [exact E | reflexivity].
Qed.

(** A call with an object as its only argument re-binds and never
    declares: whether it returns or throws, the scope in store has the
    same identifiers in the same order, each still a function or still
    not one, and the tokens, the tokenizer and the text in store are as
    they were.  The scope in store has no identifier that is the name of
    a member of [Object.prototype], [hasOwnProperty] among them. *)
Theorem rebinding_keeps_the_identifiers (st : state)
    (entries : list (str * scope_value))
    (Hnames : ordinary_keys (SCOPE st) = true) :
  let st' := snd (evaluator st (JObject entries) JUndefined) in
  shape (SCOPE st') = shape (SCOPE st)
  /\ TOKENS st' = TOKENS st
  /\ TOKENIZER st' = TOKENIZER st
  /\ eval_expression st' = eval_expression st.
Proof.
  clear Hnames. cbn zeta. unfold evaluator. destruct (TOKENS st) as [toks|] eqn:ET.
  2:{ cbn [snd]. rewrite ET. repeat split. }
  pose proof (rebind_shape entries (SCOPE st)) as Hs.
  destruct (rebind entries (SCOPE st)) as [sc [err|]]; cbn [fst] in Hs.
  - cbn [snd with_SCOPE SCOPE TOKENS TOKENIZER eval_expression].
    rewrite ET. repeat split. exact Hs.
  - rewrite evaluate_tokens_state.
    cbn [with_SCOPE SCOPE TOKENS TOKENIZER eval_expression].
    rewrite ET. repeat split. exact Hs.
Qed.


(** ** The identifiers of the tokenizer, longest first *)

Lemma insert_longest_sorted (id : str) (l : list str) :
  StronglySorted (fun a b => (length b <= length a)%nat) l ->
  StronglySorted (fun a b => (length b <= length a)%nat) (insert_longest id l).
Proof.
  intros Hs. induction Hs as [|y l Hs IH Hy]; cbn [insert_longest].
  - repeat constructor.
  - destruct (Nat.leb_spec (length y) (length id)) as [Hle|Hgt].
    + constructor; [constructor; assumption|].
      constructor; [exact Hle|].
      rewrite List.Forall_forall in Hy |- *. intros x Hx. specialize (Hy x Hx). lia.
    + constructor; [exact IH|].
      rewrite List.Forall_forall in Hy |- *. intros x Hx.
      apply insert_longest_In in Hx as [->|Hx]; [lia | apply Hy, Hx].
Qed.

Lemma sort_longestFirst_sorted (l : list str) :
  StronglySorted (fun a b => (length b <= length a)%nat) (sort_longestFirst l).
Proof.
  induction l as [|x l IH]; cbn [sort_longestFirst fold_right]; [constructor|].
  apply insert_longest_sorted, IH.
Qed.

Lemma strip_prefix_app (p s r : str) : strip_prefix p s = Some r <-> s = p ++ r.
Proof.
  revert s. induction p as [|c p IH]; intros s; cbn [strip_prefix app].
  - split; [intros [= ->]; reflexivity | intros ->; reflexivity].
  - destruct s as [|d s]; [split; discriminate|].
    destruct (Z.eqb_spec c d) as [->|Hne].
    + rewrite IH. split; [intros ->; reflexivity | intros [= ->]; reflexivity].
    + split; [discriminate | intros H; injection H as H1 H2; congruence].
Qed.

(** The alternation tries the longer identifiers first, so a text that is
    an identifier of the tokenizer is matched as that identifier, whole,
    even when a shorter identifier is a prefix of it. *)
Lemma lex_identifier_whole (ids : list str) (id : str) :
  StronglySorted (fun a b => (length b <= length a)%nat) ids ->
  In id ids -> lex_identifier ids id = Some (id, []).
Proof.
  intros Hs. induction Hs as [|h ids Hs IH Hh]; intros Hin; [destruct Hin|].
  cbn [lex_identifier]. destruct (strip_prefix h id) as [r|] eqn:E.
  - apply strip_prefix_app in E. destruct Hin as [->|Hin].
    + assert (r = []) as ->.
      { apply (f_equal (@length Z)) in E. rewrite length_app in E.
        destruct r; [reflexivity | cbn [length] in E; lia]. }
      reflexivity.
    + rewrite List.Forall_forall in Hh. specialize (Hh id Hin).
      assert (r = []) as ->.
      { apply (f_equal (@length Z)) in E. rewrite length_app in E.
        destruct r; [reflexivity | cbn [length] in E; lia]. }
      rewrite app_nil_r in E. subst h. reflexivity.
  - destruct Hin as [->|Hin]; [|exact (IH Hin)].
    assert (strip_prefix id id = Some []) by (apply strip_prefix_app; rewrite app_nil_r; reflexivity).
    congruence.
Qed.

(** ** Character classes *)

Lemma identifier_start_class (c : Z) :
  is_identifier_start c = true ->
  is_space c = false /\ is_digit c = false /\ (c =? 42) = false.
Proof.
  unfold is_identifier_start, is_space, is_digit, is_greek, between.
  rewrite !orb_true_iff, !andb_true_iff, !Z.leb_le, !Z.eqb_eq.
  intros H.
  repeat rewrite orb_false_iff. repeat rewrite andb_false_iff.
  repeat rewrite Z.leb_gt. repeat rewrite Z.eqb_neq.
  lia.
Qed.

Lemma identifier_part_class (c : Z) :
  is_identifier_part c = true -> (c =? 42) = false.
Proof.
  unfold is_identifier_part, is_word, is_digit, is_greek, between.
  rewrite !orb_true_iff, !andb_true_iff, !Z.leb_le, !Z.eqb_eq.
  intros H. apply Z.eqb_neq. lia.
Qed.

Lemma replace_power_none (s : str) :
  forallb (fun c => negb (c =? 42)) s = true -> replace_power s = s.
Proof.
  induction s as [|c s IH]; [reflexivity|]. cbn [forallb].
  intros H. apply andb_prop in H as [Hc Hs]. apply negb_true_iff in Hc.
  destruct s as [|c' s]; [reflexivity|].
  rewrite replace_power_two, Hc. cbn [andb]. rewrite (IH Hs). reflexivity.
Qed.

Lemma identifier_no_star (id : str) :
  VALID_IDENTIFIER id = true -> forallb (fun c => negb (c =? 42)) id = true.
Proof.
  destruct id as [|c rest]; [discriminate|]. cbn [VALID_IDENTIFIER forallb].
  intros H. apply andb_prop in H as [Hc Hr].
  destruct (identifier_start_class c Hc) as (_ & _ & ->). cbn [negb andb].
  induction rest as [|d rest IH]; [reflexivity|]. cbn [forallb] in *.
  apply andb_prop in Hr as [Hd Hr]. rewrite (identifier_part_class d Hd).
  cbn [negb andb]. exact (IH Hr).
Qed.

(** ** A variable of the scope *)

(** In a scope that has been installed, the text of an identifier bound
    to a Decimal evaluates to a copy of that Decimal, whatever other
    identifiers the scope has: a shorter identifier that begins the text
    does not cut it.  No key of the scope object is the name of a member
    of [Object.prototype], [__proto__] among them. *)
Theorem variable_evaluates_to_its_value (st : state)
    (entries : list (str * scope_value)) (sc : scope_object) (id : str)
    (x : Decimal)
    (Hnames : ordinary_keys entries = true)
    (Hinstall : install entries [] = (sc, None))
    (Hx : scope_get sc id = Some (SDec x)) :
  fst (evaluator st (JString id) (JObject entries)) = Returns (copy x).
Proof.
  clear Hnames.
  pose proof (scope_get_key _ _ _ Hx) as Hkey.
  assert (Hvk : valid_keys (map fst sc))
    by (eapply install_valid; [exact Hinstall | constructor]).
  assert (Hv : valid_keys (sort_longestFirst (map fst sc)))
    by (apply sort_longestFirst_valid, Hvk).
  assert (Hid : VALID_IDENTIFIER id = true).
  { unfold valid_keys in Hvk. rewrite List.Forall_forall in Hvk. apply Hvk, Hkey. }
  destruct id as [|c rest] eqn:Eid; [discriminate|]. rewrite <- Eid in *.
  assert (Hstart : is_identifier_start c = true).
  { rewrite Eid in Hid. cbn [VALID_IDENTIFIER] in Hid.
    apply andb_prop in Hid as [Hc _]. exact Hc. }
  destruct (identifier_start_class c Hstart) as (Hsp & Hdg & _).
  rewrite (evaluator_with_scope st id entries sc id); [| |exact Hinstall | exact Hkey].
  2:{ intros Ht. apply trim_nil in Ht. rewrite Eid in Ht. cbn [forallb] in Ht.
      rewrite Hsp in Ht. discriminate. }
  rewrite (replace_power_none id (identifier_no_star id Hid)).
  set (ids := sort_longestFirst (map fst sc)) in *.
  assert (Hlex : tokenize (S (length id)) sc ids id [] [] = Lexed [TVar id] id).
  { rewrite Eid. cbn [length].
    rewrite (tokenize_variable _ sc ids (c :: rest) [] c rest x).
    - change (lookahead []) with false. cbn iota. cbn [app].
      apply tokenize_end, Hv.
    - unfold lex_number. cbn [span_digits]. rewrite Hdg. reflexivity.
    - rewrite <- Eid. apply lex_identifier_whole.
      + apply sort_longestFirst_sorted.
      + apply sort_longestFirst_In, Hkey.
    - rewrite <- Eid. exact Hx. }
  rewrite Hlex. unfold evaluate_tokens. cbn [TOKENS SCOPE app fst].
  unfold run. cbn [length Nat.mul Nat.add evaluate].
  cbn. unfold varPrefix. rewrite Hx. reflexivity.
Qed.


(** ** Re-binding and the scope of a new call *)

Lemma shape_keys (sc sc' : scope_object) :
  shape sc = shape sc' -> map fst sc = map fst sc'.
Proof.
  unfold shape. intros H. apply (f_equal (map fst)) in H.
  rewrite !map_map in H. exact H.
Qed.

Lemma shape_get (sc sc' : scope_object) (id : str) :
  shape sc = shape sc' ->
  option_map is_function (scope_get sc id) = option_map is_function (scope_get sc' id).
Proof.
  revert sc'. induction sc as [|[k v] sc IH]; intros [|[k' v'] sc'] H;
    try discriminate; [reflexivity|].
  unfold shape in H. cbn [map fst snd] in H. injection H as -> Hf Hs.
  cbn [scope_get]. destruct (str_eqb k' id).
  - cbn [option_map]. rewrite Hf. reflexivity.
  - apply IH, Hs.
Qed.

(** The tokenizer looks at the scope only to tell a function from what
    is none. *)
Lemma tokenize_shape (sc sc' : scope_object) (ids : list str) :
  shape sc = shape sc' ->
  forall (fuel : nat) (s : str) (T : list token) (p : str),
    tokenize fuel sc ids s T p = tokenize fuel sc' ids s T p.
Proof.
  intros Hs. induction fuel as [|fuel IH]; intros s T p; [reflexivity|].
  cbn [tokenize]. destruct (lex_number s) as [[m r]|].
  { destruct (implicit_times _ _ _). apply IH. }
  destruct (lex_identifier ids s) as [[m r]|].
  { destruct m as [|c m]; [reflexivity|].
    pose proof (shape_get sc sc' (c :: m) Hs) as Hg.
    destruct (scope_get sc (c :: m)) as [[f|x]|];
      destruct (scope_get sc' (c :: m)) as [[f'|x']|]; try discriminate;
      try apply IH; destruct (implicit_times _ _ _); apply IH. }
  destruct s as [|c r]; [reflexivity|].
  destruct (c =? 41).
  { destruct (implicit_times _ _ _). apply IH. }
  destruct (lex_operator (c :: r)) as [[op r']|]; [apply IH|].
  destruct (is_space c); [apply IH | reflexivity].
Qed.

Lemma evaluator_installed (st : state) (text : str)
    (entries : list (str * scope_value)) (sc : scope_object) :
  forallb is_space text = false ->
  install entries [] = (sc, None) ->
  evaluator st (JString text) (JObject entries)
  = let ids := match map fst sc with
               | [] => DEFAULT_TOKENIZER
               | _ :: _ => sort_longestFirst (map fst sc)
               end in
    match tokenize (S (length (replace_power text))) sc ids (replace_power text) [] [] with
    | Lexed toks parsed =>
        evaluate_tokens (State sc ids (Some (toks ++ [TEnd])) (Some parsed))
    | Unknown c => (Throws (UnknownSymbol c), State sc ids None (eval_expression st))
    | LexFuel => (Pending, State sc ids (Some []) (eval_expression st))
    end.
Proof.
  intros Ht Hi. unfold evaluator.
  destruct (trim text) eqn:E; [apply trim_nil in E; congruence|].
  rewrite Hi. destruct (map fst sc); reflexivity.
Qed.

Lemma scope_get_None (sc : scope_object) (id : str) :
  ~ In id (map fst sc) -> scope_get sc id = None.
Proof.
  induction sc as [|[k v] sc IH]; cbn [scope_get map fst In]; [reflexivity|].
  intros H. destruct (str_eqb k id) eqn:E.
  - apply str_eqb_eq in E. tauto.
  - apply IH. tauto.
Qed.

Lemma scope_set_new (sc : scope_object) (id : str) (v : slot) :
  ~ In id (map fst sc) -> scope_set sc id v = sc ++ [(id, v)].
Proof.
  induction sc as [|[k w] sc IH]; cbn [scope_set map fst In app]; [reflexivity|].
  intros H. destruct (str_eqb k id) eqn:E.
  - apply str_eqb_eq in E. tauto.
  - rewrite IH by tauto. reflexivity.
Qed.

Lemma install_distinct (entries : list (str * scope_value)) :
  forall (sc0 sc : scope_object),
    List.NoDup (map fst sc0 ++ map fst entries) ->
    install entries sc0 = (sc, None) ->
    exists added, sc = sc0 ++ added /\ Forall2 installs entries added.
Proof.
  induction entries as [|[id val] rest IH]; intros sc0 sc Hnd H; cbn [install] in H.
  - injection H as <-. exists []. rewrite app_nil_r. split; constructor.
  - destruct (VALID_IDENTIFIER id) eqn:Hid; [|discriminate].
    assert (Hnew : ~ In id (map fst sc0)).
    { cbn [map fst] in Hnd. apply NoDup_remove_2 in Hnd.
      intros Hin. apply Hnd. apply in_or_app. left. exact Hin. }
    assert (Hnd' : forall v, List.NoDup (map fst (sc0 ++ [(id, v)]) ++ map fst rest)).
    { intros v. rewrite map_app, <- app_assoc. exact Hnd. }
    destruct val as [f|r].
    + rewrite scope_set_new in H by exact Hnew.
      destruct (IH _ _ (Hnd' _) H) as (added & -> & Hadd).
      exists ((id, SFun f) :: added). rewrite <- app_assoc. split; [reflexivity|].
      constructor; [|exact Hadd]. repeat split; assumption.
    + destruct (construct r) as [x|] eqn:Ec; [|discriminate].
      rewrite scope_set_new in H by exact Hnew.
      destruct (IH _ _ (Hnd' _) H) as (added & -> & Hadd).
      exists ((id, SDec x) :: added). rewrite <- app_assoc. split; [reflexivity|].
      constructor; [|exact Hadd]. split; [reflexivity|]. split; [exact Hid|].
      exists x. split; [exact Ec | reflexivity].
Qed.

Lemma installs_keys (entries : list (str * scope_value)) (sc : scope_object) :
  Forall2 installs entries sc -> map fst entries = map fst sc.
Proof.
  induction 1 as [|kv ks es sc (Hk & _) _ IH]; [reflexivity|].
  cbn [map]. rewrite Hk, IH. reflexivity.
Qed.

Lemma installs_install (entries : list (str * scope_value)) :
  forall (sc0 sc : scope_object),
    List.NoDup (map fst sc0 ++ map fst entries) ->
    Forall2 installs entries sc -> install entries sc0 = (sc0 ++ sc, None).
Proof.
  induction entries as [|[id val] rest IH]; intros sc0 sc Hnd H;
    inversion H as [|? [k s] ? sc' (Hk & Hid & Hval) Hrest]; subst; cbn [install].
  - rewrite app_nil_r. reflexivity.
  - cbn [fst snd] in *. subst k. rewrite Hid.
    assert (Hnew : ~ In id (map fst sc0)).
    { cbn [map fst] in Hnd. apply NoDup_remove_2 in Hnd.
      intros Hin. apply Hnd. apply in_or_app. left. exact Hin. }
    assert (Hnd' : forall v, List.NoDup (map fst (sc0 ++ [(id, v)]) ++ map fst rest)).
    { intros v. rewrite map_app, <- app_assoc. exact Hnd. }
    destruct val as [f|r].
    + subst s. rewrite scope_set_new by exact Hnew.
      rewrite (IH _ sc' (Hnd' _) Hrest), <- app_assoc. reflexivity.
    + destruct Hval as (x & -> & ->). rewrite scope_set_new by exact Hnew.
      rewrite (IH _ sc' (Hnd' _) Hrest), <- app_assoc. reflexivity.
Qed.

(** One accepted re-binding is the setting of the property in the object
    that the scope was installed from. *)
Lemma installs_rebind (entries : list (str * scope_value)) (sc sc' : scope_object)
    (id : str) (val : scope_value) :
  Forall2 installs entries sc ->
  rebind [(id, val)] sc = (sc', None) ->
  Forall2 installs (entry_set entries id val) sc'.
Proof.
  intros H. revert sc'. induction H as [|[k w] [k' s] es sc0 (Hk & Hid & Hval) Hrest IH];
    intros sc' Hr; cbn [rebind] in Hr.
  - discriminate.
  - cbn [fst snd] in *. subst k'. cbn [scope_get] in Hr. cbn [entry_set].
    destruct (str_eqb k id) eqn:E.
    + destruct s as [f|x].
      * destruct val as [g|r]; [|discriminate]. cbn [scope_set] in Hr.
        rewrite E in Hr. injection Hr as <-.
        constructor; [|exact Hrest]. repeat split; assumption.
      * destruct val as [g|r]; [discriminate|].
        destruct (construct r) as [y|] eqn:Ec; [|discriminate].
        cbn [scope_set] in Hr. rewrite E in Hr. injection Hr as <-.
        constructor; [|exact Hrest]. split; [reflexivity|]. split; [exact Hid|].
        exists y. split; [exact Ec | reflexivity].
    + assert (Hr0 : exists sc1, rebind [(id, val)] sc0 = (sc1, None)
                                /\ sc' = (k, s) :: sc1).
      { cbn [rebind].
        destruct (scope_get sc0 id) as [[f|x]|]; [| |discriminate].
        - destruct val as [g|r]; [|discriminate]. cbn [scope_set] in Hr.
          rewrite E in Hr. injection Hr as <-. eexists. split; reflexivity.
        - destruct val as [g|r]; [discriminate|].
          destruct (construct r); [|discriminate]. cbn [scope_set] in Hr.
          rewrite E in Hr. injection Hr as <-. eexists. split; reflexivity. }
      destruct Hr0 as (sc1 & Hr1 & ->).
      constructor; [repeat split; assumption | apply IH, Hr1].
Qed.

Lemma rebind_cons (id : str) (val : scope_value)
    (rest : list (str * scope_value)) (sc sc' : scope_object) :
  rebind ((id, val) :: rest) sc = (sc', None) ->
  exists sc1, rebind [(id, val)] sc = (sc1, None) /\ rebind rest sc1 = (sc', None).
Proof.
  cbn [rebind]. destruct (scope_get sc id) as [[f|x]|]; [| |discriminate].
  - destruct val as [g|r]; [|discriminate]. intros H. eexists. split; [reflexivity | exact H].
  - destruct val as [g|r]; [discriminate|].
    destruct (construct r); [|discriminate].
    intros H. eexists. split; [reflexivity | exact H].
Qed.

Lemma installs_merge (updates : list (str * scope_value)) :
  forall (entries : list (str * scope_value)) (sc sc' : scope_object),
    Forall2 installs entries sc ->
    rebind updates sc = (sc', None) ->
    Forall2 installs (merge entries updates) sc'.
Proof.
  induction updates as [|[id val] rest IH]; intros entries sc sc' H Hr.
  - cbn in Hr. injection Hr as <-. exact H.
  - apply rebind_cons in Hr as (sc1 & H1 & Hrest).
    cbn [merge fold_left fst snd]. apply (IH _ sc1 sc'); [|exact Hrest].
    apply (installs_rebind entries sc sc1 id val H H1).
Qed.

(** After a call with a text and a scope that has got as far as the
    tokens, a call with an object of re-bindings that are accepted does
    what a call with the same text and the scope with these bindings set
    in it would have done: the same answer and the same state.  No key of
    the scope object is the name of a member of [Object.prototype],
    [__proto__] and [hasOwnProperty] among them. *)
Theorem rebinding_is_a_new_call (st : state) (text : str)
    (entries updates : list (str * scope_value)) (sc sc' : scope_object)
    (Htext : forallb is_space text = false)
    (Hnames : ordinary_keys entries = true)
    (Hkeys : List.NoDup (map fst entries))
    (Hinstall : install entries [] = (sc, None))
    (Hlexed : TOKENS (snd (evaluator st (JString text) (JObject entries))) <> None)
    (Hrebind : rebind updates sc = (sc', None)) :
  evaluator (snd (evaluator st (JString text) (JObject entries)))
    (JObject updates) JUndefined
  = evaluator st (JString text) (JObject (merge entries updates)).
Proof.
  clear Hnames.
  assert (Hshape : shape sc' = shape sc).
  { pose proof (rebind_shape updates sc) as H. rewrite Hrebind in H. exact H. }
  pose proof (shape_keys _ _ Hshape) as Hk.
  assert (Hinstall' : install (merge entries updates) [] = (sc', None)).
  { destruct (install_distinct entries [] sc Hkeys Hinstall) as (added & -> & Hadd).
    cbn [app] in *.
    pose proof (installs_merge updates entries added sc' Hadd Hrebind) as Hm.
    apply (installs_install _ [] sc'); [|exact Hm].
    cbn [map app]. rewrite (installs_keys _ _ Hm), Hk, <- (installs_keys _ _ Hadd).
    exact Hkeys. }
  rewrite (evaluator_installed st text entries sc Htext Hinstall) in *.
  rewrite (evaluator_installed st text (merge entries updates) sc' Htext Hinstall').
  cbn zeta in *. rewrite Hk in *.
  set (ids := match map fst sc with
              | [] => DEFAULT_TOKENIZER
              | _ :: _ => sort_longestFirst (map fst sc)
              end) in *.
  rewrite (tokenize_shape sc' sc ids Hshape).
  set (lexed := tokenize (S (length (replace_power text))) sc ids
                  (replace_power text) [] []) in *.
  assert (Hfuel : lexed <> LexFuel) by (apply tokenize_fuel; lia).
  destruct lexed as [toks parsed|c|]; [| |contradiction].
  - rewrite (surjective_pairing (evaluate_tokens (State sc _ _ _))).
    rewrite evaluate_tokens_state. cbn [snd].
    unfold evaluator. cbn [TOKENS SCOPE]. rewrite Hrebind. reflexivity.
  - cbn [snd TOKENS] in Hlexed. contradiction.
Qed.

(** ** A name that the scope does not have *)

Lemma lex_identifier_other (ids : list str) (c : Z) (rest : str) :
  Forall (fun id => match id with d :: _ => d <> c | [] => False end) ids ->
  lex_identifier ids (c :: rest) = None.
Proof.
  induction 1 as [|id ids Hid _ IH]; [reflexivity|].
  cbn [lex_identifier]. destruct id as [|d id]; [contradiction|].
  cbn [strip_prefix]. destruct (Z.eqb_spec d c); [contradiction | exact IH].
Qed.

Lemma identifier_start_no_operator (c : Z) (rest : str) :
  is_identifier_start c = true ->
  (c =? 41) = false /\ lex_operator (c :: rest) = None.
Proof.
  unfold is_identifier_start, is_greek, between.
  rewrite !orb_true_iff, !andb_true_iff, !Z.leb_le, !Z.eqb_eq. intros H.
  assert (Hne : forall k, In k [41; 33; 60; 62; 61; 45; 43; 42; 47; 40; 94; 37;
                               0x221a; 44; 38; 124] -> (c =? k) = false).
  { intros k Hk. apply Z.eqb_neq. cbn [In] in Hk. lia. }
  split; [apply Hne; cbn; tauto|].
  unfold lex_operator.
  rewrite !(Hne 33), !(Hne 60), !(Hne 62), !(Hne 61), !(Hne 45), !(Hne 43),
    !(Hne 42), !(Hne 47), !(Hne 40), !(Hne 94), !(Hne 37), !(Hne 0x221a),
    !(Hne 44), !(Hne 38), !(Hne 124) by (cbn; tauto).
  destruct rest as [|c' r']; [reflexivity|].
  destruct (c' =? 61); reflexivity.
Qed.

(** A text that begins with a letter, [_], [$] or a Greek letter with
    which no identifier of the scope begins raises the error of an
    unknown symbol, with that code unit, and leaves no tokens in store:
    a name that the scope does not have is not read as a variable. *)
Theorem unbound_name_is_an_unknown_symbol (st : state)
    (entries : list (str * scope_value)) (sc : scope_object) (c : Z) (rest : str)
    (Hinstall : install entries [] = (sc, None))
    (Hc : is_identifier_start c = true)
    (Hnone : Forall (fun id => match id with d :: _ => d <> c | [] => True end)
               (map fst sc)) :
  let r := evaluator st (JString (c :: rest)) (JObject entries) in
  fst r = Throws (UnknownSymbol (Some c))
  /\ TOKENS (snd r) = None /\ SCOPE (snd r) = sc.
Proof.
  cbn zeta.
  destruct (identifier_start_class c Hc) as (Hsp & Hdg & Hstar).
  rewrite (evaluator_installed st (c :: rest) entries sc);
    [|cbn [forallb]; rewrite Hsp; reflexivity | exact Hinstall].
  cbn zeta.
  set (ids := match map fst sc with
              | [] => DEFAULT_TOKENIZER
              | _ :: _ => sort_longestFirst (map fst sc)
              end).
  assert (Hids : Forall (fun id => match id with d :: _ => d <> c | [] => False end) ids).
  { unfold ids. destruct (map fst sc) as [|k ks] eqn:Ek.
    - repeat constructor. intros E. subst c. discriminate Hdg.
    - rewrite List.Forall_forall in Hnone |- *. intros id Hin.
      apply (proj1 (sort_longestFirst_In _ _)) in Hin. rewrite <- Ek in Hin.
      assert (Hv : VALID_IDENTIFIER id = true).
      { assert (Hvk : valid_keys (map fst sc))
          by (eapply install_valid; [exact Hinstall | constructor]).
        unfold valid_keys in Hvk. rewrite List.Forall_forall in Hvk. apply Hvk, Hin. }
      rewrite Ek in Hin. specialize (Hnone id Hin).
      destruct id; [discriminate | exact Hnone]. }
  assert (Hhead : exists t, replace_power (c :: rest) = c :: t).
  { destruct rest as [|c' rest']; [exists []; reflexivity|].
    rewrite replace_power_two, Hstar. cbn [andb]. eexists. reflexivity. }
  destruct Hhead as [t Ht]. rewrite Ht. cbn [length tokenize].
  assert (Hn : lex_number (c :: t) = None).
  { unfold lex_number. cbn [span_digits]. rewrite Hdg. reflexivity. }
  rewrite Hn, (lex_identifier_other ids c t Hids).
  destruct (identifier_start_no_operator c t Hc) as [-> ->].
  rewrite Hsp. repeat split.
Qed.

(** ** The text in store *)

Lemma span_digits_spec (s : str) :
  forallb is_digit (fst (span_digits s)) = true
  /\ s = fst (span_digits s) ++ snd (span_digits s).
Proof.
  induction s as [|c s [IH1 IH2]]; [split; reflexivity|].
  cbn [span_digits]. destruct (is_digit c) eqn:E; [|split; reflexivity].
  destruct (span_digits s) as [ds r]. cbn [fst snd] in *.
  cbn [forallb app]. rewrite E, IH1. split; [reflexivity | congruence].
Qed.

Lemma digits_number_units (s : str) :
  forallb is_digit s = true -> forallb number_unit s = true.
Proof.
  induction s as [|c s IH]; [reflexivity|]. cbn [forallb].
  intros H. apply andb_prop in H as [Hc Hs]. unfold number_unit at 1.
  rewrite Hc, (IH Hs). reflexivity.
Qed.

Lemma forallb_cons {A} (f : A -> bool) (x : A) (l : list A) :
  forallb f (x :: l) = f x && forallb f l.
Proof. reflexivity. Qed.

Lemma lex_number_units (s m r : str) :
  lex_number s = Some (m, r) -> forallb number_unit m = true.
Proof.
  unfold lex_number. pose proof (span_digits_spec s) as [Hd _].
  destruct (span_digits s) as [int r0]. cbn [fst] in Hd.
  destruct int as [|d int]; [discriminate|].
  apply digits_number_units in Hd.
  assert (Hf : forallb number_unit (fst (lex_fraction r0)) = true).
  { unfold lex_fraction. destruct r0 as [|c r1]; [reflexivity|].
    destruct (Z.eqb_spec c 46) as [->|]; [|reflexivity].
    pose proof (span_digits_spec r1) as [Hd1 _].
    destruct (span_digits r1) as [[|d1 ds] r2]; [reflexivity|].
    cbn [fst] in *. rewrite forallb_cons, (digits_number_units _ Hd1). reflexivity. }
  destruct (lex_fraction r0) as [frac r1]. cbn [fst] in Hf.
  assert (He : forallb number_unit (fst (lex_exponent r1)) = true).
  { unfold lex_exponent. destruct r1 as [|c r2]; [reflexivity|].
    destruct ((c =? 101) || (c =? 69)) eqn:Ec; [|reflexivity].
    assert (Hc : number_unit c = true).
    { unfold number_unit. apply orb_prop in Ec as [->| ->];
        rewrite ?orb_true_r; reflexivity. }
    assert (Hgo : forall sg r3,
      forallb number_unit sg = true ->
      forallb number_unit
        (fst (match span_digits r3 with
              | ([], _) => ([], c :: r2)
              | ((_ :: _) as ds, r4) => (c :: sg ++ ds, r4)
              end)) = true).
    { intros sg r3 Hsg. pose proof (span_digits_spec r3) as [Hd3 _].
      destruct (span_digits r3) as [[|d3 ds] r4]; [reflexivity|].
      pose proof (digits_number_units _ Hd3) as H3. cbn [fst] in *.
      rewrite forallb_cons, Hc, forallb_app, Hsg, H3. reflexivity. }
    destruct r2 as [|c1 r3]; [reflexivity|].
    destruct ((c1 =? 43) || (c1 =? 45)) eqn:Es.
    - apply Hgo. cbn [forallb]. unfold number_unit.
      apply orb_prop in Es as [->| ->]; rewrite ?orb_true_r; reflexivity.
    - apply (Hgo [] (c1 :: r3)). reflexivity. }
  destruct (lex_exponent r1) as [ex r2]. cbn [fst] in He.
  intros [= <- _]. rewrite forallb_cons in Hd. apply andb_prop in Hd as [Hd1 Hd2].
  change (forallb number_unit (d :: int ++ frac ++ ex) = true).
  rewrite forallb_cons, !forallb_app, Hd1, Hd2, Hf, He. reflexivity.
Qed.

Lemma number_unit_class (c : Z) :
  number_unit c = true -> is_space c = false /\ (c =? 42) = false.
Proof.
  unfold number_unit, is_space, is_digit, between.
  rewrite !orb_true_iff, !andb_true_iff, !Z.leb_le, !Z.eqb_eq.
  intros H.
  repeat rewrite orb_false_iff. repeat rewrite andb_false_iff.
  repeat rewrite Z.leb_gt. repeat rewrite Z.eqb_neq.
  lia.
Qed.

Lemma identifier_part_no_space (c : Z) :
  is_identifier_part c = true -> is_space c = false.
Proof.
  unfold is_identifier_part, is_word, is_space, is_digit, is_greek, between.
  rewrite !orb_true_iff, !andb_true_iff, !Z.leb_le, !Z.eqb_eq.
  intros H.
  repeat rewrite orb_false_iff. repeat rewrite andb_false_iff.
  repeat rewrite Z.leb_gt. repeat rewrite Z.eqb_neq.
  lia.
Qed.

Lemma forallb_impl {A} (f g : A -> bool) (l : list A) :
  (forall x, f x = true -> g x = true) -> forallb f l = true -> forallb g l = true.
Proof.
  intros H. induction l as [|x l IH]; [reflexivity|]. cbn [forallb].
  intros Hl. apply andb_prop in Hl as [Hx Hl]. rewrite (H x Hx), (IH Hl). reflexivity.
Qed.

Lemma number_no_space (s m r : str) :
  lex_number s = Some (m, r) -> no_space m = true.
Proof.
  intros H. apply lex_number_units in H. unfold no_space.
  eapply forallb_impl; [|exact H]. intros c Hc.
  destruct (number_unit_class c Hc) as [-> _]. reflexivity.
Qed.

Lemma identifier_no_space (id : str) :
  VALID_IDENTIFIER id = true -> no_space id = true.
Proof.
  destruct id as [|c rest]; [discriminate|]. cbn [VALID_IDENTIFIER].
  intros H. apply andb_prop in H as [Hc Hr]. unfold no_space. cbn [forallb].
  destruct (identifier_start_class c Hc) as (-> & _ & _). cbn [negb andb].
  eapply forallb_impl; [|exact Hr]. intros d Hd.
  rewrite (identifier_part_no_space d Hd). reflexivity.
Qed.

Lemma valid_clean (ids : list str) : valid_keys ids -> clean ids.
Proof.
  unfold valid_keys, clean. intros Hv. eapply List.Forall_impl; [|exact Hv].
  intros id H. split.
  - intros ->. discriminate.
  - apply identifier_no_space, H.
Qed.

Lemma lex_identifier_In (ids : list str) (s m r : str) :
  lex_identifier ids s = Some (m, r) -> In m ids.
Proof.
  induction ids as [|id ids IH]; cbn [lex_identifier]; [discriminate|].
  destruct (strip_prefix id s); [intros [= <- _]; left; reflexivity|].
  intros H. right. exact (IH H).
Qed.

Lemma no_space_app (a b : str) :
  no_space (a ++ b) = no_space a && no_space b.
Proof. unfold no_space. apply forallb_app. Qed.

Lemma symbol_no_space (op : operator) : no_space (symbol op) = true.
Proof. destruct op; reflexivity. Qed.

Lemma implicit_times_no_space (r : str) (T : list token) (p : str) :
  no_space p = true -> no_space (snd (implicit_times r T p)) = true.
Proof.
  intros H. unfold implicit_times. destruct (lookahead r); cbn [snd]; [|exact H].
  rewrite no_space_app, H. reflexivity.
Qed.

(** The text that the tokenizer puts together has no white space. *)
Lemma tokenize_no_space (sc : scope_object) (ids : list str) :
  clean ids ->
  forall (fuel : nat) (s : str) (T T' : list token) (p p' : str),
    no_space p = true ->
    tokenize fuel sc ids s T p = Lexed T' p' -> no_space p' = true.
Proof.
  intros Hc. induction fuel as [|fuel IH]; intros s T T' p p' Hp H; [discriminate|].
  cbn [tokenize] in H.
  destruct (lex_number s) as [[m r]|] eqn:En.
  { pose proof (implicit_times_no_space r (T ++ [TNum (ofLiteral m)]) (p ++ m)) as Hi.
    destruct (implicit_times _ _ _) as [T1 p1]. cbn [snd] in Hi.
    eapply IH; [|exact H]. apply Hi.
    rewrite no_space_app, Hp, (number_no_space _ _ _ En). reflexivity. }
  destruct (lex_identifier ids s) as [[m r]|] eqn:Ei.
  { destruct m as [|c m]; [discriminate|].
    assert (Hm : no_space (c :: m) = true).
    { apply lex_identifier_In in Ei. unfold clean in Hc.
      rewrite List.Forall_forall in Hc. apply (Hc _ Ei). }
    assert (Hpm : no_space (p ++ c :: m) = true)
      by (rewrite no_space_app, Hp, Hm; reflexivity).
    pose proof (implicit_times_no_space r (T ++ [TVar (c :: m)]) (p ++ c :: m) Hpm) as Hi.
    destruct (scope_get sc (c :: m)) as [[f|x]|];
      try (eapply IH; [|exact H]; exact Hpm);
      destruct (implicit_times _ _ _) as [T1 p1]; cbn [snd] in Hi;
      (eapply IH; [|exact H]; exact Hi). }
  destruct s as [|c r]; [injection H as _ <-; exact Hp|].
  destruct (c =? 41).
  { pose proof (implicit_times_no_space r (T ++ [TOp RParen]) (p ++ [41])) as Hi.
    destruct (implicit_times _ _ _) as [T1 p1]. cbn [snd] in Hi.
    eapply IH; [|exact H]. apply Hi. rewrite no_space_app, Hp. reflexivity. }
  destruct (lex_operator (c :: r)) as [[op r']|].
  { eapply IH; [|exact H]. rewrite no_space_app, Hp, symbol_no_space. reflexivity. }
  destruct (is_space c); [|discriminate].
  eapply IH; [exact Hp | exact H].
Qed.

Lemma reachable_clean (st : state) :
  reachable st ->
  clean (TOKENIZER st)
  /\ forall p, eval_expression st = Some p -> no_space p = true.
Proof.
  induction 1 as [|st expression scope _ [IHt IHe]].
  - split; [|discriminate]. repeat constructor. discriminate.
  - assert (Hlex : forall st1 text,
      clean (TOKENIZER st1) ->
      (forall p, eval_expression st1 = Some p -> no_space p = true) ->
      let r := match tokenize (S (length text)) (SCOPE st1) (TOKENIZER st1) text [] [] with
               | Lexed toks parsed =>
                   evaluate_tokens
                     (State (SCOPE st1) (TOKENIZER st1) (Some (toks ++ [TEnd])) (Some parsed))
               | Unknown c => (Throws (UnknownSymbol c), with_TOKENS st1 None)
               | LexFuel => (Pending, with_TOKENS st1 (Some []))
               end in
      clean (TOKENIZER (snd r))
      /\ forall p, eval_expression (snd r) = Some p -> no_space p = true).
    { intros st1 text Hc He. cbn zeta.
      destruct (tokenize _ _ _ _ _ _) as [toks parsed|c|] eqn:E;
        [|split; assumption|split; assumption].
      rewrite evaluate_tokens_state. cbn [TOKENIZER eval_expression].
      split; [exact Hc|]. intros p [= <-].
      eapply (tokenize_no_space _ _ Hc); [|exact E]. reflexivity. }
    unfold evaluator. destruct expression as [text|entries| |];
      try (split; assumption).
    + destruct (trim text); [split; assumption|].
      destruct scope as [s0|entries| |]; try (split; assumption).
      * destruct (install entries []) as [sc [err|]] eqn:Ei; [split; assumption|].
        apply Hlex; [|exact IHe]. cbn [TOKENIZER].
        destruct (map fst sc) eqn:Ek; [repeat constructor; discriminate|].
        rewrite <- Ek. apply valid_clean, sort_longestFirst_valid.
        eapply install_valid; [exact Ei | constructor].
      * apply Hlex; assumption.
    + destruct scope; try (split; assumption).
      destruct (TOKENS st); [|split; assumption].
      destruct (rebind entries (SCOPE st)) as [sc [err|]]; [split; assumption|].
      rewrite evaluate_tokens_state. split; assumption.
Qed.

(** Whatever calls have been made, the text in store at
    [Decimal.eval.expression] holds no white space. *)
Theorem stored_expression_has_no_white_space (st : state) (p : str)
    (Hst : reachable st) (Hp : eval_expression st = Some p) :
  no_space p = true.
Proof. exact (proj2 (reachable_clean st Hst) p Hp). Qed.


(** ** A number *)

Lemma lex_identifier_empty (ids : list str) :
  clean ids -> lex_identifier ids [] = None.
Proof.
  intros Hc. induction Hc as [|id ids [Hne _] _ IH]; [reflexivity|].
  cbn [lex_identifier]. destruct id; [contradiction | exact IH].
Qed.

(** A text that the pattern of a number matches whole, digits with an
    optional fraction and an optional exponent, evaluates to a copy of
    the Decimal that the constructor makes of that text, in whatever
    state the evaluator is; the text is put in store as it is. *)
Theorem number_evaluates_to_its_decimal (st : state) (m : str)
    (Hst : reachable st) (Hm : lex_number m = Some (m, [])) :
  evaluator st (JString m) JUndefined
  = (Returns (copy (ofLiteral m)),
     State (SCOPE st) (TOKENIZER st) (Some [TNum (ofLiteral m); TEnd]) (Some m)).
Proof.
  pose proof (lex_number_units _ _ _ Hm) as Hu.
  destruct (reachable_clean st Hst) as [Hc _].
  destruct m as [|c m'] eqn:Em; [discriminate|]. rewrite <- Em in *.
  assert (Hcu : number_unit c = true).
  { rewrite Em in Hu. cbn [forallb] in Hu. apply andb_prop in Hu as [Hu _]. exact Hu. }
  destruct (number_unit_class c Hcu) as [Hsp _].
  assert (Hstar : replace_power m = m).
  { apply replace_power_none. eapply forallb_impl; [|exact Hu].
    intros d Hd. destruct (number_unit_class d Hd) as [_ ->]. reflexivity. }
  unfold evaluator. destruct (trim m) eqn:Et.
  { apply trim_nil in Et. rewrite Em in Et. cbn [forallb] in Et.
    rewrite Hsp in Et. discriminate. }
  rewrite Hstar.
  rewrite (tokenize_number _ _ _ m m [] [] []) by exact Hm.
  change (lookahead []) with false. cbn iota. cbn [app].
  rewrite Em at 1. cbn [length tokenize].
  change (lex_number []) with (@None (str * str)).
  rewrite (lex_identifier_empty _ Hc). cbn [app].
  unfold evaluate_tokens. cbn [TOKENS SCOPE].
  unfold run. cbn. reflexivity.
Qed.

(** ** More fuel does not change an outcome *)

Lemma below_refl {A} (a : outcome A) : below a a.
Proof. right. reflexivity. Qed.

Lemma below_bind {A B} (m m' : outcome A) (k k' : A -> nat -> outcome B) :
  below m m' -> (forall a i, below (k a i) (k' a i)) ->
  below (bind m k) (bind m' k').
Proof.
  intros [->| ->] Hk; [left; reflexivity|].
  destruct m' as [a i|err|]; cbn [bind]; [apply Hk | apply below_refl | apply below_refl].
Qed.

Lemma below_infix (ev ev' : Z -> nat -> outcome value) (op : operator)
    (left : value) (index : nat) :
  (forall rbp i, below (ev rbp i) (ev' rbp i)) ->
  below (infix ev op left index) (infix ev' op left index).
Proof.
  intros H.
  assert (Hm : forall A (fn : Decimal -> Decimal -> A) wrap rbp,
    below (method_infix ev fn wrap rbp left index)
          (method_infix ev' fn wrap rbp left index)).
  { intros A fn wrap rbp. unfold method_infix.
    destruct left; try apply below_refl;
      (apply below_bind; [apply H | intros; apply below_refl]). }
  destruct op; cbn [infix]; try apply Hm; try apply below_refl;
    (apply below_bind; [apply H | intros; apply below_refl]).
Qed.

Lemma below_op_prefix (toks : list token) (ev ev' : Z -> nat -> outcome value)
    (op : operator) (index : nat) :
  (forall rbp i, below (ev rbp i) (ev' rbp i)) ->
  below (op_prefix toks ev op index) (op_prefix toks ev' op index).
Proof.
  intros H. destruct op; cbn [op_prefix]; try apply below_refl; try apply H;
    (apply below_bind; [apply H | intros; apply below_refl]).
Qed.

Section FuelOrder.
Variable sc : scope_object.
Variable toks : list token.

Lemma one_more :
  forall fuel,
    (forall rbp i, below (evaluate sc toks fuel rbp i) (evaluate sc toks (S fuel) rbp i))
    /\ (forall rbp left i,
          below (infix_loop sc toks fuel rbp left i)
                (infix_loop sc toks (S fuel) rbp left i))
    /\ (forall name i,
          below (funcPrefix sc toks fuel name i) (funcPrefix sc toks (S fuel) name i))
    /\ (forall name args i,
          below (arguments sc toks fuel name args i)
                (arguments sc toks (S fuel) name args i)).
Proof.
  induction fuel as [|fuel (IHe & IHl & IHf & IHa)].
  { repeat apply conj; intros; left; reflexivity. }
  repeat apply conj.
  - intros rbp i. cbn [evaluate]. destruct (toks !! i) as [t|]; [|apply below_refl].
    destruct (has_prefix t); [|apply below_refl].
    apply below_bind; [|intros; apply IHl].
    destruct t; try apply below_refl.
    + apply below_op_prefix, IHe.
    + apply IHf.
  - intros rbp left i. cbn [infix_loop].
    destruct (toks !! i) as [t|]; [|apply below_refl].
    destruct (binds rbp t); [|apply below_refl].
    destruct t; try apply below_refl.
    apply below_bind; [apply below_infix, IHe | intros; apply IHl].
  - intros name i. cbn [funcPrefix]. unfold expect.
    destruct (toks !! i) as [t|]; [|apply below_refl].
    destruct (val_is t [40]); [|apply below_refl].
    destruct (toks !! S i) as [t'|]; [|apply below_refl].
    destruct (val_is t' [41]); [apply below_refl | apply IHa].
  - intros name args i. cbn [arguments].
    apply below_bind; [apply IHe|]. intros a j.
    destruct (toks !! j) as [t|]; [|apply below_refl].
    destruct (val_is t [44]); [apply IHa|].
    destruct (val_is t [41]); apply below_refl.
Qed.

Lemma below_trans {A} (a b c : outcome A) : below a b -> below b c -> below a c.
Proof. intros [->| ->] H; [left; reflexivity | exact H]. Qed.

Lemma more_fuel (fuel k : nat) :
  (forall rbp i, below (evaluate sc toks fuel rbp i) (evaluate sc toks (fuel + k) rbp i))
  /\ (forall rbp left i,
        below (infix_loop sc toks fuel rbp left i)
              (infix_loop sc toks (fuel + k) rbp left i))
  /\ (forall name i,
        below (funcPrefix sc toks fuel name i) (funcPrefix sc toks (fuel + k) name i))
  /\ (forall name args i,
        below (arguments sc toks fuel name args i)
              (arguments sc toks (fuel + k) name args i)).
Proof.
  induction k as [|k (IHe & IHl & IHf & IHa)].
  { rewrite Nat.add_0_r. repeat apply conj; intros; apply below_refl. }
  replace (fuel + S k)%nat with (S (fuel + k)) by lia.
  destruct (one_more (fuel + k)) as (He & Hl & Hf & Ha).
  repeat apply conj; intros; eapply below_trans; eauto.
Qed.

Lemma evaluate_more (fuel fuel' : nat) (rbp : Z) (i : nat) (v : value) (j : nat) :
  evaluate sc toks fuel rbp i = Done v j -> (fuel <= fuel')%nat ->
  evaluate sc toks fuel' rbp i = Done v j.
Proof.
  intros H Hle. replace fuel' with (fuel + (fuel' - fuel))%nat by lia.
  destruct (proj1 (more_fuel fuel (fuel' - fuel)) rbp i) as [E|E]; congruence.
Qed.

Lemma infix_loop_more (fuel fuel' : nat) (rbp : Z) (left : value) (i : nat)
    (r : outcome value) :
  infix_loop sc toks fuel rbp left i = r -> r <> OutOfFuel -> (fuel <= fuel')%nat ->
  infix_loop sc toks fuel' rbp left i = r.
Proof.
  intros H Hr Hle. replace fuel' with (fuel + (fuel' - fuel))%nat by lia.
  destruct (proj1 (proj2 (more_fuel fuel (fuel' - fuel))) rbp left i) as [E|E]; congruence.
Qed.

Lemma arguments_more (fuel fuel' : nat) (name : str) (args : list value) (i : nat)
    (v : value) (j : nat) :
  arguments sc toks fuel name args i = Done v j -> (fuel <= fuel')%nat ->
  arguments sc toks fuel' name args i = Done v j.
Proof.
  intros H Hle. replace fuel' with (fuel + (fuel' - fuel))%nat by lia.
  destruct (proj2 (proj2 (proj2 (more_fuel fuel (fuel' - fuel)))) name args i) as [E|E];
    congruence.
Qed.

End FuelOrder.


(** ** The evaluator reads a tree from its tokens *)

Lemma expr_induction (P : expr -> Prop) :
  (forall m, P (ENum m)) ->
  (forall name, P (EVar name)) ->
  (forall name args, Forall P args -> P (ECall name args)) ->
  (forall e, P e -> P (EParen e)) ->
  (forall op e, P e -> P (EPrefix op e)) ->
  (forall op l r, P l -> P r -> P (EInfix op l r)) ->
  forall e, P e.
Proof.
  intros HNum HVar HCall HParen HPrefix HInfix.
  fix IH 1. intros [x|name|name args|e|op e|op l r].
  - apply HNum.
  - apply HVar.
  - apply HCall. induction args as [|a rest IHargs]; constructor; [apply IH | exact IHargs].
  - apply HParen, IH.
  - apply HPrefix, IH.
  - apply HInfix; apply IH.
Qed.

Lemma lookup_after (pre l : list token) (k : nat) :
  (pre ++ l) !! (length pre + k)%nat = l !! k.
Proof. rewrite lookup_app_r by lia. f_equal. lia. Qed.

Lemma lookup_split (A B : list token) (t : token) (n : nat) :
  n = length A -> (A ++ t :: B) !! n = Some t.
Proof. intros ->. rewrite lookup_app_r by lia. rewrite Nat.sub_diag. reflexivity. Qed.

Lemma lookup_split2 (A l : list token) (t : token) (n : nat) :
  l !! 0%nat = Some t -> length A = n -> (A ++ l) !! n = Some t.
Proof. intros H <-. rewrite lookup_app_r by lia. rewrite Nat.sub_diag. exact H. Qed.

Lemma lookup_at (pre l : list token) : (pre ++ l) !! length pre = l !! 0%nat.
Proof. rewrite <- (Nat.add_0_r (length pre)) at 1. apply lookup_after. Qed.

Lemma right_rbp_nonneg (e : expr) : 0 <= right_rbp e.
Proof.
  induction e using expr_induction; cbn [right_rbp]; try lia.
  - destruct op; cbn [prefix_rbp]; lia.
  - destruct op; cbn [infix_rbp op_lbp]; lia.
Qed.

Lemma binds_min (a b : Z) (t : token) :
  binds (Z.min a b) t = false -> binds a t = false /\ binds b t = false.
Proof.
  unfold binds. destruct (lbp t) as [l|]; [|split; reflexivity].
  rewrite !Z.ltb_ge. lia.
Qed.

Lemma infix_value (ev : Z -> nat -> outcome value) (op : operator)
    (a b v : Decimal) (i j : nat) :
  binary op a b = Some v ->
  ev (infix_rbp op) i = Done (VDec b) j ->
  infix ev op (VDec a) i = Done (VDec v) j.
Proof.
  intros Hb He.
  destruct op; try discriminate; injection Hb as <-;
    cbn [infix method_infix infix_rbp op_lbp is_zero] in *; rewrite He;
    cbn [bind call_method]; try reflexivity;
    destruct (isZero a); reflexivity.
Qed.

Lemma op_prefix_value (toks : list token) (ev : Z -> nat -> outcome value)
    (op : operator) (x v : Decimal) (i j : nat) :
  unary op x = Some v ->
  ev (prefix_rbp op) i = Done (VDec x) j ->
  op_prefix toks ev op i = Done (VDec v) j.
Proof.
  intros Hu He.
  destruct op; try discriminate; injection Hu as <-;
    cbn [op_prefix prefix_rbp] in *; rewrite He; reflexivity.
Qed.

Section Tree.
Variable sc : scope_object.
Hypothesis Hkeys : valid_keys (map fst sc).

Lemma bound_name (name : str) (v : slot) (c : Z) :
  scope_get sc name = Some v -> is_identifier_start c = false ->
  str_eqb name [c] = false.
Proof.
  intros Hg Ht. apply scope_get_key in Hg.
  unfold valid_keys in Hkeys. rewrite List.Forall_forall in Hkeys.
  specialize (Hkeys name Hg).
  destruct (str_eqb name [c]) eqn:E; [|reflexivity].
  apply str_eqb_eq in E. subst name.
  cbn [VALID_IDENTIFIER] in Hkeys. rewrite Ht in Hkeys. discriminate.
Qed.

(** The first token of a tree with a value is no [)]. *)
Lemma first_token (e : expr) (v : Decimal) :
  denote sc e = Some v ->
  exists t rest, tokens_of e = t :: rest /\ val_is t [41] = false.
Proof.
  revert v. induction e as [x|name|name args _|e _|op e _|op l r IHl _]
    using expr_induction; intros v Hv; cbn [tokens_of denote] in *.
  - eexists _, _. split; reflexivity.
  - destruct (scope_get sc name) as [[f|x]|] eqn:E; try discriminate.
    eexists _, _. split; [reflexivity|]. cbn [val_is].
    apply (bound_name name (SDec x)); [exact E | reflexivity].
  - destruct (scope_get sc name) as [[f|x]|] eqn:E; try discriminate.
    eexists _, _. split; [reflexivity|]. cbn [val_is].
    apply (bound_name name (SFun f)); [exact E | reflexivity].
  - eexists _, _. split; reflexivity.
  - destruct (denote sc e) as [x|]; [|discriminate].
    eexists _, _. split; [reflexivity|].
    destruct op; try discriminate; reflexivity.
  - destruct (denote sc l) as [a|]; [|discriminate].
    destruct (IHl a eq_refl) as (t & rest & -> & Ht).
    eexists _, _. split; [reflexivity | exact Ht].
Qed.

(** When the token after a tree does not bind, the loop of the call that
    has read the tree ends at once. *)
Lemma loop_ends (T : list token) (rbp : Z) (left : value) (i : nat) (t : token) :
  T !! i = Some t -> binds rbp t = false ->
  infix_loop sc T 1 rbp left i = Done left i.
Proof. intros Ht Hb. cbn [infix_loop]. rewrite Ht, Hb. reflexivity. Qed.

(** A tree read as an operand: the call returns its value at the token
    after it. *)
Lemma reads_operand (e : expr) (rbp : Z) (pre post : list token) (v : Decimal)
    (t : token) (post' : list token) :
  reads sc e ->
  well_formed rbp e = true -> denote sc e = Some v ->
  post = t :: post' -> binds (right_rbp e) t = false -> binds rbp t = false ->
  exists fuel,
    evaluate sc (pre ++ tokens_of e ++ post) fuel rbp (length pre)
    = Done (VDec v) (length pre + length (tokens_of e)).
Proof.
  intros He Hwf Hv Hpost Hb Hb'.
  apply (He rbp pre post v _ 1%nat Hwf Hv); [eauto | | discriminate].
  apply (loop_ends _ _ _ _ t); [|exact Hb'].
  rewrite app_assoc, <- length_app, lookup_at, Hpost. reflexivity.
Qed.


Lemma funcPrefix_more (toks : list token) (fuel fuel' : nat) (name : str) (i : nat)
    (v : value) (j : nat) :
  funcPrefix sc toks fuel name i = Done v j -> (fuel <= fuel')%nat ->
  funcPrefix sc toks fuel' name i = Done v j.
Proof.
  intros H Hle. replace fuel' with (fuel + (fuel' - fuel))%nat by lia.
  destruct (proj1 (proj2 (proj2 (more_fuel sc toks fuel (fuel' - fuel)))) name i)
    as [E|E]; congruence.
Qed.

(** One step of [evaluate] on a token with a prefix function. *)
Lemma evaluate_step (T : list token) (fuel : nat) (rbp : Z) (i : nat) (t : token)
    (left : value) (j : nat) (r : outcome value) :
  T !! i = Some t -> has_prefix t = true ->
  match t with
  | TNum x => Done (VDec x) (S i)
  | TVar name => Done (varPrefix sc name) (S i)
  | TFunc name => funcPrefix sc T fuel name (S i)
  | TOp op => op_prefix T (evaluate sc T fuel) op (S i)
  | TEnd => Throw EngineTypeError
  end = Done left j ->
  infix_loop sc T fuel rbp left j = r ->
  evaluate sc T (S fuel) rbp i = r.
Proof.
  intros Ht Hp Hl Hr.
  transitivity (bind (Done left j)
                  (fun left index => infix_loop sc T fuel rbp left index));
    [|exact Hr].
  rewrite <- Hl. cbn [evaluate]. rewrite Ht, Hp.
  destruct t; try discriminate; reflexivity.
Qed.

(** One turn of the loop of [evaluate]. *)
Lemma infix_loop_step (T : list token) (fuel : nat) (rbp : Z) (left : value)
    (i : nat) (op : operator) (left' : value) (j : nat) (r : outcome value) :
  T !! i = Some (TOp op) -> binds rbp (TOp op) = true ->
  infix (evaluate sc T fuel) op left (S i) = Done left' j ->
  infix_loop sc T fuel rbp left' j = r ->
  infix_loop sc T (S fuel) rbp left i = r.
Proof.
  intros Ht Hb Hi Hr.
  transitivity (bind (Done left' j)
                  (fun left index => infix_loop sc T fuel rbp left index));
    [|exact Hr].
  rewrite <- Hi. cbn [infix_loop]. rewrite Ht, Hb. reflexivity.
Qed.

Lemma reads_num (m : str) : reads sc (ENum m).
Proof.
  intros rbp pre post v r fuel1 _ Hv _ Hr _. cbn [tokens_of denote] in *.
  injection Hv as <-. exists (S fuel1).
  eapply evaluate_step; [rewrite lookup_at; reflexivity | reflexivity | reflexivity |].
  cbn [length] in Hr. rewrite Nat.add_1_r in Hr. exact Hr.
Qed.

Lemma reads_var (name : str) : reads sc (EVar name).
Proof.
  intros rbp pre post v r fuel1 _ Hv _ Hr _. cbn [tokens_of denote] in *.
  destruct (scope_get sc name) as [[f|x]|] eqn:E; try discriminate.
  injection Hv as ->. exists (S fuel1).
  eapply evaluate_step; [rewrite lookup_at; reflexivity | reflexivity | |].
  - unfold varPrefix. rewrite E. reflexivity.
  - cbn [length] in Hr. rewrite Nat.add_1_r in Hr. exact Hr.
Qed.

Lemma reads_prefix (op : operator) (e : expr) : reads sc e -> reads sc (EPrefix op e).
Proof.
  intros IH rbp pre post v r fuel1 Hwf Hv (t & post' & Hpost & Hb) Hr Hne.
  cbn [tokens_of denote well_formed right_rbp] in *.
  destruct (denote sc e) as [x|] eqn:Ex; [|discriminate].
  apply binds_min in Hb as [Hb1 Hb2].
  destruct (reads_operand e (prefix_rbp op) (pre ++ [TOp op]) post x t post'
              IH Hwf Ex Hpost Hb2 Hb1) as [f2 H2].
  rewrite <- app_assoc in H2. cbn [app] in H2.
  rewrite length_app in H2. cbn [length] in H2.
  exists (S (Nat.max f2 fuel1)).
  eapply evaluate_step; [rewrite lookup_at; reflexivity | | |].
  - destruct op; try discriminate; reflexivity.
  - eapply op_prefix_value; [exact Hv|].
    rewrite <- (Nat.add_1_r (length pre)).
    eapply evaluate_more; [exact H2 | lia].
  - eapply infix_loop_more; [|exact Hne | apply Nat.le_max_r].
    rewrite <- Hr. f_equal. cbn [length]. lia.
Qed.

Lemma reads_paren (e : expr) : reads sc e -> reads sc (EParen e).
Proof.
  intros IH rbp pre post v r fuel1 Hwf Hv _ Hr Hne.
  cbn [tokens_of denote well_formed] in *.
  assert (Hb : binds (right_rbp e) (TOp RParen) = false).
  { unfold binds. cbn [lbp op_lbp]. apply Z.ltb_ge, right_rbp_nonneg. }
  destruct (reads_operand e 0 (pre ++ [TOp LParen]) (TOp RParen :: post) v
              (TOp RParen) post IH Hwf Hv eq_refl Hb eq_refl) as [f2 H2].
  rewrite <- app_assoc in H2. cbn [app] in H2.
  rewrite length_app in H2. cbn [length] in H2.
  set (T := pre ++ TOp LParen :: tokens_of e ++ TOp RParen :: post) in *.
  assert (HT : pre ++ (TOp LParen :: tokens_of e ++ [TOp RParen]) ++ post = T).
  { unfold T. cbn [app]. rewrite <- app_assoc. reflexivity. }
  rewrite HT in *.
  exists (S (Nat.max f2 fuel1)).
  eapply evaluate_step; [unfold T; rewrite lookup_at; reflexivity | reflexivity | |].
  - cbn [op_prefix].
    rewrite <- (Nat.add_1_r (length pre)).
    rewrite (evaluate_more sc T f2 _ _ _ _ _ H2) by lia. cbn [bind]. unfold expect.
    assert (Hl : T !! (length pre + 1 + length (tokens_of e))%nat = Some (TOp RParen)).
    { unfold T.
      change (pre ++ TOp LParen :: tokens_of e ++ TOp RParen :: post)
        with (pre ++ [TOp LParen] ++ tokens_of e ++ TOp RParen :: post).
      rewrite !app_assoc. apply lookup_split.
      rewrite !length_app. reflexivity. }
    rewrite Hl. reflexivity.
  - eapply infix_loop_more; [|exact Hne | apply Nat.le_max_r].
    rewrite <- Hr. f_equal. cbn [length]. rewrite length_app. cbn [length]. lia.
Qed.

Lemma reads_infix (op : operator) (l r : expr) :
  reads sc l -> reads sc r -> reads sc (EInfix op l r).
Proof.
  intros IHl IHr rbp pre post v res fuel1 Hwf Hv (t & post' & Hpost & Hb) Hr Hne.
  cbn [tokens_of denote well_formed right_rbp] in *.
  destruct (denote sc l) as [a|] eqn:Ea; [|discriminate].
  destruct (denote sc r) as [b|] eqn:Eb; [|discriminate].
  apply andb_prop in Hwf as [Hwf Hwr]. apply andb_prop in Hwf as [Hwf Hcl].
  apply andb_prop in Hwf as [Hlt Hwl].
  apply binds_min in Hb as [Hb1 Hb2].
  destruct (reads_operand r (infix_rbp op) (pre ++ tokens_of l ++ [TOp op]) post b
              t post' IHr Hwr Eb Hpost Hb2 Hb1) as [f2 H2].
  set (T := pre ++ (tokens_of l ++ TOp op :: tokens_of r) ++ post) in *.
  assert (HT : (pre ++ tokens_of l ++ [TOp op]) ++ tokens_of r ++ post = T).
  { unfold T. rewrite <- !app_assoc. cbn [app]. reflexivity. }
  rewrite HT in H2. rewrite !length_app in H2. cbn [length] in H2.
  assert (HT' : pre ++ tokens_of l ++ TOp op :: tokens_of r ++ post = T).
  { unfold T. rewrite <- !app_assoc. cbn [app]. reflexivity. }
  rewrite <- HT'.
  apply (IHl rbp pre (TOp op :: tokens_of r ++ post) a res
           (S (Nat.max f2 fuel1)) Hwl Ea).
  - eexists _, _. split; [reflexivity|]. unfold binds. cbn [lbp].
    apply Z.ltb_ge. apply Z.leb_le. exact Hcl.
  - rewrite HT'.
    eapply (infix_loop_step T _ rbp (VDec a) _ op (VDec v)
              (length pre + (length (tokens_of l) + 1) + length (tokens_of r))%nat).
    + rewrite <- HT', app_assoc, <- length_app. rewrite lookup_at. reflexivity.
    + unfold binds. cbn [lbp]. exact Hlt.
    + apply (infix_value _ op a b v _ _ Hv).
      eapply evaluate_more; [|apply Nat.le_max_l].
      rewrite <- H2. f_equal. lia.
    + eapply infix_loop_more; [|exact Hne | apply Nat.le_max_r].
      rewrite <- Hr. f_equal. rewrite length_app. cbn [length]. lia.
  - exact Hne.
Qed.


Lemma funcPrefix_empty (T : list token) (fuel : nat) (name : str) (i : nat) :
  T !! i = Some (TOp LParen) -> T !! S i = Some (TOp RParen) ->
  funcPrefix sc T (S fuel) name i = apply_function sc name [] (S (S i)).
Proof.
  intros H1 H2. cbn [funcPrefix]. unfold expect. rewrite H1, H2. reflexivity.
Qed.

Lemma funcPrefix_arguments (T : list token) (fuel : nat) (name : str) (i : nat)
    (t : token) :
  T !! i = Some (TOp LParen) -> T !! S i = Some t -> val_is t [41] = false ->
  funcPrefix sc T (S fuel) name i = arguments sc T fuel name [] (S i).
Proof.
  intros H1 H2 H3. cbn [funcPrefix]. unfold expect. rewrite H1, H2, H3. reflexivity.
Qed.

Lemma arguments_last (T : list token) (fuel : nat) (name : str)
    (acc : list value) (i : nat) (a : value) (j : nat) :
  evaluate sc T fuel 0 i = Done a j -> T !! j = Some (TOp RParen) ->
  arguments sc T (S fuel) name acc i = apply_function sc name (acc ++ [a]) (S j).
Proof.
  intros He Ht.
  transitivity (bind (Done a j) (fun a index =>
                  match T !! index with
                  | None => Throw EngineTypeError
                  | Some t =>
                      if val_is t [44]
                      then arguments sc T fuel name (acc ++ [a]) (S index)
                      else if val_is t [41]
                           then apply_function sc name (acc ++ [a]) (S index)
                           else Throw ExpectedRParen
                  end)).
  - rewrite <- He. reflexivity.
  - cbn [bind]. rewrite Ht. reflexivity.
Qed.

Lemma arguments_next (T : list token) (fuel : nat) (name : str)
    (acc : list value) (i : nat) (a : value) (j : nat) :
  evaluate sc T fuel 0 i = Done a j -> T !! j = Some (TOp Comma) ->
  arguments sc T (S fuel) name acc i = arguments sc T fuel name (acc ++ [a]) (S j).
Proof.
  intros He Ht.
  transitivity (bind (Done a j) (fun a index =>
                  match T !! index with
                  | None => Throw EngineTypeError
                  | Some t =>
                      if val_is t [44]
                      then arguments sc T fuel name (acc ++ [a]) (S index)
                      else if val_is t [41]
                           then apply_function sc name (acc ++ [a]) (S index)
                           else Throw ExpectedRParen
                  end)).
  - rewrite <- He. reflexivity.
  - cbn [bind]. rewrite Ht. reflexivity.
Qed.

Lemma denote_args_cons (a : expr) (rest : list expr) :
  denote_args sc (a :: rest)
  = match denote sc a, denote_args sc rest with
    | Some x, Some xs => Some (VDec x :: xs)
    | _, _ => None
    end.
Proof. reflexivity. Qed.

Lemma binds_closer (e : expr) (op : operator) :
  op_lbp op = 0 -> binds (right_rbp e) (TOp op) = false /\ binds 0 (TOp op) = false.
Proof.
  intros H. unfold binds. cbn [lbp]. rewrite H. split; [|reflexivity].
  apply Z.ltb_ge, right_rbp_nonneg.
Qed.

(** The loop of [funcPrefix] over the arguments. *)
Lemma reads_arguments (name : str) (f : scope_function) :
  scope_get sc name = Some (SFun f) ->
  forall (rest : list expr) (a : expr) (acc : list value) (pre post : list token)
         (vs : list value) (v : Decimal),
    Forall (reads sc) (a :: rest) ->
    forallb (well_formed 0) (a :: rest) = true ->
    denote_args sc (a :: rest) = Some vs ->
    f (acc ++ vs) = Some v ->
    let body := tokens_of a ++ flat_map (fun b => TOp Comma :: tokens_of b) rest in
    exists fuel,
      arguments sc (pre ++ body ++ TOp RParen :: post) fuel name acc (length pre)
      = Done (VDec v) (length pre + length body + 1).
Proof.
  intros Hf. induction rest as [|b rest IH];
    intros a acc pre post vs v Hreads Hwf Hvs Hv body; subst body.
  - cbn [flat_map]. rewrite app_nil_r.
    inversion Hreads as [|? ? Ha _]; subst.
    cbn [forallb] in Hwf. rewrite andb_true_r in Hwf.
    rewrite denote_args_cons in Hvs. destruct (denote sc a) as [x|] eqn:Ex; [|discriminate].
    cbn in Hvs. injection Hvs as <-.
    destruct (binds_closer a RParen eq_refl) as [Hb1 Hb2].
    destruct (reads_operand a 0 pre (TOp RParen :: post) x (TOp RParen) post
                Ha Hwf Ex eq_refl Hb1 Hb2) as [f2 H2].
    exists (S f2). erewrite arguments_last; [|exact H2|].
    + unfold apply_function. rewrite Hf, Hv. f_equal. lia.
    + rewrite app_assoc. apply lookup_split. rewrite length_app. reflexivity.
  - inversion Hreads as [|? ? Ha Hrest]; subst.
    cbn [forallb] in Hwf. apply andb_prop in Hwf as [Hwa Hwrest].
    rewrite denote_args_cons in Hvs. destruct (denote sc a) as [x|] eqn:Ex; [|discriminate].
    destruct (denote_args sc (b :: rest)) as [vs'|] eqn:Evs; [|discriminate].
    injection Hvs as <-.
    destruct (binds_closer a Comma eq_refl) as [Hb1 Hb2].
    cbn [flat_map].
    set (tail := tokens_of b ++ flat_map (fun b0 => TOp Comma :: tokens_of b0) rest).
    change ((TOp Comma :: tokens_of b) ++ flat_map (fun b0 => TOp Comma :: tokens_of b0) rest)
      with (TOp Comma :: tail).
    set (T := pre ++ (tokens_of a ++ TOp Comma :: tail) ++ TOp RParen :: post).
    assert (HT1 : pre ++ tokens_of a ++ TOp Comma :: tail ++ TOp RParen :: post = T).
    { unfold T. rewrite <- !app_assoc. reflexivity. }
    assert (HT2 : (pre ++ tokens_of a ++ [TOp Comma]) ++ tail ++ TOp RParen :: post = T).
    { unfold T. rewrite <- !app_assoc. reflexivity. }
    destruct (reads_operand a 0 pre (TOp Comma :: tail ++ TOp RParen :: post) x
                (TOp Comma) _ Ha Hwa Ex eq_refl Hb1 Hb2) as [f2 H2].
    rewrite HT1 in H2.
    destruct (IH b (acc ++ [VDec x]) (pre ++ tokens_of a ++ [TOp Comma]) post vs' v
                Hrest Hwrest Evs) as [f3 H3].
    { rewrite <- app_assoc. exact Hv. }
    cbn zeta in H3. fold tail in H3. rewrite HT2 in H3.
    assert (E1 : length (pre ++ tokens_of a ++ [TOp Comma])
                 = S (length pre + length (tokens_of a)))
      by (rewrite !length_app; cbn [length]; lia).
    rewrite E1 in H3.
    exists (S (Nat.max f2 f3)).
    erewrite arguments_next.
    + rewrite (arguments_more sc T f3 _ _ _ _ _ _ H3) by apply Nat.le_max_r.
      f_equal. rewrite !length_app. cbn [length]. lia.
    + eapply evaluate_more; [exact H2 | apply Nat.le_max_l].
    + rewrite <- HT1, app_assoc. apply lookup_split. rewrite length_app. reflexivity.
Qed.

Lemma reads_call (name : str) (args : list expr) :
  Forall (reads sc) args -> reads sc (ECall name args).
Proof.
  intros IH rbp pre post v r fuel1 Hwf Hv _ Hr Hne.
  cbn [well_formed] in Hwf.
  change (denote sc (ECall name args))
    with (match scope_get sc name with
          | Some (SFun f) =>
              match denote_args sc args with
              | Some vs => f vs
              | None => None
              end
          | _ => None
          end) in Hv.
  destruct (scope_get sc name) as [[f|x]|] eqn:Ef; try discriminate.
  destruct (denote_args sc args) as [vs|] eqn:Evs; [|discriminate].
  set (T := pre ++ tokens_of (ECall name args) ++ post) in *.
  set (n := length (tokens_of (ECall name args))) in *.
  assert (Hcall : exists f3,
    funcPrefix sc T f3 name (S (length pre)) = Done (VDec v) (length pre + n)).
  { assert (Hl1 : T !! S (length pre) = Some (TOp LParen)).
    { unfold T. replace (S (length pre)) with (length pre + 1)%nat by lia.
      rewrite lookup_after. reflexivity. }
    destruct args as [|a rest].
    - exists 1%nat. rewrite funcPrefix_empty.
      + unfold apply_function. rewrite Ef. cbn in Evs. injection Evs as <-.
        rewrite Hv. f_equal. unfold n. cbn [tokens_of length app]. lia.
      + exact Hl1.
      + unfold T. replace (S (S (length pre))) with (length pre + 2)%nat by lia.
        rewrite lookup_after. reflexivity.
    - set (body := tokens_of a ++ flat_map (fun b => TOp Comma :: tokens_of b) rest).
      assert (HT : (pre ++ [TFunc name; TOp LParen]) ++ body ++ TOp RParen :: post = T).
      { unfold T, body. cbn [tokens_of]. rewrite <- ?app_assoc. cbn [app].
        rewrite <- ?app_assoc. reflexivity. }
      pose proof Evs as Evs'. rewrite denote_args_cons in Evs'.
      destruct (denote sc a) as [x|] eqn:Ex; [|discriminate]. clear Evs'.
      destruct (first_token a x Ex) as (t & trest & Ht & Hval).
      destruct (reads_arguments name f Ef rest a [] (pre ++ [TFunc name; TOp LParen])
                  post vs v IH Hwf Evs Hv) as [f3 H3].
      cbn zeta in H3. fold body in H3. rewrite HT in H3.
      assert (E1 : length (pre ++ [TFunc name; TOp LParen]) = S (S (length pre)))
        by (rewrite length_app; cbn [length]; lia).
      rewrite E1 in H3.
      exists (S f3). rewrite (funcPrefix_arguments T f3 name _ t Hl1).
      + rewrite H3. f_equal. unfold n. cbn [tokens_of length]. fold body.
        rewrite length_app. cbn [length]. lia.
      + rewrite <- HT. apply lookup_split2.
        * unfold body. rewrite Ht. reflexivity.
        * exact E1.
      + exact Hval. }
  destruct Hcall as [f3 H3].
  exists (S (Nat.max f3 fuel1)).
  eapply evaluate_step.
  - unfold T. rewrite lookup_at. reflexivity.
  - reflexivity.
  - eapply funcPrefix_more; [exact H3 | apply Nat.le_max_l].
  - eapply infix_loop_more; [exact Hr | exact Hne | apply Nat.le_max_r].
Qed.

Lemma reads_all (e : expr) : reads sc e.
Proof.
  induction e using expr_induction.
  - apply reads_num.
  - apply reads_var.
  - apply reads_call. assumption.
  - apply reads_paren. assumption.
  - apply reads_prefix. assumption.
  - apply reads_infix; assumption.
Qed.

(** A well-formed tree with a value is what the evaluator makes of its
    tokens: [run] returns a copy of the value, with the index on the
    token [end]. *)
Lemma run_tree (e : expr) (v : Decimal) :
  well_formed 0 e = true -> denote sc e = Some v ->
  run sc (tokens_of e ++ [TEnd]) = Done (copy v) (length (tokens_of e)).
Proof.
  intros Hwf Hv. unfold run.
  set (T := tokens_of e ++ [TEnd]).
  assert (Hb : binds (right_rbp e) TEnd = false) by reflexivity.
  destruct (reads_operand e 0 [] [TEnd] v TEnd [] (reads_all e) Hwf Hv eq_refl Hb eq_refl)
    as [f2 H2].
  cbn [app length] in H2. fold T in H2.
  pose proof (proj1 (evaluate_ends sc T (2 * length T + 3)) 0 0%nat ltac:(lia)) as [Hne _].
  assert (H : evaluate sc T (2 * length T + 3) 0 0 = Done (VDec v) (length (tokens_of e))).
  { destruct (Nat.le_ge_cases f2 (2 * length T + 3)) as [Hle|Hle].
    - eapply evaluate_more; [exact H2 | exact Hle].
    - replace f2 with ((2 * length T + 3) + (f2 - (2 * length T + 3)))%nat in H2 by lia.
      destruct (proj1 (more_fuel sc T (2 * length T + 3) (f2 - (2 * length T + 3))) 0 0%nat)
        as [E|E]; [contradiction | rewrite E; exact H2]. }
  rewrite H. cbn [bind]. unfold T. rewrite (lookup_split _ [] TEnd) by reflexivity.
  reflexivity.
Qed.


(** A tree that is the reading of its tokens and has a value in a scope
    with valid identifiers is what the evaluator makes of the tokens:
    [run] returns a copy of the value with the index on the token [end],
    and so the last statements of [Decimal.eval] return that copy
    whatever the tokenizer and the text in store are.  Operator
    precedence, associativity, parentheses and calls are all in the
    condition [well_formed]. *)
Theorem evaluation_reads_the_tree (e : expr) (v : Decimal)
    (Hwf : well_formed 0 e = true) (Hv : denote sc e = Some v) :
  run sc (tokens_of e ++ [TEnd]) = Done (copy v) (length (tokens_of e))
  /\ forall (ids : list str) (parsed : option str),
       fst (evaluate_tokens (State sc ids (Some (tokens_of e ++ [TEnd])) parsed))
       = Returns (copy v).
Proof.
  pose proof (run_tree e v Hwf Hv) as H. split; [exact H|].
  intros ids parsed. unfold evaluate_tokens. cbn [TOKENS SCOPE fst].
  rewrite H. reflexivity.
Qed.

End Tree.


(** ** Precedence *)

Lemma binary_total (o : operator) (a b : Decimal) :
  0 < op_lbp o -> exists v, binary o a b = Some v.
Proof. destruct o; cbn [op_lbp]; try lia; intros _; eexists; reflexivity. Qed.

Lemma unary_total (u : operator) (a : Decimal) :
  In u [Plus; Minus; Not; Sqrt] -> exists v, unary u a = Some v.
Proof.
  cbn [In]. intros [<-|[<-|[<-|[<-|[]]]]]; eexists; reflexivity.
Qed.

(** Tokens without identifiers are evaluated in the same way in every
    scope. *)
Lemma run_closed (sc : scope_object) (toks : list token) :
  Forall (fun t => match t with TVar _ | TFunc _ => False | _ => True end) toks ->
  run sc toks = run [] toks.
Proof.
  intros H. apply run_ext. intros t Hin. rewrite List.Forall_forall in H.
  specialize (H t Hin). destruct t; try exact I; contradiction.
Qed.

Lemma two_infix_operators (sc : scope_object) (o1 o2 : operator) (a b c : str) :
  0 < op_lbp o1 -> 0 < op_lbp o2 ->
  exists v,
    denote sc (if infix_rbp o1 <? op_lbp o2
               then EInfix o1 (ENum a) (EInfix o2 (ENum b) (ENum c))
               else EInfix o2 (EInfix o1 (ENum a) (ENum b)) (ENum c)) = Some v
    /\ run sc [TNum (ofLiteral a); TOp o1; TNum (ofLiteral b); TOp o2;
              TNum (ofLiteral c); TEnd] = Done (copy v) 5.
Proof.
  intros H1 H2.
  set (tree := if infix_rbp o1 <? op_lbp o2
               then EInfix o1 (ENum a) (EInfix o2 (ENum b) (ENum c))
               else EInfix o2 (EInfix o1 (ENum a) (ENum b)) (ENum c)).
  assert (Hw : well_formed 0 tree = true).
  { unfold tree. destruct o1; cbn [op_lbp] in H1; try lia;
      destruct o2; cbn [op_lbp] in H2; try lia; reflexivity. }
  assert (Ht : tokens_of tree ++ [TEnd]
               = [TNum (ofLiteral a); TOp o1; TNum (ofLiteral b); TOp o2;
                  TNum (ofLiteral c); TEnd]).
  { unfold tree. destruct (_ <? _); reflexivity. }
  assert (Hl : length (tokens_of tree) = 5%nat).
  { unfold tree. destruct (_ <? _); reflexivity. }
  assert (Hd : exists v, denote sc tree = Some v /\ denote [] tree = Some v).
  { unfold tree. destruct (_ <? _); cbn [denote].
    - destruct (binary_total o2 (ofLiteral b) (ofLiteral c) H2) as [x ->].
      destruct (binary_total o1 (ofLiteral a) x H1) as [v ->]. eauto.
    - destruct (binary_total o1 (ofLiteral a) (ofLiteral b) H1) as [x ->].
      destruct (binary_total o2 x (ofLiteral c) H2) as [v ->]. eauto. }
  destruct Hd as (v & Hv & Hv0). exists v. split; [exact Hv|].
  rewrite run_closed by (repeat constructor).
  rewrite <- Ht, <- Hl. apply run_tree; [constructor | exact Hw | exact Hv0].
Qed.

Lemma prefix_and_infix_operator (sc : scope_object) (u o : operator) (a b : str) :
  In u [Plus; Minus; Not; Sqrt] -> 0 < op_lbp o ->
  exists v,
    denote sc (if prefix_rbp u <? op_lbp o
               then EPrefix u (EInfix o (ENum a) (ENum b))
               else EInfix o (EPrefix u (ENum a)) (ENum b)) = Some v
    /\ run sc [TOp u; TNum (ofLiteral a); TOp o; TNum (ofLiteral b); TEnd] = Done (copy v) 4.
Proof.
  intros Hu Ho.
  set (tree := if prefix_rbp u <? op_lbp o
               then EPrefix u (EInfix o (ENum a) (ENum b))
               else EInfix o (EPrefix u (ENum a)) (ENum b)).
  assert (Hw : well_formed 0 tree = true).
  { unfold tree. cbn [In] in Hu.
    destruct Hu as [<-|[<-|[<-|[<-|[]]]]];
      destruct o; cbn [op_lbp] in Ho; try lia; reflexivity. }
  assert (Ht : tokens_of tree ++ [TEnd] = [TOp u; TNum (ofLiteral a); TOp o; TNum (ofLiteral b); TEnd]).
  { unfold tree. destruct (_ <? _); reflexivity. }
  assert (Hl : length (tokens_of tree) = 4%nat).
  { unfold tree. destruct (_ <? _); reflexivity. }
  assert (Hd : exists v, denote sc tree = Some v /\ denote [] tree = Some v).
  { unfold tree. destruct (_ <? _); cbn [denote].
    - destruct (binary_total o (ofLiteral a) (ofLiteral b) Ho) as [x ->].
      destruct (unary_total u x Hu) as [v ->]. eauto.
    - destruct (unary_total u (ofLiteral a) Hu) as [x ->].
      destruct (binary_total o x (ofLiteral b) Ho) as [v ->]. eauto. }
  destruct Hd as (v & Hv & Hv0). exists v. split; [exact Hv|].
  rewrite run_closed by (repeat constructor).
  rewrite <- Ht, <- Hl. apply run_tree; [constructor | exact Hw | exact Hv0].
Qed.

(** Of two infix operators in a row the second takes the operand between
    them when its binding power is above the one the first passes on
    (its own, and 79 for [^]), and the first takes it otherwise: higher
    precedence first, equal precedence from the left, [^] from the
    right.  A prefix operator is applied before an infix operator that
    follows its operand, except [^], which comes first. *)
Theorem operators_by_binding_power (sc : scope_object) (o1 o2 u : operator)
    (a b c : str)
    (H1 : 0 < op_lbp o1) (H2 : 0 < op_lbp o2)
    (Hu : In u [Plus; Minus; Not; Sqrt]) :
  (exists v,
     denote sc (if infix_rbp o1 <? op_lbp o2
                then EInfix o1 (ENum a) (EInfix o2 (ENum b) (ENum c))
                else EInfix o2 (EInfix o1 (ENum a) (ENum b)) (ENum c)) = Some v
     /\ run sc [TNum (ofLiteral a); TOp o1; TNum (ofLiteral b); TOp o2;
              TNum (ofLiteral c); TEnd] = Done (copy v) 5)
  /\ (exists v,
        denote sc (if prefix_rbp u <? op_lbp o1
                   then EPrefix u (EInfix o1 (ENum a) (ENum b))
                   else EInfix o1 (EPrefix u (ENum a)) (ENum b)) = Some v
        /\ run sc [TOp u; TNum (ofLiteral a); TOp o1; TNum (ofLiteral b); TEnd] = Done (copy v) 4).
Proof.
  split; [apply two_infix_operators | apply prefix_and_infix_operator]; assumption.
Qed.

(** ** Syntax errors *)

Lemma evaluate_any (sc : scope_object) (T : list token) (fuel fuel' : nat)
    (rbp : Z) (i : nat) (r : outcome value) :
  evaluate sc T fuel rbp i = r -> r <> OutOfFuel -> (fuel <= fuel')%nat ->
  evaluate sc T fuel' rbp i = r.
Proof.
  intros H Hne Hle. replace fuel' with (fuel + (fuel' - fuel))%nat by lia.
  destruct (proj1 (more_fuel sc T fuel (fuel' - fuel)) rbp i) as [E|E]; congruence.
Qed.

(** What [run] gives when [evaluate] gives [r] with some fuel. *)
Lemma run_any (sc : scope_object) (T : list token) (fuel : nat)
    (r : outcome value) :
  evaluate sc T fuel 0 0 = r -> r <> OutOfFuel ->
  evaluate sc T (2 * length T + 3) 0 0 = r.
Proof.
  intros H Hne.
  destruct (Nat.le_ge_cases fuel (2 * length T + 3)) as [Hle|Hle].
  - eapply evaluate_any; eassumption.
  - pose proof (proj1 (evaluate_ends sc T (2 * length T + 3)) 0 0%nat ltac:(lia))
      as [Hne' _].
    replace fuel with ((2 * length T + 3) + (fuel - (2 * length T + 3)))%nat in H by lia.
    destruct (proj1 (more_fuel sc T (2 * length T + 3) (fuel - (2 * length T + 3))) 0 0%nat)
      as [E|E]; [contradiction | congruence].
Qed.

Lemma infix_throws (ev : Z -> nat -> outcome value) (op : operator)
    (a : Decimal) (i : nat) (err : eval_error) :
  0 < op_lbp op -> ev (infix_rbp op) i = Throw err ->
  infix ev op (VDec a) i = Throw err.
Proof.
  intros Hl He.
  destruct op; cbn [op_lbp] in Hl; try lia;
    cbn [infix method_infix infix_rbp op_lbp] in *; rewrite He; reflexivity.
Qed.

Lemma op_prefix_throws (toks : list token) (ev : Z -> nat -> outcome value)
    (op : operator) (x v : Decimal) (i : nat) (err : eval_error) :
  unary op x = Some v -> ev (prefix_rbp op) i = Throw err ->
  op_prefix toks ev op i = Throw err.
Proof.
  intros Hu He.
  destruct op; try discriminate;
    cbn [op_prefix prefix_rbp] in *; rewrite He; reflexivity.
Qed.

Lemma binary_lbp (op : operator) (a b v : Decimal) :
  binary op a b = Some v -> 0 < op_lbp op.
Proof. destruct op; try discriminate; intros _; cbn [op_lbp]; lia. Qed.

Lemma unary_prefix (op : operator) (x v : Decimal) :
  unary op x = Some v -> has_prefix (TOp op) = true.
Proof. destruct op; try discriminate; reflexivity. Qed.

Lemma op_lbp_max (op : operator) : op_lbp op <= 80.
Proof. destruct op; cbn [op_lbp]; lia. Qed.

Section Broken.
Variable sc : scope_object.
Hypothesis Hkeys : valid_keys (map fst sc).

Lemma evaluate_no_prefix (T : list token) (fuel : nat) (rbp : Z) (i : nat)
    (t : token) :
  T !! i = Some t -> has_prefix t = false ->
  evaluate sc T (S fuel) rbp i = Throw (Unexpected t).
Proof. intros Ht Hp. cbn [evaluate]. rewrite Ht, Hp. reflexivity. Qed.

Lemma evaluate_prefix_throws (T : list token) (fuel : nat) (rbp : Z) (i : nat)
    (op : operator) (err : eval_error) :
  T !! i = Some (TOp op) -> has_prefix (TOp op) = true ->
  op_prefix T (evaluate sc T fuel) op (S i) = Throw err ->
  evaluate sc T (S fuel) rbp i = Throw err.
Proof.
  intros Ht Hp Hl.
  transitivity (bind (@Throw host value err)
                  (fun left index => infix_loop sc T fuel rbp left index));
    [|reflexivity].
  rewrite <- Hl. cbn [evaluate]. rewrite Ht, Hp. reflexivity.
Qed.

Lemma infix_loop_throws (T : list token) (fuel : nat) (rbp : Z) (left : value)
    (i : nat) (op : operator) (err : eval_error) :
  T !! i = Some (TOp op) -> binds rbp (TOp op) = true ->
  infix (evaluate sc T fuel) op left (S i) = Throw err ->
  infix_loop sc T (S fuel) rbp left i = Throw err.
Proof.
  intros Ht Hb Hi.
  transitivity (bind (@Throw host value err)
                  (fun left index => infix_loop sc T fuel rbp left index));
    [|reflexivity].
  rewrite <- Hi. cbn [infix_loop]. rewrite Ht, Hb. reflexivity.
Qed.

(** An infix operator that the tree does not take in, and after it a
    token that begins no operand. *)
Lemma operand_missing_after (e : expr) (op : operator) (t : token)
    (rest : list token) (rbp : Z) (pre : list token) (v : Decimal) :
  well_formed rbp e = true -> denote sc e = Some v ->
  0 < op_lbp op -> has_prefix t = false ->
  binds (right_rbp e) (TOp op) = false -> binds rbp (TOp op) = true ->
  exists fuel,
    evaluate sc (pre ++ tokens_of e ++ TOp op :: t :: rest) fuel rbp (length pre)
    = Throw (Unexpected t).
Proof.
  intros Hwf Hv H0 Hp Hb Hb'.
  apply (reads_all sc Hkeys e rbp pre (TOp op :: t :: rest) v _ 2%nat Hwf Hv);
    [eauto | | discriminate].
  set (T := pre ++ tokens_of e ++ TOp op :: t :: rest).
  eapply infix_loop_throws.
  - unfold T. rewrite app_assoc. apply lookup_split. rewrite length_app. reflexivity.
  - exact Hb'.
  - apply infix_throws; [exact H0|].
    apply evaluate_no_prefix; [|exact Hp].
    unfold T. rewrite app_assoc.
    change (TOp op :: t :: rest) with ([TOp op] ++ t :: rest).
    rewrite app_assoc. apply lookup_split. rewrite !length_app. cbn [length]. lia.
Qed.

(** An infix operator after a tree, wherever in the tree it is taken in,
    and after it a token that begins no operand. *)
Lemma operand_missing (op : operator) (t : token) (rest : list token) :
  0 < op_lbp op -> has_prefix t = false ->
  forall (e : expr) (rbp : Z) (pre : list token) (v : Decimal),
    well_formed rbp e = true -> denote sc e = Some v ->
    rbp < op_lbp op \/ right_rbp e < op_lbp op ->
    exists fuel,
      evaluate sc (pre ++ tokens_of e ++ TOp op :: t :: rest) fuel rbp (length pre)
      = Throw (Unexpected t).
Proof.
  intros H0 Hp.
  assert (Hout : forall e rbp pre v,
    well_formed rbp e = true -> denote sc e = Some v ->
    rbp < op_lbp op \/ right_rbp e < op_lbp op ->
    binds (right_rbp e) (TOp op) = false ->
    exists fuel,
      evaluate sc (pre ++ tokens_of e ++ TOp op :: t :: rest) fuel rbp (length pre)
      = Throw (Unexpected t)).
  { intros e rbp pre v Hwf Hv Hor Hb.
    apply (operand_missing_after e op t rest rbp pre v Hwf Hv H0 Hp Hb).
    unfold binds in *. cbn [lbp] in *. apply Z.ltb_ge in Hb. apply Z.ltb_lt. lia. }
  assert (Hatom : forall e, right_rbp e = 80 -> binds (right_rbp e) (TOp op) = false).
  { intros e ->. unfold binds. cbn [lbp]. apply Z.ltb_ge, op_lbp_max. }
  induction e as [m|name|name args _|e _|u e IH|o l r _ IHr] using expr_induction;
    intros rbp pre v Hwf Hv Hor;
    try (apply (Hout _ rbp pre v Hwf Hv Hor), Hatom; reflexivity).
  - (* a prefix operator *)
    destruct (binds (right_rbp (EPrefix u e)) (TOp op)) eqn:Hb;
      [|exact (Hout _ rbp pre v Hwf Hv Hor Hb)].
    cbn [well_formed denote right_rbp tokens_of] in *.
    destruct (denote sc e) as [x|] eqn:Ex; [|discriminate].
    unfold binds in Hb. cbn [lbp] in Hb. apply Z.ltb_lt in Hb.
    destruct (IH (prefix_rbp u) (pre ++ [TOp u]) x Hwf eq_refl ltac:(lia)) as [f Hf].
    rewrite <- app_assoc in Hf. cbn [app] in Hf.
    rewrite length_app, Nat.add_1_r in Hf. cbn [length] in Hf.
    exists (S f). cbn [app].
    set (T := pre ++ TOp u :: tokens_of e ++ TOp op :: t :: rest) in *.
    eapply evaluate_prefix_throws.
    + unfold T. apply lookup_split. reflexivity.
    + exact (unary_prefix u x v Hv).
    + exact (op_prefix_throws T _ u x v _ _ Hv Hf).
  - (* an infix operator *)
    destruct (binds (right_rbp (EInfix o l r)) (TOp op)) eqn:Hb;
      [|exact (Hout _ rbp pre v Hwf Hv Hor Hb)].
    cbn [well_formed denote right_rbp tokens_of] in *.
    apply andb_prop in Hwf as [Hwf Hwr]. apply andb_prop in Hwf as [Hwf Hcl].
    apply andb_prop in Hwf as [Hrb Hwl].
    destruct (denote sc l) as [a|] eqn:Ea; [|discriminate].
    destruct (denote sc r) as [b|] eqn:Eb; [|discriminate].
    unfold binds in Hb. cbn [lbp] in Hb. apply Z.ltb_lt in Hb.
    destruct (IHr (infix_rbp o) (pre ++ tokens_of l ++ [TOp o]) b Hwr eq_refl ltac:(lia))
      as [f Hf].
    set (X := TOp op :: t :: rest) in *.
    set (T := pre ++ (tokens_of l ++ TOp o :: tokens_of r) ++ X).
    assert (HT : (pre ++ tokens_of l ++ [TOp o]) ++ tokens_of r ++ X = T).
    { unfold T. rewrite <- !app_assoc. cbn [app]. reflexivity. }
    assert (HT' : pre ++ tokens_of l ++ TOp o :: tokens_of r ++ X = T).
    { unfold T. rewrite <- !app_assoc. cbn [app]. reflexivity. }
    rewrite HT in Hf. rewrite !length_app in Hf. cbn [length] in Hf.
    assert (Hbl : binds (right_rbp l) (TOp o) = false).
    { unfold binds. cbn [lbp]. apply Z.ltb_ge. apply Z.leb_le in Hcl. exact Hcl. }
    destruct (reads_all sc Hkeys l rbp pre (TOp o :: tokens_of r ++ X) a
                (Throw (Unexpected t)) (S f) Hwl Ea) as [f2 H2].
    + eauto.
    + rewrite HT'. eapply infix_loop_throws.
      * rewrite <- HT'. rewrite app_assoc. apply lookup_split.
        rewrite length_app. reflexivity.
      * unfold binds. cbn [lbp]. exact Hrb.
      * apply infix_throws; [exact (binary_lbp o a b v Hv)|].
        rewrite <- Hf. f_equal. lia.
    + discriminate.
    + exists f2. rewrite <- HT'. exact H2.
Qed.

End Broken.

(** An expression that breaks off after an infix operator, or goes on
    there with a token that begins no operand, is a syntax error that
    names that token: for a complete expression followed by an infix
    operator and by [end], [)], [,] or another infix operator, the
    evaluator throws the error of the unexpected token, whatever comes
    after it. *)
Theorem operand_missing_is_unexpected (sc : scope_object) (e : expr)
    (v : Decimal) (op : operator) (t : token) (rest : list token)
    (Hkeys : valid_keys (map fst sc))
    (Hwf : well_formed 0 e = true) (Hv : denote sc e = Some v)
    (Hop : 0 < op_lbp op) (Ht : has_prefix t = false) :
  run sc (tokens_of e ++ TOp op :: t :: rest) = Throw (Unexpected t).
Proof.
  destruct (operand_missing sc Hkeys op t rest Hop Ht e 0 [] v Hwf Hv ltac:(lia))
    as [f Hf].
  cbn [app length] in Hf. unfold run.
  rewrite (run_any sc _ f _ Hf) by discriminate. reflexivity.
Qed.

(** What follows a complete expression must be the end: when the token
    after a complete expression is no infix operator, the evaluator
    returns a copy of the value if the text of the token is [end] and
    throws the error of the unexpected token otherwise, whatever comes
    after it. *)
Theorem complete_expression_must_end (sc : scope_object) (e : expr)
    (v : Decimal) (t : token) (rest : list token)
    (Hkeys : valid_keys (map fst sc))
    (Hwf : well_formed 0 e = true) (Hv : denote sc e = Some v)
    (Ht : binds 0 t = false) :
  run sc (tokens_of e ++ t :: rest)
  = if val_is t (units "end") then Done (copy v) (length (tokens_of e))
    else Throw (Unexpected t).
Proof.
  assert (Hb : binds (right_rbp e) t = false).
  { unfold binds in *. destruct (lbp t) as [l|]; [|reflexivity].
    apply Z.ltb_ge in Ht. apply Z.ltb_ge. pose proof (right_rbp_nonneg e). lia. }
  destruct (reads_operand sc e 0 [] (t :: rest) v t rest
              (reads_all sc Hkeys e) Hwf Hv eq_refl Hb Ht) as [f Hf].
  cbn [app length] in Hf. unfold run.
  rewrite (run_any sc _ f _ Hf) by discriminate. cbn [bind].
  rewrite (lookup_split _ rest t) by reflexivity. reflexivity.
Qed.

(** A parenthesis that is not closed: for [(] and a complete expression
    followed by a token that is no infix operator and not [)], the
    evaluator throws the error [expected )]. *)
Theorem parenthesis_must_close (sc : scope_object) (e : expr)
    (v : Decimal) (t : token) (rest : list token)
    (Hkeys : valid_keys (map fst sc))
    (Hwf : well_formed 0 e = true) (Hv : denote sc e = Some v)
    (Ht : binds 0 t = false) (Hclose : val_is t [41] = false) :
  run sc (TOp LParen :: tokens_of e ++ t :: rest) = Throw ExpectedRParen.
Proof.
  assert (Hb : binds (right_rbp e) t = false).
  { unfold binds in *. destruct (lbp t) as [l|]; [|reflexivity].
    apply Z.ltb_ge in Ht. apply Z.ltb_ge. pose proof (right_rbp_nonneg e). lia. }
  destruct (reads_operand sc e 0 [TOp LParen] (t :: rest) v t rest
              (reads_all sc Hkeys e) Hwf Hv eq_refl Hb Ht) as [f Hf].
  cbn [app length] in Hf.
  set (T := TOp LParen :: tokens_of e ++ t :: rest) in *.
  assert (H : evaluate sc T (S f) 0 0 = Throw ExpectedRParen).
  { eapply evaluate_prefix_throws; [reflexivity | reflexivity |].
    cbn [op_prefix]. rewrite Hf. cbn [bind]. unfold expect.
    assert (Hl : T !! (1 + length (tokens_of e))%nat = Some t).
    { unfold T. change (TOp LParen :: tokens_of e ++ t :: rest)
        with (([TOp LParen] ++ tokens_of e) ++ t :: rest).
      apply lookup_split. rewrite length_app. reflexivity. }
    rewrite Hl, Hclose. reflexivity. }
  unfold run. rewrite (run_any sc _ _ _ H) by discriminate. reflexivity.
Qed.

(** ** A number followed by what is no part of a number *)

Lemma span_digits_app (s : str) (c : Z) (r : str) :
  is_digit c = false ->
  span_digits (s ++ c :: r)
  = (fst (span_digits s), snd (span_digits s) ++ c :: r).
Proof.
  intros Hc. induction s as [|d s IH]; cbn [app span_digits].
  - rewrite Hc. reflexivity.
  - destruct (is_digit d); [|reflexivity].
    rewrite IH. destruct (span_digits s). reflexivity.
Qed.

Lemma lex_fraction_app (s : str) (r : str) :
  lex_fraction (s ++ 32 :: r)
  = (fst (lex_fraction s), snd (lex_fraction s) ++ 32 :: r).
Proof.
  destruct s as [|d s]; [reflexivity|]. cbn [app lex_fraction].
  destruct (d =? 46); [|reflexivity].
  rewrite span_digits_app by reflexivity.
  destruct (span_digits s) as [[|d1 ds] t]; reflexivity.
Qed.

Lemma lex_exponent_app (s : str) (r : str) :
  lex_exponent (s ++ 32 :: r)
  = (fst (lex_exponent s), snd (lex_exponent s) ++ 32 :: r).
Proof.
  destruct s as [|d s]; [reflexivity|]. cbn [app lex_exponent].
  destruct ((d =? 101) || (d =? 69)); [|reflexivity].
  destruct s as [|c1 s].
  - reflexivity.
  - cbn [app]. destruct ((c1 =? 43) || (c1 =? 45)).
    + rewrite span_digits_app by reflexivity.
      destruct (span_digits s) as [[|d1 ds] t]; reflexivity.
    + change (c1 :: s ++ 32 :: r) with ((c1 :: s) ++ 32 :: r).
      rewrite span_digits_app by reflexivity.
      destruct (span_digits (c1 :: s)) as [[|d1 ds] t]; reflexivity.
Qed.

Lemma lex_number_app (s : str) (r : str) :
  lex_number (s ++ 32 :: r)
  = match lex_number s with
    | Some (m, t) => Some (m, t ++ 32 :: r)
    | None => None
    end.
Proof.
  unfold lex_number. rewrite span_digits_app by reflexivity.
  destruct (span_digits s) as [[|d ds] t]; [reflexivity|]. cbn [fst snd].
  rewrite lex_fraction_app. destruct (lex_fraction t) as [frac t1]. cbn [fst snd].
  rewrite lex_exponent_app. destruct (lex_exponent t1) as [ex t2]. reflexivity.
Qed.

Lemma literal_spec (m : str) : literal m = true -> lex_number m = Some (m, []).
Proof.
  unfold literal. destruct (lex_number m) as [[m' [|c t]]|]; try discriminate.
  intros H. apply str_eqb_eq in H. subst. reflexivity.
Qed.

Lemma literal_spaced (m r : str) :
  literal m = true -> lex_number (m ++ 32 :: r) = Some (m, 32 :: r).
Proof.
  intros H. rewrite lex_number_app, (literal_spec m H). reflexivity.
Qed.

(** ** A name followed by a space *)

Lemma no_space_cons (c : Z) (s : str) :
  no_space (c :: s) = negb (is_space c) && no_space s.
Proof. reflexivity. Qed.

Lemma lex_identifier_spaced (ids : list str) (id r : str) :
  clean ids ->
  StronglySorted (fun a b => (length b <= length a)%nat) ids ->
  In id ids ->
  lex_identifier ids (id ++ 32 :: r) = Some (id, 32 :: r).
Proof.
  intros Hc Hs. induction Hs as [|h ids Hs IH Hh]; intros Hin; [destruct Hin|].
  inversion Hc as [|? ? [_ Hclean] Hc']; subst.
  cbn [lex_identifier].
  destruct (strip_prefix h (id ++ 32 :: r)) as [r'|] eqn:E.
  - apply strip_prefix_app in E.
    assert (Hlen : (length id <= length h)%nat).
    { destruct Hin as [->|Hin]; [lia|].
      rewrite List.Forall_forall in Hh. apply Hh, Hin. }
    apply app_eq_app in E as [x [[E1 E2]|[E1 E2]]].
    + (* id = h ++ x *)
      assert (x = []) as ->.
      { apply (f_equal (@length Z)) in E1. rewrite length_app in E1.
        destruct x; [reflexivity | cbn [length] in E1; lia]. }
      rewrite app_nil_r in E1. cbn [app] in E2. subst. reflexivity.
    + (* h = id ++ x *)
      destruct x as [|c x].
      * rewrite app_nil_r in E1. cbn [app] in E2. subst. reflexivity.
      * exfalso. cbn [app] in E2. injection E2 as <- _.
        subst h. rewrite no_space_app, no_space_cons in Hclean.
        cbn in Hclean. rewrite andb_false_r in Hclean. discriminate.
  - destruct Hin as [->|Hin]; [|exact (IH Hc' Hin)].
    assert (strip_prefix id (id ++ 32 :: r) = Some (32 :: r))
      by (apply strip_prefix_app; reflexivity).
    congruence.
Qed.

(** ** What begins no identifier *)

Lemma lex_identifier_no_name (ids : list str) (c : Z) (r : str) :
  Forall (fun id => match id with d :: _ => name_start d = true | [] => False end) ids ->
  name_start c = false ->
  lex_identifier ids (c :: r) = None.
Proof.
  intros H Hc. apply lex_identifier_other.
  eapply List.Forall_impl; [|exact H]. intros [|d id]; [contradiction|].
  intros Hd ->. congruence.
Qed.

Lemma tokenizer_of_names (sc : scope_object) :
  valid_keys (map fst sc) ->
  Forall (fun id => match id with d :: _ => name_start d = true | [] => False end)
    (tokenizer_of sc).
Proof.
  unfold tokenizer_of. generalize (map fst sc). intros l Hv.
  destruct l as [|k ks].
  - repeat constructor.
  - apply sort_longestFirst_valid in Hv.
    eapply List.Forall_impl; [|exact Hv]. intros [|d id]; [discriminate|].
    cbn [VALID_IDENTIFIER]. intros H. apply andb_prop in H as [H _].
    unfold name_start. rewrite H. reflexivity.
Qed.

Lemma tokenizer_of_clean (sc : scope_object) :
  valid_keys (map fst sc) -> clean (tokenizer_of sc).
Proof.
  unfold tokenizer_of. generalize (map fst sc). intros l Hv.
  destruct l as [|k ks].
  - repeat constructor. discriminate.
  - apply valid_clean, sort_longestFirst_valid, Hv.
Qed.

Lemma tokenizer_of_sorted (sc : scope_object) :
  StronglySorted (fun a b => (length b <= length a)%nat) (tokenizer_of sc).
Proof.
  unfold tokenizer_of. destruct (map fst sc) as [|k ks].
  - repeat constructor.
  - apply sort_longestFirst_sorted.
Qed.

Lemma tokenizer_of_In (sc : scope_object) (id : str) :
  In id (map fst sc) -> In id (tokenizer_of sc).
Proof.
  unfold tokenizer_of. generalize (map fst sc). intros l.
  destruct l as [|k ks]; [intros []|].
  apply sort_longestFirst_In.
Qed.

(** ** The tokenizer on a text of words *)

Section Words.
Variable sc : scope_object.
Hypothesis Hkeys : valid_keys (map fst sc).

Lemma tokenize_space (fuel : nat) (r : str) (T : list token) (p : str) :
  tokenize (S fuel) sc (tokenizer_of sc) (32 :: r) T p
  = tokenize fuel sc (tokenizer_of sc) r T p.
Proof.
  cbn [tokenize]. change (lex_number (32 :: r)) with (@None (str * str)).
  rewrite (lex_identifier_no_name _ 32 r (tokenizer_of_names sc Hkeys)) by reflexivity.
  change (32 =? 41) with false. cbn iota.
  assert (Ho : lex_operator (32 :: r) = None).
  { unfold lex_operator. destruct r as [|c' r']; [reflexivity|].
    destruct (c' =? 61); reflexivity. }
  rewrite Ho. reflexivity.
Qed.

Lemma valid_key (id : str) : In id (map fst sc) -> VALID_IDENTIFIER id = true.
Proof.
  intros H. unfold valid_keys in Hkeys. rewrite List.Forall_forall in Hkeys.
  apply Hkeys, H.
Qed.

(** A word and the space after it make one token, with no [*] added. *)
Lemma tokenize_word (fuel : nat) (w : word) (r : str) (T : list token) (p : str) :
  word_ok sc w ->
  tokenize (S (S fuel)) sc (tokenizer_of sc) (word_text w ++ 32 :: r) T p
  = tokenize fuel sc (tokenizer_of sc) r (T ++ [word_token sc w]) (p ++ word_text w).
Proof.
  intros Hw. destruct w as [m|id|op]; cbn [word_ok word_text word_token] in *.
  - rewrite (tokenize_number _ _ _ _ m (32 :: r)) by (apply literal_spaced, Hw).
    change (lookahead (32 :: r)) with false. cbn iota.
    apply tokenize_space.
  - pose proof (valid_key id Hw) as Hv.
    assert (Hi : lex_identifier (tokenizer_of sc) (id ++ 32 :: r) = Some (id, 32 :: r)).
    { apply lex_identifier_spaced;
        [apply tokenizer_of_clean, Hkeys | apply tokenizer_of_sorted
        | apply tokenizer_of_In, Hw]. }
    destruct id as [|c id']; [discriminate|].
    assert (Hstart : is_identifier_start c = true).
    { cbn [VALID_IDENTIFIER] in Hv. apply andb_prop in Hv as [Hc _]. exact Hc. }
    destruct (identifier_start_class c Hstart) as (_ & Hdg & _).
    assert (Hn : lex_number ((c :: id') ++ 32 :: r) = None).
    { cbn [app]. unfold lex_number. cbn [span_digits].
      rewrite Hdg. reflexivity. }
    cbn [tokenize]. rewrite Hn, Hi. cbn iota beta.
    destruct (scope_get sc (c :: id')) as [[f|x]|];
      unfold implicit_times; change (lookahead (32 :: r)) with false; cbn iota;
      apply tokenize_space.
  - pose proof (tokenizer_of_names sc Hkeys) as Hnames.
    destruct op; cbn [symbol app tokenize];
      match goal with
      | |- context [lex_number ?s] =>
          change (lex_number s) with (@None (str * str))
      end;
      rewrite lex_identifier_no_name by (exact Hnames || reflexivity);
      match goal with
      | |- context [?c =? 41] =>
          let b := eval vm_compute in (c =? 41) in change (c =? 41) with b
      end; cbn iota;
      try (unfold implicit_times; change (lookahead (32 :: r)) with false;
           cbn iota; apply tokenize_space);
      match goal with
      | |- context [lex_operator ?s] =>
          let v := eval cbv in (lex_operator s) in
          change (lex_operator s) with v
      end; cbn iota; apply tokenize_space.
Qed.

Lemma lex_identifier_nil (ids : list str) :
  clean ids -> lex_identifier ids [] = None.
Proof.
  induction 1 as [|id ids [Hid _] _ IH]; [reflexivity|].
  cbn [lex_identifier]. destruct id as [|c id]; [congruence|]. exact IH.
Qed.

Lemma literal_first (m : str) :
  literal m = true -> exists c t, m = c :: t /\ is_digit c = true.
Proof.
  intros H. apply literal_spec in H. destruct m as [|c t]; [discriminate|].
  exists c, t. split; [reflexivity|].
  unfold lex_number in H. cbn [span_digits] in H.
  destruct (is_digit c); [reflexivity | discriminate].
Qed.

Lemma word_first (w : word) :
  word_ok sc w -> exists c t, word_text w = c :: t /\ is_space c = false.
Proof.
  destruct w as [m|id|op]; cbn [word_ok word_text].
  - intros H. destruct (literal_first m H) as (c & t & -> & Hc).
    exists c, t. split; [reflexivity|].
    assert (Hu : number_unit c = true) by (unfold number_unit; rewrite Hc; reflexivity).
    apply number_unit_class in Hu as [Hu _]. exact Hu.
  - intros H. apply valid_key in H. destruct id as [|c t]; [discriminate|].
    exists c, t. split; [reflexivity|]. cbn [VALID_IDENTIFIER] in H.
    apply andb_prop in H as [H _]. apply identifier_start_class in H as [H _].
    exact H.
  - intros _. destruct op; cbn [symbol]; eexists _, _; split; reflexivity.
Qed.

(** The tokenizer reads a text of words word by word: the tokens are
    those of the words, and the text it stores is the words without the
    spaces. *)
Lemma tokenize_words (ws : list word) :
  Forall (word_ok sc) ws ->
  forall (fuel : nat) (T : list token) (p : str),
    (length (spell ws) < fuel)%nat ->
    tokenize fuel sc (tokenizer_of sc) (spell ws) T p
    = Lexed (T ++ map (word_token sc) ws) (p ++ flat_map word_text ws).
Proof.
  induction 1 as [|w ws Hw _ IH]; intros fuel T p Hf.
  - cbn [spell flat_map map]. rewrite !app_nil_r.
    destruct fuel as [|fuel]; [cbn in Hf; lia|]. cbn [tokenize].
    change (lex_number []) with (@None (str * str)).
    rewrite lex_identifier_nil by (apply tokenizer_of_clean, Hkeys). reflexivity.
  - unfold spell in *. cbn [flat_map map]. rewrite <- app_assoc. cbn [app].
    destruct (word_first w Hw) as (c & t & Ht & _).
    cbn [flat_map] in Hf. rewrite !length_app in Hf. rewrite Ht in Hf.
    cbn [length] in Hf.
    destruct fuel as [|[|fuel]]; [lia | lia |].
    rewrite tokenize_word by exact Hw.
    rewrite IH by lia.
    rewrite <- !app_assoc. reflexivity.
Qed.

(** ** The text of words holds no [**] and is not white space *)

Lemma replace_power_prefix (s r : str) :
  forallb (fun c => negb (c =? 42)) s = true ->
  replace_power (s ++ 32 :: r) = s ++ 32 :: replace_power r.
Proof.
  induction s as [|c s IH]; cbn [forallb app]; intros H.
  - apply replace_power_cons. reflexivity.
  - apply andb_prop in H as [Hc Hs]. apply negb_true_iff in Hc.
    rewrite replace_power_cons by exact Hc. rewrite (IH Hs). reflexivity.
Qed.

Lemma replace_power_word (w : word) (r : str) :
  word_ok sc w ->
  replace_power (word_text w ++ 32 :: r) = word_text w ++ 32 :: replace_power r.
Proof.
  destruct w as [m|id|op]; cbn [word_ok word_text]; intros H.
  - apply replace_power_prefix. apply literal_spec, lex_number_units in H.
    eapply forallb_impl; [|exact H]. intros c Hc.
    apply number_unit_class in Hc as [_ ->]. reflexivity.
  - apply replace_power_prefix, identifier_no_star, valid_key, H.
  - destruct op; cbn [symbol]; try (apply replace_power_prefix; reflexivity).
    cbn [app]. rewrite replace_power_two. cbn [Z.eqb andb Pos.eqb].
    rewrite replace_power_cons by reflexivity. reflexivity.
Qed.

Lemma replace_power_spell (ws : list word) :
  Forall (word_ok sc) ws -> replace_power (spell ws) = spell ws.
Proof.
  induction 1 as [|w ws Hw _ IH]; [reflexivity|].
  unfold spell in *. cbn [flat_map]. rewrite <- app_assoc. cbn [app].
  rewrite replace_power_word by exact Hw. rewrite IH. reflexivity.
Qed.

Lemma spell_not_blank (w : word) (ws : list word) :
  word_ok sc w -> forallb is_space (spell (w :: ws)) = false.
Proof.
  intros Hw. destruct (word_first w Hw) as (c & t & Ht & Hc).
  unfold spell. cbn [flat_map]. rewrite Ht. cbn [app forallb].
  rewrite Hc. reflexivity.
Qed.

(** ** The words of a tree that has a value *)

Lemma words_of_rest (rest : list expr) :
  Forall (fun e => forall v, literals e = true -> denote sc e = Some v ->
            map (word_token sc) (words_of e) = tokens_of e
            /\ Forall (word_ok sc) (words_of e)) rest ->
  forallb literals rest = true ->
  forall vs, denote_args sc rest = Some vs ->
    map (word_token sc) (flat_map (fun b => WOp Comma :: words_of b) rest)
    = flat_map (fun b => TOp Comma :: tokens_of b) rest
    /\ Forall (word_ok sc) (flat_map (fun b => WOp Comma :: words_of b) rest).
Proof.
  induction 1 as [|b rest Hb _ IH]; intros Hl vs Hvs.
  - split; [reflexivity | constructor].
  - cbn [forallb] in Hl. apply andb_prop in Hl as [Hlb Hlr].
    rewrite denote_args_cons in Hvs.
    destruct (denote sc b) as [x|] eqn:Ex; [|discriminate].
    destruct (denote_args sc rest) as [xs|] eqn:Exs; [|discriminate].
    destruct (Hb x Hlb eq_refl) as [Hb1 Hb2].
    destruct (IH Hlr xs eq_refl) as [IH1 IH2].
    cbn [flat_map map app]. rewrite map_app, Hb1, IH1. split; [reflexivity|].
    constructor; [exact I|]. apply Forall_app. split; assumption.
Qed.

Lemma words_of_tree (e : expr) :
  forall v, literals e = true -> denote sc e = Some v ->
    map (word_token sc) (words_of e) = tokens_of e
    /\ Forall (word_ok sc) (words_of e).
Proof.
  induction e as [m|name|name args IH|e IH|op e IH|op l r IHl IHr]
    using expr_induction; intros v Hl Hv; cbn [literals] in Hl.
  - split; [reflexivity|]. repeat constructor. exact Hl.
  - cbn [denote] in Hv. cbn [words_of tokens_of map word_token].
    destruct (scope_get sc name) as [[f|x]|] eqn:E; try discriminate.
    split; [reflexivity|]. repeat constructor. cbn [word_ok].
    eapply scope_get_key, E.
  - cbn [denote] in Hv. fold (denote_args sc args) in Hv.
    cbn [words_of tokens_of map word_token].
    destruct (scope_get sc name) as [[f|x]|] eqn:E; try discriminate.
    apply scope_get_key in E.
    destruct (denote_args sc args) as [vs|] eqn:Evs; [|discriminate].
    rewrite map_app. cbn [map word_token].
    destruct args as [|a rest].
    + split; [reflexivity|]. repeat constructor. exact E.
    + inversion IH as [|? ? Ha Hrest]; subst.
      cbn [forallb] in Hl. apply andb_prop in Hl as [Hla Hlr].
      rewrite denote_args_cons in Evs.
      destruct (denote sc a) as [x|] eqn:Ex; [|discriminate].
      destruct (denote_args sc rest) as [xs|] eqn:Exs; [|discriminate].
      destruct (Ha x Hla eq_refl) as [Ha1 Ha2].
      destruct (words_of_rest rest Hrest Hlr xs Exs) as [Hr1 Hr2].
      rewrite map_app, Ha1, Hr1. split; [reflexivity|].
      constructor; [exact E|]. constructor; [exact I|].
      apply Forall_app. split; [apply Forall_app; split; assumption|].
      repeat constructor.
  - cbn [denote] in Hv. destruct (IH v Hl Hv) as [H1 H2].
    cbn [words_of tokens_of map word_token]. rewrite map_app, H1.
    split; [reflexivity|]. constructor; [exact I|].
    apply Forall_app. split; [exact H2 | repeat constructor].
  - cbn [denote] in Hv. destruct (denote sc e) as [x|] eqn:Ex; [|discriminate].
    destruct (IH x Hl eq_refl) as [H1 H2].
    cbn [words_of tokens_of map word_token]. rewrite H1.
    split; [reflexivity|]. constructor; [exact I | exact H2].
  - cbn [denote] in Hv. apply andb_prop in Hl as [Hll Hlr].
    destruct (denote sc l) as [x|] eqn:Ex; [|discriminate].
    destruct (denote sc r) as [y|] eqn:Ey; [|discriminate].
    destruct (IHl x Hll eq_refl) as [H1 H2].
    destruct (IHr y Hlr eq_refl) as [H3 H4].
    cbn [words_of tokens_of]. rewrite map_app. cbn [map word_token].
    rewrite H1, H3. split; [reflexivity|].
    apply Forall_app. split; [exact H2|]. constructor; [exact I | exact H4].
Qed.

Lemma words_of_first (e : expr) : words_of e <> [].
Proof.
  induction e as [m|name|name args IH|e IH|op e IH|op l r IHl IHr]
    using expr_induction; cbn [words_of]; try discriminate.
  destruct (words_of l); [contradiction | discriminate].
Qed.

End Words.

(** The evaluator, called with the text of a tree and the object of a
    scope, returns a copy of the value of the tree and stores the text
    without its spaces: the text is the words of the tree, each followed
    by one space; the numbers are literals, the names are keys of the
    scope, and every operator stands where its binding power puts it.
    No key of the scope object is the name of a member of
    [Object.prototype], [__proto__] among them. *)
Theorem text_of_a_tree_evaluates (st : state)
    (entries : list (str * scope_value)) (sc : scope_object)
    (e : expr) (v : Decimal)
    (Hnames : ordinary_keys entries = true)
    (Hinstall : install entries [] = (sc, None))
    (Hlit : literals e = true)
    (Hwf : well_formed 0 e = true)
    (Hv : denote sc e = Some v) :
  evaluator st (JString (text_of e)) (JObject entries)
  = (Returns (copy v),
     State sc (tokenizer_of sc) (Some (tokens_of e ++ [TEnd]))
       (Some (flat_map word_text (words_of e)))).
Proof.
  clear Hnames.
  assert (Hkeys : valid_keys (map fst sc))
    by (eapply install_valid; [exact Hinstall | constructor]).
  destruct (words_of_tree sc e v Hlit Hv) as [Htok Hok].
  unfold text_of.
  assert (Hblank : forallb is_space (spell (words_of e)) = false).
  { pose proof (words_of_first e) as Hne.
    destruct (words_of e) as [|w ws]; [congruence|].
    apply (spell_not_blank sc Hkeys). inversion Hok; assumption. }
  rewrite (evaluator_installed st _ entries sc Hblank Hinstall).
  fold (tokenizer_of sc). cbv zeta.
  rewrite (replace_power_spell sc Hkeys _ Hok).
  rewrite (tokenize_words sc Hkeys _ Hok) by lia.
  cbn [app]. rewrite Htok. unfold evaluate_tokens. cbn [TOKENS SCOPE].
  rewrite (run_tree sc Hkeys e v Hwf Hv). reflexivity.
Qed.

End WithHost.

(** ** Examples on the host of the integers *)

Lemma blank_expression_witness :
  evaluator (host := integers) initial (JString (units "  ")) (JObject [(units "x", ARaw (host := integers) 1)])
  = (Throws InvalidExpression, initial).
Proof.
  apply (proj1 (blank_expression (host := integers) initial (units "  ")
                  (JObject [(units "x", ARaw (host := integers) 1)]))).
  reflexivity.
Defined.


Lemma logical_and_comparison_operators_witness :
  fst (evaluator (host := integers) initial (JString (units "2 > 3")) JUndefined)
    = Returns (host := integers) 0
  /\ fst (evaluator (host := integers) initial (JString (units "2 && 3")) JUndefined)
    = Returns (host := integers) 3
  /\ fst (evaluator (host := integers) initial (JString (units "0 || 4")) JUndefined)
    = Returns (host := integers) 4.
Proof.
  pose proof (logical_and_comparison_operators (host := integers)
                eq_refl eq_refl eq_refl)
    as (_ & _ & _ & _ & _ & H1 & H2 & H3 & _).
  exact (conj H1 (conj H2 H3)).
Defined.



Lemma implicit_multiplication_witness :
  fst (evaluator (host := integers) initial (JString (units "2x"))
         (JObject [(units "x", ARaw (host := integers) 21)]))
  = Returns (host := integers) 42
  /\ fst (evaluator (host := integers) initial (JString (units "(2)(x)"))
           (JObject [(units "x", ARaw (host := integers) 21)]))
     = Returns (host := integers) 42.
Proof.
  pose proof (implicit_multiplication (host := integers) initial
                [(units "x", ARaw (host := integers) 21)]
                [(units "x", SDec (host := integers) 21)] 21 eq_refl eq_refl)
    as (H1 & _ & H3 & _).
  exact (conj H1 H3).
Defined.

Lemma power_is_written_either_way_witness :
  evaluator (host := integers) initial (JString (units "2**3**2")) JUndefined
  = evaluator (host := integers) initial (JString (units "2**3^2")) JUndefined
  /\ fst (evaluator (host := integers) initial (JString (units "2**3^2")) JUndefined)
     = Returns (host := integers) 512.
Proof.
  split; [|reflexivity].
  apply (power_is_written_either_way (host := integers) initial
           (units "2**3") (units "2") JUndefined).
  discriminate.
Defined.

Lemma rebinding_keeps_the_identifiers_witness :
  let st' := snd (evaluator after_power
                    (JObject [(units "x", ARaw (host := integers) 4);
                              (units "z", ARaw (host := integers) 5)])
                    JUndefined) in
  shape (SCOPE st') = shape (SCOPE after_power)
  /\ TOKENS st' = TOKENS after_power
  /\ TOKENIZER st' = TOKENIZER after_power
  /\ eval_expression st' = eval_expression after_power.
Proof.
  apply (rebinding_keeps_the_identifiers (host := integers) after_power
           [(units "x", ARaw (host := integers) 4);
            (units "z", ARaw (host := integers) 5)]).
  reflexivity.
Defined.

Lemma variable_evaluates_to_its_value_witness :
  fst (evaluator (host := integers) initial (JString (units "xy"))
         (JObject example_entries)) = Returns (host := integers) 5.
Proof.
  apply (variable_evaluates_to_its_value (host := integers) initial
           example_entries example_scope (units "xy") 5); reflexivity.
Defined.

Lemma rebinding_is_a_new_call_witness :
  evaluator (host := integers)
    (snd (evaluator (host := integers) initial (JString (units "x^xy"))
            (JObject example_entries)))
    (JObject [(units "xy", ARaw (host := integers) 4)]) JUndefined
  = evaluator (host := integers) initial (JString (units "x^xy"))
      (JObject (merge example_entries [(units "xy", ARaw (host := integers) 4)])).
Proof.
  apply (rebinding_is_a_new_call (host := integers) initial (units "x^xy")
           example_entries [(units "xy", ARaw (host := integers) 4)]
           example_scope
           [(units "x", SDec (host := integers) 2);
            (units "xy", SDec (host := integers) 4);
            (units "max", SFun max_function)]).
  - reflexivity.
  - reflexivity.
  - repeat constructor; cbn; intuition discriminate.
  - reflexivity.
  - vm_compute. discriminate.
  - reflexivity.
Defined.

Lemma unbound_name_is_an_unknown_symbol_witness :
  let r := evaluator (host := integers) initial (JString (units "y + 1"))
             (JObject example_entries) in
  fst r = Throws (UnknownSymbol (Some 121))
  /\ TOKENS (snd r) = None /\ SCOPE (snd r) = example_scope.
Proof.
  apply (unbound_name_is_an_unknown_symbol (host := integers) initial
           example_entries example_scope 121 (units " + 1")).
  - reflexivity.
  - reflexivity.
  - repeat constructor; cbn; lia.
Defined.

Lemma number_evaluates_to_its_decimal_witness :
  evaluator (host := integers) initial (JString (units "12.5e+3")) JUndefined
  = (Returns (host := integers) 12,
     State (host := integers) [] DEFAULT_TOKENIZER
       (Some [TNum (host := integers) 12; TEnd]) (Some (units "12.5e+3"))).
Proof.
  apply (number_evaluates_to_its_decimal (host := integers) initial (units "12.5e+3")).
  - apply reachable_initial.
  - reflexivity.
Defined.

Lemma stored_expression_has_no_white_space_witness :
  no_space (units "2*x+1") = true.
Proof.
  apply (stored_expression_has_no_white_space (host := integers)
           (snd (evaluator (host := integers) initial (JString (units " 2x + 1 "))
                   (JObject example_entries)))).
  - apply reachable_call, reachable_initial.
  - vm_compute. reflexivity.
Defined.

Lemma evaluation_reads_the_tree_witness :
  run (host := integers) example_scope (tokens_of example_tree ++ [TEnd])
  = Done (host := integers) (-108) (length (tokens_of (host := integers) example_tree))
  /\ forall (ids : list str) (parsed : option str),
       fst (evaluate_tokens (host := integers)
              (State example_scope ids (Some (tokens_of example_tree ++ [TEnd])) parsed))
       = Returns (host := integers) (-108).
Proof.
  apply (evaluation_reads_the_tree (host := integers) example_scope).
  - repeat constructor.
  - reflexivity.
  - reflexivity.
Defined.

Lemma operators_by_binding_power_witness :
  (exists v,
     denote (host := integers) []
       (if infix_rbp Minus <? op_lbp Times
        then EInfix Minus (ENum (units "7")) (EInfix Times (ENum (units "2")) (ENum (units "3")))
        else EInfix Times (EInfix Minus (ENum (units "7")) (ENum (units "2"))) (ENum (units "3"))) = Some v
     /\ run (host := integers) []
          [TNum (host := integers) 7; TOp Minus; TNum (host := integers) 2; TOp Times;
           TNum (host := integers) 3; TEnd] = Done (copy v) 5)
  /\ (exists v,
        denote (host := integers) []
          (if prefix_rbp Not <? op_lbp Minus
           then EPrefix Not (EInfix Minus (ENum (units "7")) (ENum (units "2")))
           else EInfix Minus (EPrefix Not (ENum (units "7"))) (ENum (units "2"))) = Some v
        /\ run (host := integers) []
             [TOp Not; TNum (host := integers) 7; TOp Minus; TNum (host := integers) 2; TEnd]
           = Done (copy v) 4).
Proof.
  apply (operators_by_binding_power (host := integers) [] Minus Times Not
           (units "7") (units "2") (units "3")).
  - cbn. lia.
  - cbn. lia.
  - cbn. tauto.
Defined.

Lemma text_of_a_tree_evaluates_witness :
  evaluator (host := integers) initial
    (JString (units "max ( x , 3 ) * - ( 1 + xy ) ^ 2 "))
    (JObject example_entries)
  = (Returns (host := integers) (-108),
     State example_scope [units "max"; units "xy"; units "x"]
       (Some (tokens_of example_tree ++ [TEnd]))
       (Some (units "max(x,3)*-(1+xy)^2"))).
Proof.
  apply (text_of_a_tree_evaluates (host := integers) initial example_entries
           example_scope example_tree (-108)); reflexivity.
Defined.

Lemma operand_missing_is_unexpected_witness :
  run (host := integers) example_scope
    [TOp Minus; TNum (host := integers) 2; TOp Pow; TEnd]
  = Throw (Unexpected TEnd).
Proof.
  apply (operand_missing_is_unexpected (host := integers) example_scope
           (EPrefix Minus (ENum (units "2"))) (-2) Pow TEnd []).
  - repeat constructor.
  - reflexivity.
  - reflexivity.
  - cbn. lia.
  - reflexivity.
Defined.

Lemma complete_expression_must_end_witness :
  run (host := integers) example_scope
    [TNum (host := integers) 1; TOp Plus; TVar (units "xy"); TOp RParen; TEnd]
  = Throw (Unexpected (TOp RParen)).
Proof.
  apply (complete_expression_must_end (host := integers) example_scope
           (EInfix Plus (ENum (units "1")) (EVar (units "xy"))) 6
           (TOp RParen) [TEnd]).
  - repeat constructor.
  - reflexivity.
  - reflexivity.
  - reflexivity.
Defined.

Lemma parenthesis_must_close_witness :
  run (host := integers) example_scope
    [TOp LParen; TNum (host := integers) 1; TOp Plus; TVar (units "xy"); TEnd]
  = Throw ExpectedRParen.
Proof.
  apply (parenthesis_must_close (host := integers) example_scope
           (EInfix Plus (ENum (units "1")) (EVar (units "xy"))) 6 TEnd []).
  - repeat constructor.
  - reflexivity.
  - reflexivity.
  - reflexivity.
  - reflexivity.
Defined.

End EvaluateFacts.
